(** * libcpp-gc: the reference-counting collector of [GarbageCollector.h]

    A shallow embedding of the header: [std::shared_ptr] ownership groups
    as a store of control blocks, the collector's [_pointers] list, the
    loop of [collect] evaluation by evaluation, [alloc], [getInstance],
    and the two threads of [runtime] as a machine that a schedule drives.
    Managed objects are first taken as opaque: the last release of a
    group calls the deleter, and that is all.  The module [Members] at
    the end of the definitions is the same collector over objects that
    hold handles themselves and release them in their destructors.  The
    function that [runtime] runs works on handle variables only. *)

From stdpp Require Import base option list gmap.
From Stdlib Require Import ZArith Lia.

Set Default Proof Using "Type".

(** ** Shared ownership: [std::shared_ptr] and its control blocks *)

(** A raw address [TType*]. *)
Definition raw := Z.

(** The control block of one ownership group: the raw object handed to the
    deleter and the number of [shared_ptr] values in the group. *)
Record ctrl := Ctrl { managed : raw; use_count : nat }.

(** A [shared_ptr] value names its control block; [None] is [nullptr]. *)
Abbreviation shared_ptr := (option nat).

(** The free store: the live control blocks, the next block address the
    allocator hands out, and the deleter calls made so far, oldest first
    ([delete p] appends [p]). *)
Record heap := Heap {
  blocks : gmap nat ctrl;
  fresh_block : nat;
  deleted : list raw
}.

(** [sp.use_count()]: 0 for an empty pointer. *)
Definition sp_use_count (h : heap) (sp : shared_ptr) : nat :=
  match sp with
  | None => 0
  | Some b => from_option use_count 0 (blocks h !! b)
  end.

(** [sp.unique()], that is [use_count() == 1]. *)
Definition unique (h : heap) (sp : shared_ptr) : bool :=
  Nat.eqb (sp_use_count h sp) 1.

(** [std::shared_ptr<TType>(instance)]: a new control block that owns
    [instance], with one owner. *)
Definition sp_from_raw (p : raw) (h : heap) : shared_ptr * heap :=
  (Some (fresh_block h),
   Heap (<[fresh_block h := Ctrl p 1]> (blocks h)) (S (fresh_block h)) (deleted h)).

(** Copy construction: one more owner in the group of [sp]. *)
Definition sp_copy (sp : shared_ptr) (h : heap) : heap :=
  match sp with
  | None => h
  | Some b =>
      Heap (alter (fun c => Ctrl (managed c) (S (use_count c))) b (blocks h))
           (fresh_block h) (deleted h)
  end.

(** Destruction or reset of one [shared_ptr]: the count drops by one, and
    the owner that brings it to zero runs the deleter on the managed
    object and frees the control block.  What the destructor of an
    object that holds handles releases in turn is in
    [Members.release_all]. *)
Definition sp_release (sp : shared_ptr) (h : heap) : heap :=
  match sp with
  | None => h
  | Some b =>
      match blocks h !! b with
      | None => h
      | Some c =>
          if Nat.eqb (Nat.pred (use_count c)) 0
          then Heap (delete b (blocks h)) (fresh_block h) (deleted h ++ [managed c])
          else Heap (<[b := Ctrl (managed c) (Nat.pred (use_count c))]> (blocks h))
                    (fresh_block h) (deleted h)
      end
  end.

(** ** The collector object *)

(** [class GarbageCollector]: its data members, the mutex (locked or
    not) and the list [_pointers]. *)
Record GarbageCollector := Collector {
  _mutex : bool;
  _pointers : list shared_ptr
}.

(** The state a method of the collector works on: the free store and
    the object [*this]. *)
Record world := World { mem : heap; gc : GarbageCollector }.

Definition registry (w : world) : list shared_ptr := _pointers (gc w).

Definition with_pointers (l : list shared_ptr) (w : world) : world :=
  World (mem w) (Collector (_mutex (gc w)) l).

(** [*iterator = nullptr] on an object that holds no handle: the slot
    gives up its share and holds [nullptr].  For an object that holds
    handles, see [Members.assign_nullptr]. *)
Definition assign_nullptr (iterator : nat) (w : world) : world :=
  match registry w !! iterator with
  | None => w
  | Some sp =>
      World (sp_release sp (mem w))
            (Collector (_mutex (gc w)) (<[iterator := None]> (registry w)))
  end.

(** [_pointers.erase(iterator)]: unlinks the node and returns the
    iterator to the node that followed it, which now sits at the same
    position. *)
Definition erase (iterator : nat) (w : world) : nat * world :=
  (iterator, with_pointers (delete iterator (registry w)) w).

(** One evaluation of the loop of [collect]: the test
    [iterator != _pointers.end()] and, when it holds, the body.  An
    iterator is the position of its node, [begin()] is position 0 and
    [end()] the length of the list, so that away from [end()] the lookup
    finds the node.  The [for] statement has no increment, and the body
    moves the iterator only through [erase]. *)
Inductive loop := Again (w : world) (iterator : nat) | Leave (w : world).

Definition collect_iter (w : world) (iterator : nat) : loop :=
  match registry w !! iterator with
  | None => Leave w
  | Some sp =>
      if unique (mem w) sp
      then let '(iterator', w') := erase iterator (assign_nullptr iterator w) in
           Again w' iterator'
      else Again w iterator
  end.

(** The loop after at most [n] evaluations of its test. *)
Fixpoint collect_run (n : nat) (w : world) (iterator : nat) : loop :=
  match n with
  | O => Again w iterator
  | S n' =>
      match collect_iter w iterator with
      | Leave w' => Leave w'
      | Again w' iterator' => collect_run n' w' iterator'
      end
  end.

(** [collect()]: the loop from [iterator = _pointers.begin()], given
    [fuel] evaluations of its test; [None] when it is still running
    after that many.  The lock guard on [_mutex] is taken on entry and
    dropped on return. *)
Definition collect (fuel : nat) (w : world) : option world :=
  match collect_run fuel w 0 with
  | Leave w' => Some w'
  | Again _ _ => None
  end.

(** [alloc(instance)]: a handle on a new ownership group, a copy of it
    pushed at the back of [_pointers], the handle returned. *)
Definition alloc (instance : raw) (w : world) : shared_ptr * world :=
  let '(pointer, h) := sp_from_raw instance (mem w) in
  (pointer, with_pointers (registry w ++ [pointer]) (World (sp_copy pointer h) (gc w))).

Definition empty_heap : heap := Heap ∅ 0 [].
Definition empty_world : world := World empty_heap (Collector false []).

(** ** The static members and [getInstance] *)

(** The process: the free store, the [GarbageCollector] objects made by
    [new] (an object's address is its position), the static
    [_instance] (an address, or null) and the static [_cvMutex].
    [_globalMutex] is taken and dropped inside [getInstance]. *)
Record process := Process {
  store : heap;
  objects : list GarbageCollector;
  _instance : option nat;
  _cvMutex : bool
}.

(** [new GarbageCollector]: a default-constructed object at a new
    address. *)
Definition new_GarbageCollector (s : process) : nat * process :=
  (length (objects s),
   Process (store s) (objects s ++ [Collector false []]) (_instance s) (_cvMutex s)).

Definition set_instance (a : nat) (s : process) : process :=
  Process (store s) (objects s) (Some a) (_cvMutex s).

(** [getInstance()]: the unsynchronised test, then under [_globalMutex]
    the second test and the construction. *)
Definition getInstance (s : process) : option nat * process :=
  let s' :=
    match _instance s with
    | Some _ => s
    | None =>
        match _instance s with
        | Some _ => s
        | None => let '(a, s1) := new_GarbageCollector s in set_instance a s1
        end
    end in
  (_instance s', s').

(** A call [getInstance()->m(...)] of a method [m]: the method runs on
    the object the returned pointer designates; through a null or
    dangling pointer nothing is modelled. *)
Definition call {A} (m : world -> A * world) (s : process) : option (A * process) :=
  let '(inst, s1) := getInstance s in
  a ← inst;
  g ← objects s1 !! a;
  let '(r, w) := m (World (store s1) g) in
  Some (r, Process (mem w) (<[a := gc w]> (objects s1)) (_instance s1) (_cvMutex s1)).

Definition start : process := Process empty_heap [] None false.

(** [n] calls of [getInstance()] in a row: what they return, and the
    process after them. *)
Fixpoint getInstance_calls (n : nat) (s : process) : list (option nat) * process :=
  match n with
  | O => ([], s)
  | S n' =>
      let '(inst, s1) := getInstance s in
      let '(rest, s2) := getInstance_calls n' s1 in
      (inst :: rest, s2)
  end.

(** *** [getInstance] called from several threads *)

(** The steps of one call, for threads that interleave between the two
    tests, the lock, the assignment and the return. *)

(** Where a thread is inside [getInstance()]. *)
Inductive getInstance_pc :=
  | AtEntry                  (* before the unsynchronised test of [_instance] *)
  | WantLock                 (* found null; before the guard on [_globalMutex] *)
  | Locked                   (* holds [_globalMutex]; before the second test *)
  | Constructing             (* holds it; found null again; before the assignment *)
  | Unlock                   (* holds it; at the end of the guarded block *)
  | AtReturn                 (* before [return _instance] *)
  | Got (r : option nat).    (* has returned [r] *)

Record callers := Callers {
  shared : process;
  _globalMutex : bool;
  pcs : list getInstance_pc
}.

(** One step of thread [i]; a thread that waits for the mutex, or has
    returned, stays where it is. *)
Definition getInstance_step (i : nat) (d : callers) : callers :=
  match pcs d !! i with
  | Some AtEntry =>
      Callers (shared d) (_globalMutex d)
              (<[i := match _instance (shared d) with
                      | Some _ => AtReturn
                      | None => WantLock
                      end]> (pcs d))
  | Some WantLock =>
      if _globalMutex d then d
      else Callers (shared d) true (<[i := Locked]> (pcs d))
  | Some Locked =>
      Callers (shared d) (_globalMutex d)
              (<[i := match _instance (shared d) with
                      | Some _ => Unlock
                      | None => Constructing
                      end]> (pcs d))
  | Some Constructing =>
      let '(a, s1) := new_GarbageCollector (shared d) in
      Callers (set_instance a s1) (_globalMutex d) (<[i := Unlock]> (pcs d))
  | Some Unlock =>
      Callers (shared d) false (<[i := AtReturn]> (pcs d))
  | Some AtReturn =>
      Callers (shared d) (_globalMutex d) (<[i := Got (_instance (shared d))]> (pcs d))
  | Some (Got _) | None => d
  end.

Definition getInstance_run (sched : list nat) (d : callers) : callers :=
  fold_left (fun d i => getInstance_step i d) sched d.

(** [n] threads that all enter [getInstance()] on process [s]. *)
Definition enter (n : nat) (s : process) : callers :=
  Callers s false (replicate n AtEntry).

(** ** [runtime]: the calling thread and the collection thread *)

(** What the unit of work does with handles.  Its handle variables are
    numbered in the order they come to exist: [Gc p] is
    [auto v = gc(p)], [Copy i] is [auto v = v_i], and [Reset i] is
    [v_i.reset()] (or the end of the variable's life). *)
Inductive op := Gc (p : raw) | Copy (i : nat) | Reset (i : nat).

(** The function passed to [runtime]: its handle operations and the
    [int] it returns, which is only passed on. *)
Record work := Work { body : list op; status : Z }.

(** Where the calling thread is in [runtime]. *)
Inductive caller_pc :=
  | InFunction (rest : list op)   (* inside [function()] *)
  | Signal (code : Z)             (* before the block that sets [gcStopSignal] *)
  | Join (code : Z)               (* notified; in [garbageCollectionThread.join()] *)
  | Returned (code : Z).          (* [return code] done *)

(** Where the collection thread is in its lambda. *)
Inductive sweeper_pc :=
  | Waiting                       (* in [_cv.wait_for], [_cvMutex] released *)
  | Woken (isNotTimeout : bool)   (* [wait_for] returned, [_cvMutex] held *)
  | Collecting (isNotTimeout : bool) (this iterator : nat)
                                  (* in the loop of [collect], both mutexes held *)
  | Exited.                       (* after [break] *)

Inductive event :=
  | StopSet | SweepBegin | SweepEnd | LoopExit | Return (code : Z).

Record config := Config {
  proc : process;
  vars : list shared_ptr;     (* the handle variables of the unit of work *)
  gcStopSignal : bool;
  caller : caller_pc;
  garbageCollectionThread : sweeper_pc;
  trace : list event          (* oldest first *)
}.

Definition set_cvMutex (b : bool) (s : process) : process :=
  Process (store s) (objects s) (_instance s) b.

Definition set_store (h : heap) (s : process) : process :=
  Process h (objects s) (_instance s) (_cvMutex s).

Definition set_mutex (b : bool) (a : nat) (s : process) : process :=
  Process (store s)
          (alter (fun g => Collector b (_pointers g)) a (objects s))
          (_instance s) (_cvMutex s).

(** The object behind [_instance], if any, and its list. *)
Definition the_collector (s : process) : option GarbageCollector :=
  a ← _instance s; objects s !! a.

Definition tracked (s : process) : list shared_ptr :=
  from_option _pointers [] (the_collector s).

(** One handle operation of the unit of work.  [gc(p)] has to take
    [_mutex] of the collector: while the collection thread holds it the
    caller stays where it is. *)
Definition do_op (o : op) (rest : list op) (c : config) : config :=
  match o with
  | Gc p =>
      let '(inst, s1) := getInstance (proc c) in
      match inst ≫= (fun a => objects s1 !! a) with
      | Some g =>
          if _mutex g then
            Config s1 (vars c) (gcStopSignal c) (caller c)
                   (garbageCollectionThread c) (trace c)
          else
            match call (alloc p) (proc c) with
            | Some (sp, s2) =>
                Config s2 (vars c ++ [sp]) (gcStopSignal c) (InFunction rest)
                       (garbageCollectionThread c) (trace c)
            | None => c
            end
      | None => c
      end
  | Copy i =>
      let sp := default None (vars c !! i) in
      Config (set_store (sp_copy sp (store (proc c))) (proc c)) (vars c ++ [sp])
             (gcStopSignal c) (InFunction rest) (garbageCollectionThread c) (trace c)
  | Reset i =>
      let sp := default None (vars c !! i) in
      Config (set_store (sp_release sp (store (proc c))) (proc c))
             (<[i := None]> (vars c))
             (gcStopSignal c) (InFunction rest) (garbageCollectionThread c) (trace c)
  end.

(** One step of the calling thread. *)
Definition caller_step (w : work) (c : config) : config :=
  match caller c with
  | InFunction (o :: rest) => do_op o rest c
  | InFunction [] =>
      (* [auto code = function();] *)
      Config (proc c) (vars c) (gcStopSignal c) (Signal (status w))
             (garbageCollectionThread c) (trace c)
  | Signal code =>
      (* [{ lock_guard(_cvMutex); gcStopSignal = true; } _cv.notify_one();] *)
      if _cvMutex (proc c) then c
      else Config (proc c) (vars c) true (Join code) (garbageCollectionThread c)
                  (trace c ++ [StopSet])
  | Join code =>
      (* [garbageCollectionThread.join(); return code;] *)
      match garbageCollectionThread c with
      | Exited =>
          Config (proc c) (vars c) (gcStopSignal c) (Returned code)
                 (garbageCollectionThread c) (trace c ++ [Return code])
      | _ => c
      end
  | Returned _ => c
  end.

(** One step of the collection thread. *)
Definition sweeper_step (c : config) : config :=
  match garbageCollectionThread c with
  | Waiting =>
      (* [wait_for] comes back, on the signal or on the timeout, with
         [_cvMutex] held and the value of the predicate *)
      if _cvMutex (proc c) then c
      else Config (set_cvMutex true (proc c)) (vars c) (gcStopSignal c) (caller c)
                  (Woken (gcStopSignal c)) (trace c)
  | Woken b =>
      (* [getInstance()->collect()]: the lock guard and [begin()] *)
      let '(inst, s1) := getInstance (proc c) in
      match inst with
      | Some a =>
          match objects s1 !! a with
          | Some g =>
              if _mutex g then
                Config s1 (vars c) (gcStopSignal c) (caller c)
                       (garbageCollectionThread c) (trace c)
              else Config (set_mutex true a s1) (vars c) (gcStopSignal c) (caller c)
                          (Collecting b a 0) (trace c ++ [SweepBegin])
          | None => c
          end
      | None => c
      end
  | Collecting b a it =>
      match objects (proc c) !! a with
      | Some g =>
          match collect_iter (World (store (proc c)) g) it with
          | Again w it' =>
              Config (Process (mem w) (<[a := gc w]> (objects (proc c)))
                              (_instance (proc c)) (_cvMutex (proc c)))
                     (vars c) (gcStopSignal c) (caller c) (Collecting b a it') (trace c)
          | Leave w =>
              (* [collect] returns; [if (isNotTimeout) break;]; the
                 locks of the iteration are dropped *)
              Config (set_cvMutex false (set_mutex false a (proc c)))
                     (vars c) (gcStopSignal c) (caller c)
                     (if b then Exited else Waiting)
                     (trace c ++ SweepEnd :: (if b then [LoopExit] else []))
          end
      | None => c
      end
  | Exited => c
  end.

Inductive thread := CallerThread | SweeperThread.

Definition step (w : work) (t : thread) (c : config) : config :=
  match t with
  | CallerThread => caller_step w c
  | SweeperThread => sweeper_step c
  end.

(** [runtime(function)] under a schedule: the collection thread is
    started, and then the two threads move in the order the schedule
    gives, one step at a time.  A step is one handle operation of the
    function, one guarded block, or one evaluation of the loop of
    [collect]; a thread that is scheduled while it is blocked stays where
    it is.  Time is not modelled: the wait of the collection thread may
    end at any point, as it does when the interval has passed. *)
Definition runtime_begin (w : work) (s : process) : config :=
  Config s [] false (InFunction (body w)) Waiting [].

Definition run (w : work) (sched : list thread) (c : config) : config :=
  fold_left (fun c t => step w t c) sched c.

Definition runtime (w : work) (sched : list thread) (s : process) : config :=
  run w sched (runtime_begin w s).

(** The value [runtime] has returned, if it has. *)
Definition result (c : config) : option Z :=
  match caller c with Returned code => Some code | _ => None end.

(** ** The sweep as the specification words it *)

(** One pass over all entries: an entry whose group has the list as its
    only owner is released and removed, any other entry is kept, and the
    pass goes on to the next entry either way. *)
Fixpoint sweep_entries (h : heap) (l : list shared_ptr) : heap * list shared_ptr :=
  match l with
  | [] => (h, [])
  | sp :: l' =>
      if unique h sp then sweep_entries (sp_release sp h) l'
      else let '(h', kept) := sweep_entries h l' in (h', sp :: kept)
  end.

Definition sweep_as_specified (w : world) : world :=
  let '(h, kept) := sweep_entries (mem w) (registry w) in
  World h (Collector (_mutex (gc w)) kept).

(** ** Predicates on collector states *)

Definition state_of (r : loop) : world :=
  match r with Again w _ => w | Leave w => w end.

(** What a sweep that has run long enough has done: it has evicted the
    leading unique entries, and it sits on the first entry that is not
    unique, or has left the loop on the empty list. *)
Definition settled (w : world) : Prop :=
  collect_iter w 0 = Leave w \/ collect_iter w 0 = Again w 0.

(** No two live groups manage the same raw object. *)
Definition separate_objects (h : heap) : Prop :=
  forall b1 b2 c1 c2,
    blocks h !! b1 = Some c1 -> blocks h !! b2 = Some c2 ->
    managed c1 = managed c2 -> b1 = b2.

(** The list holds each handle once, and the handles in it are older
    than the next block the allocator hands out, which is not in use. *)
Definition registry_wf (w : world) : Prop :=
  NoDup (registry w) /\
  (forall b, Some b ∈ registry w -> b < fresh_block (mem w)) /\
  (forall b, fresh_block (mem w) <= b -> blocks (mem w) !! b = None).

(** What can happen to the collector and the store after a call of
    [alloc]: more calls of [alloc], iterations of the loop of [collect],
    and owners anywhere copying or dropping handles. *)
Inductive evolves (w : world) : world -> Prop :=
  | evolves_here : evolves w w
  | evolves_alloc w1 q : evolves w w1 -> evolves w (snd (alloc q w1))
  | evolves_iter w1 it : evolves w w1 -> evolves w (state_of (collect_iter w1 it))
  | evolves_copy w1 sp :
      evolves w w1 -> evolves w (World (sp_copy sp (mem w1)) (gc w1))
  | evolves_release w1 sp :
      evolves w w1 -> evolves w (World (sp_release sp (mem w1)) (gc w1)).

(** ** Invariants of [runtime] *)

(** The number of handle variables that hold a handle of group [b]. *)
Definition occ (b : nat) (l : list shared_ptr) : nat :=
  length (filter (fun sp => sp = Some b) l).

(** The static [_instance] and the objects: nothing constructed yet, or
    the one collector at address 0, its mutex in state [m]. *)
Definition instance_ok (m : bool) (s : process) : Prop :=
  (objects s = [] /\ _instance s = None /\ m = false) \/
  (exists l, objects s = [Collector m l] /\ _instance s = Some 0).

(** Which locks are held at each point of the collection thread, and
    where its iterator is. *)
Definition inv_locks (c : config) : Prop :=
  match garbageCollectionThread c with
  | Waiting | Exited => _cvMutex (proc c) = false /\ instance_ok false (proc c)
  | Woken _ => _cvMutex (proc c) = true /\ instance_ok false (proc c)
  | Collecting _ a it =>
      _cvMutex (proc c) = true /\ a = 0 /\ it = 0 /\
      exists l, objects (proc c) = [Collector true l] /\ _instance (proc c) = Some 0
  end.

(** Reference counts: a live group is in the list once and counts the
    list and the handle variables that hold it; a group that is not live
    is in no variable and not in the list. *)
Definition inv_counts (c : config) : Prop :=
  let h := store (proc c) in
  let l := tracked (proc c) in
  NoDup l
  /\ (forall b cb, blocks h !! b = Some cb ->
                   Some b ∈ l /\ use_count cb = S (occ b (vars c)))
  /\ (forall b, blocks h !! b = None -> (Some b ∉ l) /\ (Some b ∉ vars c))
  /\ (forall b, fresh_block h <= b -> blocks h !! b = None).

(** The stop flag against the two program counters. *)
Definition inv_control (w : work) (c : config) : Prop :=
  match caller c with
  | InFunction rest => gcStopSignal c = false
  | Signal code => gcStopSignal c = false /\ code = status w
  | Join code => gcStopSignal c = true /\ code = status w
  | Returned code =>
      gcStopSignal c = true /\ code = status w /\ garbageCollectionThread c = Exited
  end
  /\ match garbageCollectionThread c with
     | Waiting => True
     | Woken b | Collecting b _ _ => b = true -> gcStopSignal c = true
     | Exited => gcStopSignal c = true /\ tracked (proc c) = []
     end.

(** The order of the events so far. *)
Definition inv_trace (c : config) : Prop :=
  (gcStopSignal c = true -> [StopSet] `sublist_of` trace c)
  /\ match garbageCollectionThread c with
     | Collecting true _ _ => [StopSet; SweepBegin] `sublist_of` trace c
     | Exited => [StopSet; SweepBegin; SweepEnd; LoopExit] `sublist_of` trace c
     | _ => True
     end
  /\ match caller c with
     | Returned code =>
         [StopSet; SweepBegin; SweepEnd; LoopExit; Return code] `sublist_of` trace c
     | _ => True
     end.

(** The handle operations still to run. *)
Definition rest_of (pc : caller_pc) : list op :=
  match pc with InFunction rest => rest | _ => [] end.

(** The effect of handle operations on the handle variables alone: the
    number of groups made so far and the variables. *)
Definition op_effect (st : nat * list shared_ptr) (o : op) : nat * list shared_ptr :=
  let '(n, vs) := st in
  match o with
  | Gc _ => (S n, vs ++ [Some n])
  | Copy i => (n, vs ++ [default None (vs !! i)])
  | Reset i => (n, <[i := None]> vs)
  end.

Definition handles (ops : list op) : nat * list shared_ptr :=
  fold_left op_effect ops (0, []).

(** The raw objects a list of operations registers. *)
Definition allocated (ops : list op) : list raw :=
  omap (fun o => match o with Gc p => Some p | _ => None end) ops.

(** How far the unit of work has come, and what that means for its
    variables and for the objects. *)
Definition inv_done (w : work) (c : config) : Prop :=
  exists done,
    body w = done ++ rest_of (caller c)
    /\ handles done = (fresh_block (store (proc c)), vars c)
    /\ (forall b cb, blocks (store (proc c)) !! b = Some cb ->
                     managed cb ∈ allocated done)
    /\ (forall p, p ∈ deleted (store (proc c)) -> p ∈ allocated done)
    /\ (NoDup (allocated (body w)) ->
        separate_objects (store (proc c)) /\
        forall b cb, blocks (store (proc c)) !! b = Some cb ->
                     managed cb ∉ deleted (store (proc c))).

(** No entry of the list is null. *)
Definition inv_entries (c : config) : Prop := None ∉ tracked (proc c).

Record inv (w : work) (c : config) : Prop := Inv {
  inv_l : inv_locks c;
  inv_n : inv_counts c;
  inv_c : inv_control w c;
  inv_t : inv_trace c;
  inv_d : inv_done w c;
  inv_e : inv_entries c
}.

(** ** The steps as a relation *)

(** What one step of either thread does to a configuration in which the
    locks are as [inv_locks] has them: the transitions of [step], each
    with the state it leads to written out.  A blocked thread, and the
    loop of [collect] on an entry that is not unique, leave the
    configuration as it is. *)
Inductive moves (w : work) (c : config) : config -> Prop :=
  | moves_stay : moves w c c
  | moves_gc p rest :
      caller c = InFunction (Gc p :: rest) ->
      (forall b a it, garbageCollectionThread c <> Collecting b a it) ->
      let h := store (proc c) in
      moves w c
        (Config (Process (Heap (<[fresh_block h := Ctrl p 2]> (blocks h))
                               (S (fresh_block h)) (deleted h))
                         [Collector false (tracked (proc c) ++ [Some (fresh_block h)])]
                         (Some 0) (_cvMutex (proc c)))
                (vars c ++ [Some (fresh_block h)]) (gcStopSignal c)
                (InFunction rest) (garbageCollectionThread c) (trace c))
  | moves_copy i rest :
      caller c = InFunction (Copy i :: rest) ->
      moves w c
        (Config (set_store (sp_copy (default None (vars c !! i)) (store (proc c)))
                           (proc c))
                (vars c ++ [default None (vars c !! i)]) (gcStopSignal c)
                (InFunction rest) (garbageCollectionThread c) (trace c))
  | moves_reset i rest :
      caller c = InFunction (Reset i :: rest) ->
      moves w c
        (Config (set_store (sp_release (default None (vars c !! i)) (store (proc c)))
                           (proc c))
                (<[i := None]> (vars c)) (gcStopSignal c)
                (InFunction rest) (garbageCollectionThread c) (trace c))
  | moves_function_returns :
      caller c = InFunction [] ->
      moves w c
        (Config (proc c) (vars c) (gcStopSignal c) (Signal (status w))
                (garbageCollectionThread c) (trace c))
  | moves_signal code :
      caller c = Signal code -> _cvMutex (proc c) = false ->
      moves w c
        (Config (proc c) (vars c) true (Join code) (garbageCollectionThread c)
                (trace c ++ [StopSet]))
  | moves_join code :
      caller c = Join code -> garbageCollectionThread c = Exited ->
      moves w c
        (Config (proc c) (vars c) (gcStopSignal c) (Returned code) (garbageCollectionThread c)
                (trace c ++ [Return code]))
  | moves_wake :
      garbageCollectionThread c = Waiting ->
      moves w c
        (Config (set_cvMutex true (proc c)) (vars c) (gcStopSignal c) (caller c)
                (Woken (gcStopSignal c)) (trace c))
  | moves_begin b :
      garbageCollectionThread c = Woken b ->
      moves w c
        (Config (Process (store (proc c)) [Collector true (tracked (proc c))]
                         (Some 0) (_cvMutex (proc c)))
                (vars c) (gcStopSignal c) (caller c)
                (Collecting b 0 0) (trace c ++ [SweepBegin]))
  | moves_evict b bk cb l :
      garbageCollectionThread c = Collecting b 0 0 ->
      tracked (proc c) = Some bk :: l ->
      blocks (store (proc c)) !! bk = Some cb -> use_count cb = 1 ->
      let h := store (proc c) in
      moves w c
        (Config (Process (Heap (delete bk (blocks h)) (fresh_block h)
                               (deleted h ++ [managed cb]))
                         [Collector true l] (Some 0) (_cvMutex (proc c)))
                (vars c) (gcStopSignal c) (caller c)
                (Collecting b 0 0) (trace c))
  | moves_leave b :
      garbageCollectionThread c = Collecting b 0 0 ->
      tracked (proc c) = [] ->
      moves w c
        (Config (Process (store (proc c)) [Collector false []] (Some 0) false)
                (vars c) (gcStopSignal c) (caller c)
                (if b then Exited else Waiting)
                (trace c ++ SweepEnd :: (if b then [LoopExit] else []))).

(** No eviction has happened: nothing is deleted and the list holds
    every group ever made, in the order of their making. *)
Definition nothing_evicted (c : config) : Prop :=
  deleted (store (proc c)) = []
  /\ tracked (proc c) = Some <$> seq 0 (fresh_block (store (proc c))).

(** ** Invariant of the threads inside [getInstance] *)

Definition holds_lock (pc : getInstance_pc) : bool :=
  match pc with Locked | Constructing | Unlock => true | _ => false end.

(** What holds between the threads inside [getInstance] when they
    started on [start]. *)
Definition callers_inv (d : callers) : Prop :=
  ((objects (shared d) = [] /\ _instance (shared d) = None) \/
   (exists g, objects (shared d) = [g] /\ _instance (shared d) = Some 0))
  /\ (forall i j pi pj, pcs d !! i = Some pi -> pcs d !! j = Some pj ->
                        holds_lock pi = true -> holds_lock pj = true -> i = j)
  /\ (_globalMutex d = false ->
      forall i pi, pcs d !! i = Some pi -> holds_lock pi = false)
  /\ (forall i, pcs d !! i = Some Constructing -> _instance (shared d) = None)
  /\ (forall i, pcs d !! i = Some Unlock \/ pcs d !! i = Some AtReturn ->
                _instance (shared d) = Some 0)
  /\ (forall i r, pcs d !! i = Some (Got r) -> r = Some 0).

(** ** Collector states used in the statements below *)

(** One tracked object whose handle the caller still holds. *)
Definition one_owned (p : raw) : world := snd (alloc p empty_world).

(** Two tracked objects, [pB] then [pA]: the caller still holds the
    handle of the first and has dropped the handle of the second. *)
Definition owned_then_unique (pB pA : raw) : world :=
  let '(_, w1) := alloc pB empty_world in
  let '(spA, w2) := alloc pA w1 in
  World (sp_release spA (mem w2)) (gc w2).

(** Two tracked objects, [pA] then [pB]: the caller has dropped the
    handle of the first and still holds the handle of the second. *)
Definition unique_then_owned (pA pB : raw) : world :=
  let '(spA, w1) := alloc pA empty_world in
  let '(_, w2) := alloc pB w1 in
  World (sp_release spA (mem w2)) (gc w2).


(** ** Units of work used in the statements below *)

(** [static auto keep = gc(p); return code;]: the handle outlives the
    call of the function. *)
Definition keeps_handle (p : raw) (code : Z) : work := Work [Gc p] code.

(** [keep = gc(pB); { auto a = gc(pA); } return code;]: the first
    handle outlives the call, the second is dropped inside it. *)
Definition keeps_first_drops_second (pB pA : raw) (code : Z) : work :=
  Work [Gc pB; Gc pA; Reset 1] code.

(** [{ auto a = gc(p); } return code;] *)
Definition drops_handle (p : raw) (code : Z) : work := Work [Gc p; Reset 0] code.

(** The caller runs the function to its end, sets the flag and joins;
    [n] steps of the collection thread come before the join. *)
Definition caller_first (w : work) (n : nat) : list thread :=
  replicate (length (body w) + 2) CallerThread
  ++ replicate n SweeperThread ++ [CallerThread].

(** ** Further notions for the sweep and for [runtime] *)



(** A world whose list holds one entry with the list as its only
    owner. *)
Definition one_unique (p : raw) : world :=
  World (sp_release (Some 0) (mem (one_owned p))) (gc (one_owned p)).

(** Objects are reclaimed in the order in which [gc] registered them:
    the groups are numbered in that order, the list holds the groups
    from some [k] on, the deleter has run on the first [k] objects, and
    the group numbered [b] manages the object registered as number
    [b]. *)
Definition inv_order (w : work) (c : config) : Prop :=
  exists done k,
    body w = done ++ rest_of (caller c)
    /\ length (allocated done) = fresh_block (store (proc c))
    /\ k <= fresh_block (store (proc c))
    /\ tracked (proc c) = Some <$> seq k (fresh_block (store (proc c)) - k)
    /\ deleted (store (proc c)) = take k (allocated done)
    /\ forall b cb, blocks (store (proc c)) !! b = Some cb ->
                    allocated done !! b = Some (managed cb).

(** Once the stop flag is set, the collection thread has seen it at any
    wake-up it is past. *)
Definition inv_stop (c : config) : Prop :=
  gcStopSignal c = true ->
  match garbageCollectionThread c with
  | Woken b | Collecting b _ _ => b = true
  | _ => True
  end.

(** The events after the one that set the stop flag, if it was set. *)
Fixpoint after_stop (tr : list event) : option (list event) :=
  match tr with
  | [] => None
  | StopSet :: post => Some post
  | _ :: tr' => after_stop tr'
  end.

(** After the stop flag is set, a sweep ends only together with the
    exit of the loop. *)
Definition inv_last (c : config) : Prop :=
  match after_stop (trace c) with
  | None => gcStopSignal c = false
  | Some post =>
      gcStopSignal c = true
      /\ (SweepEnd ∈ post \/ LoopExit ∈ post -> garbageCollectionThread c = Exited)
  end.

(** The calling thread has nothing it can do: it is in a [gc] call, at
    the guarded block, in [join], or back from [runtime]. *)
Definition caller_waits (c : config) : Prop :=
  match caller c with
  | InFunction (Copy _ :: _) | InFunction (Reset _ :: _) | InFunction [] => False
  | _ => True
  end.

(** [_globalMutex] is only held by a thread inside the guarded block of
    [getInstance]. *)
Definition inv_held (d : callers) : Prop :=
  _globalMutex d = true ->
  exists i pi, pcs d !! i = Some pi /\ holds_lock pi = true.

(** A schedule under which a sweep begins right after the first
    operation of the function. *)
Definition sweep_begun : list thread := [CallerThread; SweeperThread; SweeperThread].

(** ** Objects that hold handles *)

(** So far a managed object was opaque: the last release of its group
    calls the deleter and nothing else happens.  An object of a type
    [TType] with [shared_ptr] members holds handles itself, and when the
    deleter runs, [~TType] releases them, which may end further groups.
    This is the same collector over such objects; where no object holds
    a handle it is the collector above. *)
Module Members.

(** The collector, the free store, and for every live object that
    holds handles its [shared_ptr] members that are not null, in the
    order in which [~TType] destroys them. *)
Record state := State {
  flat : world;
  members : gmap raw (list shared_ptr)
}.

Definition held (m : gmap raw (list shared_ptr)) (p : raw) : list shared_ptr :=
  default [] (m !! p).

(** The number of handles that objects hold in all. *)
Definition weight (m : gmap raw (list shared_ptr)) : nat :=
  map_fold (fun _ l n => length l + n) 0 m.

(** The releases one after the other, first to last: a release that is
    not the last one of its group lowers the count; the last one runs
    the deleter, and the destructor of the object releases the handles
    the object holds before the next pending release is done.  Every
    step takes one handle off what is pending or off what the objects
    hold, so [length todo + weight m] steps are enough. *)
Fixpoint release_all (fuel : nat) (todo : list shared_ptr) (h : heap)
         (m : gmap raw (list shared_ptr)) : heap * gmap raw (list shared_ptr) :=
  match fuel with
  | O => (h, m)
  | S fuel' =>
      match todo with
      | [] => (h, m)
      | sp :: rest =>
          match sp ≫= (fun b => blocks h !! b) with
          | None => release_all fuel' rest h m
          | Some c =>
              if Nat.eqb (Nat.pred (use_count c)) 0
              then release_all fuel' (held m (managed c) ++ rest)
                               (sp_release sp h) (delete (managed c) m)
              else release_all fuel' rest (sp_release sp h) m
          end
      end
  end.

Definition release (todo : list shared_ptr) (h : heap)
           (m : gmap raw (list shared_ptr)) : heap * gmap raw (list shared_ptr) :=
  release_all (length todo + weight m) todo h m.

(** [*iterator = nullptr]: the slot gives up its share and holds
    [nullptr]; if the share was the last one, the object is destroyed,
    with all that its destructor releases. *)
Definition assign_nullptr (iterator : nat) (s : state) : state :=
  match registry (flat s) !! iterator with
  | None => s
  | Some sp =>
      let '(h, m) := release [sp] (mem (flat s)) (members s) in
      State (World h (Collector (_mutex (gc (flat s)))
                                (<[iterator := None]> (registry (flat s)))))
            m
  end.

(** [_pointers.erase(iterator)], as above. *)
Definition erase (iterator : nat) (s : state) : nat * state :=
  let '(iterator', w) := erase iterator (flat s) in
  (iterator', State w (members s)).

Inductive loop := Again (s : state) (iterator : nat) | Leave (s : state).

(** One evaluation of the loop of [collect]. *)
Definition collect_iter (s : state) (iterator : nat) : loop :=
  match registry (flat s) !! iterator with
  | None => Leave s
  | Some sp =>
      if unique (mem (flat s)) sp
      then let '(iterator', s') := erase iterator (assign_nullptr iterator s) in
           Again s' iterator'
      else Again s iterator
  end.

Fixpoint collect_run (n : nat) (s : state) (iterator : nat) : loop :=
  match n with
  | O => Again s iterator
  | S n' =>
      match collect_iter s iterator with
      | Leave s' => Leave s'
      | Again s' iterator' => collect_run n' s' iterator'
      end
  end.

Definition collect (fuel : nat) (s : state) : option state :=
  match collect_run fuel s 0 with
  | Leave s' => Some s'
  | Again _ _ => None
  end.

Definition state_of (r : loop) : state :=
  match r with Again s _ => s | Leave s => s end.

(** [alloc(instance)], as above: it does not look at what objects
    hold. *)
Definition alloc (instance : raw) (s : state) : shared_ptr * state :=
  let '(pointer, w) := alloc instance (flat s) in
  (pointer, State w (members s)).

(** [p->member = sp] for a member that was null: the object [*p] takes
    a copy of [sp]. *)
Definition hold (p : raw) (sp : shared_ptr) (s : state) : state :=
  State (World (sp_copy sp (mem (flat s))) (gc (flat s)))
        (<[p := held (members s) p ++ [sp]]> (members s)).

(** A handle that is neither in the list nor in an object is destroyed
    or reset. *)
Definition drop (sp : shared_ptr) (s : state) : state :=
  let '(h, m) := release [sp] (mem (flat s)) (members s) in
  State (World h (gc (flat s))) m.

(** The number of handles of group [b] that objects hold. *)
Definition inner (m : gmap raw (list shared_ptr)) (b : nat) : nat :=
  map_fold (fun _ l n => occ b l + n) 0 m.

(** Every handle in the list or in an object is counted in its
    group. *)
Definition accounted (s : state) : Prop :=
  map_Forall (fun b c => occ b (registry (flat s)) + inner (members s) b <= use_count c)
             (blocks (mem (flat s))).

(** The same in the middle of a cascade of releases, with the handles
    [todo] still to be released, for a list [reg] and [outside b]
    owners of each group [b] outside the list and the objects. *)
Definition balanced (reg : list shared_ptr) (outside : nat -> nat)
           (todo : list shared_ptr) (h : heap)
           (m : gmap raw (list shared_ptr)) : Prop :=
  forall b c, blocks h !! b = Some c ->
              use_count c = occ b reg + inner m b + occ b todo + outside b.

(** The owners of group [b] that are neither the list nor an object:
    handles in variables, wherever these live. *)
Definition owners_outside (s : state) (b : nat) : nat :=
  sp_use_count (mem (flat s)) (Some b)
  - occ b (registry (flat s)) - inner (members s) b.

(** Nothing tracked, no object. *)
Definition empty : state := State empty_world ∅.

(** [a = gc(pA); b = gc(pB); a->child = b;] and then [a] and [b] go
    out of scope: the list is [a; b], and [b] is owned by the list and
    by [*pA]. *)
Definition holder_first (pA pB : raw) : state :=
  let '(a, s1) := alloc pA empty in
  let '(b, s2) := alloc pB s1 in
  drop b (drop a (hold pA b s2)).

(** The same with [b] registered before [a]: the list is [b; a]. *)
Definition holder_last (pB pA : raw) : state :=
  let '(b, s1) := alloc pB empty in
  let '(a, s2) := alloc pA s1 in
  drop b (drop a (hold pA b s2)).


End Members.

(** * Properties *)

Example getInstance_start :
  getInstance start = (Some 0, Process empty_heap [Collector false []] (Some 0) false).
Proof. reflexivity. Qed.

(** ** Facts about one ownership group *)

Lemma unique_true (h : heap) (sp : shared_ptr) :
  unique h sp = true ->
  exists b c, sp = Some b /\ blocks h !! b = Some c /\ use_count c = 1.
Proof.
  unfold unique, sp_use_count. intros H. apply Nat.eqb_eq in H.
  destruct sp as [b|]; [|discriminate].
  destruct (blocks h !! b) as [c|] eqn:E; simpl in H; [|discriminate].
  exists b, c. auto.
Qed.

Lemma unique_false_shared (h : heap) (b : nat) (c : ctrl) :
  blocks h !! b = Some c -> 2 <= use_count c -> unique h (Some b) = false.
Proof.
  intros E H. unfold unique, sp_use_count. rewrite E. simpl.
  apply Nat.eqb_neq. lia.
Qed.

Lemma sp_release_last (h : heap) (b : nat) (c : ctrl) :
  blocks h !! b = Some c -> use_count c = 1 ->
  sp_release (Some b) h =
  Heap (delete b (blocks h)) (fresh_block h) (deleted h ++ [managed c]).
Proof. intros E H. unfold sp_release. rewrite E, H. reflexivity. Qed.

Lemma sp_release_shared (h : heap) (b : nat) (c : ctrl) :
  blocks h !! b = Some c -> 2 <= use_count c ->
  sp_release (Some b) h =
  Heap (<[b := Ctrl (managed c) (Nat.pred (use_count c))]> (blocks h))
       (fresh_block h) (deleted h).
Proof.
  intros E H. unfold sp_release. rewrite E.
  destruct (Nat.eqb_spec (Nat.pred (use_count c)) 0); [lia | reflexivity].
Qed.

Lemma delete_insert_same {A} (l : list A) (i : nat) (x : A) :
  delete i (<[i := x]> l) = delete i l.
Proof.
  revert i. induction l as [|y l IH]; intros [|i]; simpl; auto.
  f_equal. apply IH.
Qed.

(** The iteration on an entry that is not unique: nothing changes, the
    iterator included. *)
Lemma collect_iter_shared (w : world) (it : nat) (sp : shared_ptr) :
  registry w !! it = Some sp -> unique (mem w) sp = false ->
  collect_iter w it = Again w it.
Proof. intros E U. unfold collect_iter. rewrite E, U. reflexivity. Qed.

(** The iteration on a unique entry: its share is released and the node
    unlinked; the iterator keeps its position. *)
Lemma collect_iter_unique (w : world) (it : nat) (sp : shared_ptr) :
  registry w !! it = Some sp -> unique (mem w) sp = true ->
  collect_iter w it =
  Again (World (sp_release sp (mem w))
               (Collector (_mutex (gc w)) (delete it (registry w)))) it.
Proof.
  intros E U. unfold collect_iter. rewrite E, U.
  unfold erase, assign_nullptr, with_pointers. rewrite E. simpl.
  unfold registry at 1. simpl. rewrite delete_insert_same. reflexivity.
Qed.

Lemma collect_iter_end (w : world) (it : nat) :
  registry w !! it = None -> collect_iter w it = Leave w.
Proof. intros E. unfold collect_iter. rewrite E. reflexivity. Qed.

Lemma collect_iter_cases (w : world) (it : nat) :
  (registry w !! it = None /\ collect_iter w it = Leave w) \/
  (exists sp, registry w !! it = Some sp /\ unique (mem w) sp = false /\
              collect_iter w it = Again w it) \/
  (exists b c, registry w !! it = Some (Some b) /\
               blocks (mem w) !! b = Some c /\ use_count c = 1 /\
               collect_iter w it =
               Again (World (Heap (delete b (blocks (mem w))) (fresh_block (mem w))
                                  (deleted (mem w) ++ [managed c]))
                            (Collector (_mutex (gc w)) (delete it (registry w)))) it).
Proof.
  destruct (registry w !! it) as [sp|] eqn:E.
  - destruct (unique (mem w) sp) eqn:U.
    + right; right. destruct (unique_true _ _ U) as (b & c & -> & Eb & Hc).
      exists b, c. split; [reflexivity|]. split; [assumption|]. split; [assumption|].
      rewrite (collect_iter_unique _ _ _ E U), (sp_release_last _ _ _ Eb Hc).
      reflexivity.
    + right; left. exists sp. split; [reflexivity|]. split; [assumption|].
      apply collect_iter_shared with sp; assumption.
  - left. split; [reflexivity|]. apply collect_iter_end; assumption.
Qed.

(** The loop never moves its iterator. *)
Lemma collect_iter_iterator (w w' : world) (it it' : nat) :
  collect_iter w it = Again w' it' -> it' = it.
Proof.
  destruct (collect_iter_cases w it) as [[_ ->]|[(sp & _ & _ & ->)|(b & c & _ & _ & _ & ->)]];
    congruence.
Qed.

Lemma collect_run_iterator (n : nat) (w w' : world) (it it' : nat) :
  collect_run n w it = Again w' it' -> it' = it.
Proof.
  revert w it. induction n as [|n IH]; simpl; intros w it H.
  - congruence.
  - destruct (collect_iter w it) as [w1 it1|w1] eqn:E; [|discriminate].
    apply collect_iter_iterator in E. subst it1. eauto.
Qed.

(** On an entry that is not unique the loop makes no progress, however
    long it runs. *)
Lemma collect_run_shared (w : world) (it : nat) (sp : shared_ptr) :
  registry w !! it = Some sp -> unique (mem w) sp = false ->
  forall n, collect_run n w it = Again w it.
Proof.
  intros E U n. induction n as [|n IH]; simpl; auto.
  rewrite (collect_iter_shared _ _ _ E U). exact IH.
Qed.

Lemma collect_shared_head (w : world) (sp : shared_ptr) (l : list shared_ptr) :
  registry w = sp :: l -> unique (mem w) sp = false ->
  forall fuel, collect fuel w = None.
Proof.
  intros E U fuel. unfold collect.
  rewrite (collect_run_shared w 0 sp); auto. rewrite E. reflexivity.
Qed.

(** Whenever [collect] returns, it returns with an empty list. *)
Lemma collect_run_leave (n : nat) (w w' : world) (it : nat) :
  collect_run n w it = Leave w' -> registry w' !! it = None.
Proof.
  revert w it. induction n as [|n IH]; simpl; intros w it H; [discriminate|].
  destruct (collect_iter_cases w it) as [[E R]|[(sp & _ & _ & R)|(b & c & _ & _ & _ & R)]];
    rewrite R in H.
  - congruence.
  - eauto.
  - eauto.
Qed.

Lemma collect_returns_empty (fuel : nat) (w w' : world) :
  collect fuel w = Some w' -> registry w' = [].
Proof.
  unfold collect. destruct (collect_run fuel w 0) as [|w1] eqn:E; [discriminate|].
  intros [= <-]. apply collect_run_leave in E.
  destruct (registry w1); [reflexivity | discriminate].
Qed.

Lemma collect_empty (fuel : nat) (w : world) :
  registry w = [] -> collect (S fuel) w = Some w.
Proof.
  intros E. unfold collect. simpl. rewrite collect_iter_end; [reflexivity|].
  rewrite E. reflexivity.
Qed.

Lemma settled_run (w : world) :
  settled w -> forall m, state_of (collect_run m w 0) = w.
Proof.
  intros S m. induction m as [|m IH]; simpl; auto.
  destruct S as [S|S]; rewrite S; auto.
Qed.

Lemma collect_run_settles (n : nat) (w : world) :
  length (registry w) <= n -> settled (state_of (collect_run n w 0)).
Proof.
  revert w. induction n as [|n IH]; intros w L; simpl.
  - left. apply collect_iter_end. destruct (registry w); [reflexivity|simpl in L; lia].
  - destruct (collect_iter_cases w 0)
      as [[E R]|[(sp & E & U & R)|(b & c & E & Eb & Hc & R)]]; rewrite R.
    + left. exact R.
    + rewrite (collect_run_shared _ _ _ E U). right. exact R.
    + apply IH. unfold registry at 1. simpl.
      rewrite length_delete by eauto.
      apply lookup_lt_Some in E. lia.
Qed.

Lemma elem_of_delete_other {A} (l : list A) (i : nat) (x y : A) :
  x ∈ l -> l !! i = Some y -> x <> y -> x ∈ delete i l.
Proof.
  revert i. induction l as [|z l IH]; intros i Hx Hy Hne.
  - inversion Hx.
  - destruct i as [|i]; simpl in *.
    + injection Hy as ->. apply elem_of_cons in Hx as [->|Hx]; [congruence|exact Hx].
    + apply elem_of_cons in Hx as [->|Hx].
      * apply list_elem_of_here.
      * apply list_elem_of_further. eauto.
Qed.

Lemma collect_iter_keeps_shared (w : world) (it : nat) (b : nat) (c : ctrl) :
  Some b ∈ registry w -> blocks (mem w) !! b = Some c -> 2 <= use_count c ->
  let w' := state_of (collect_iter w it) in
  Some b ∈ registry w' /\ blocks (mem w') !! b = Some c /\
  (separate_objects (mem w) -> separate_objects (mem w') /\
     (managed c ∉ deleted (mem w) -> managed c ∉ deleted (mem w'))).
Proof.
  intros Hin Hb Hc.
  destruct (collect_iter_cases w it)
    as [[E R]|[(sp & E & U & R)|(b' & c' & E & Eb & Hc' & R)]]; rewrite R; simpl.
  - auto.
  - auto.
  - assert (b <> b') as Hne by (intros ->; rewrite Hb in Eb; injection Eb as ->; lia).
    split; [|split].
    + unfold registry at 1; simpl.
      apply elem_of_delete_other with (Some b'); auto. congruence.
    + rewrite lookup_delete_ne; auto.
    + intros Sep. split.
      * intros b1 b2 c1 c2 H1 H2. simpl in *.
        apply lookup_delete_Some in H1 as [_ H1].
        apply lookup_delete_Some in H2 as [_ H2]. eauto.
      * intros Hd Hin'. apply elem_of_app in Hin' as [Hin'|Hin']; [auto|].
        apply list_elem_of_singleton in Hin'. apply Hne. eauto.
Qed.

Lemma collect_run_keeps_shared (n : nat) (w : world) (it : nat) (b : nat) (c : ctrl) :
  Some b ∈ registry w -> blocks (mem w) !! b = Some c -> 2 <= use_count c ->
  let w' := state_of (collect_run n w it) in
  Some b ∈ registry w' /\ blocks (mem w') !! b = Some c /\
  (separate_objects (mem w) -> managed c ∉ deleted (mem w) ->
   managed c ∉ deleted (mem w')).
Proof.
  revert w it. induction n as [|n IH]; intros w it Hin Hb Hc; simpl.
  - auto.
  - pose proof (collect_iter_keeps_shared w it b c Hin Hb Hc) as (H1 & H2 & H3).
    destruct (collect_iter w it) as [w1 it1|w1] eqn:E; simpl in *.
    + destruct (IH w1 it1 H1 H2 Hc) as (K1 & K2 & K3).
      split; [exact K1|]. split; [exact K2|].
      intros Sep Hd. destruct (H3 Sep) as [Sep1 Hd1]. auto.
    + split; [exact H1|]. split; [exact H2|].
      intros Sep Hd. destruct (H3 Sep) as [_ Hd1]. auto.
Qed.

(** The surviving entries keep their order. *)
Lemma collect_run_sublist (n : nat) (w : world) (it : nat) :
  registry (state_of (collect_run n w it)) `sublist_of` registry w.
Proof.
  revert w it. induction n as [|n IH]; intros w it; simpl.
  - reflexivity.
  - destruct (collect_iter_cases w it)
      as [[E R]|[(sp & E & U & R)|(b' & c' & E & Eb & Hc' & R)]]; rewrite R; simpl.
    + reflexivity.
    + apply IH.
    + etransitivity; [apply IH|]. unfold registry at 1; simpl. apply sublist_delete.
Qed.

(** ** When a sweep returns *)

Lemma unique_after_eviction (h : heap) (b : nat) (c : ctrl) (sp : shared_ptr) :
  sp <> Some b ->
  unique (Heap (delete b (blocks h)) (fresh_block h) (deleted h ++ [managed c])) sp
  = unique h sp.
Proof.
  intros Hne. unfold unique, sp_use_count. destruct sp as [b'|]; simpl; auto.
  rewrite lookup_delete_ne; [reflexivity | congruence].
Qed.

(** A sweep of a list whose entries are all unique returns, with the
    list empty. *)
Lemma collect_all_unique (w : world) :
  NoDup (registry w) ->
  Forall (fun sp => unique (mem w) sp = true) (registry w) ->
  exists w', collect (S (length (registry w))) w = Some w' /\ registry w' = [].
Proof.
  remember (length (registry w)) as n eqn:Hn. revert w Hn.
  induction n as [|n IH]; intros w Hn ND All.
  - exists w. destruct (registry w) eqn:E; [|discriminate].
    split; [apply collect_empty; exact E | reflexivity].
  - destruct (collect_iter_cases w 0)
      as [[E R]|[(sp & E & U & R)|(b & c & E & Eb & Hc & R)]].
    + destruct (registry w); discriminate.
    + destruct (registry w) as [|sp' l]; [discriminate|].
      injection E as ->. inversion All; congruence.
    + destruct (registry w) as [|sp' l] eqn:El; [discriminate|]. injection E as ->.
      inversion ND as [|? ? Hnotin ND']; subst. inversion All as [|? ? _ All']; subst.
      set (w1 := World (Heap (delete b (blocks (mem w))) (fresh_block (mem w))
                             (deleted (mem w) ++ [managed c]))
                       (Collector (_mutex (gc w)) l)).
      destruct (IH w1) as (w' & Hw' & Hr).
      * simpl in Hn. unfold w1, registry; simpl. lia.
      * exact ND'.
      * unfold w1, registry at 1; simpl.
        apply Forall_forall. intros sp Hsp.
        rewrite unique_after_eviction; [|intros ->; contradiction].
        rewrite Forall_forall in All'. auto.
      * exists w'. split; [|exact Hr].
        unfold collect in *. change (collect_run (S (S n)) w 0)
          with (match collect_iter w 0 with
                | Leave w2 => Leave w2
                | Again w2 it2 => collect_run (S n) w2 it2 end).
        rewrite R. simpl delete.
        assert (length (registry w1) = n) as <-
          by (simpl in Hn; unfold w1, registry; simpl; lia).
        exact Hw'.
Qed.


Lemma sp_copy_fresh (sp : shared_ptr) (h : heap) :
  fresh_block (sp_copy sp h) = fresh_block h.
Proof. destruct sp; reflexivity. Qed.

Lemma sp_release_fresh (sp : shared_ptr) (h : heap) :
  fresh_block (sp_release sp h) = fresh_block h.
Proof.
  destruct sp as [b|]; simpl; [|reflexivity].
  destruct (blocks h !! b); [|reflexivity].
  destruct (Nat.eqb _ 0); reflexivity.
Qed.

Lemma alloc_eq (p : raw) (w : world) :
  alloc p w =
  (Some (fresh_block (mem w)),
   World (Heap (<[fresh_block (mem w) := Ctrl p 2]> (blocks (mem w)))
               (S (fresh_block (mem w))) (deleted (mem w)))
         (Collector (_mutex (gc w)) (registry w ++ [Some (fresh_block (mem w))]))).
Proof.
  unfold alloc, sp_from_raw, sp_copy, with_pointers. simpl.
  do 3 f_equal. apply map_eq. intros i.
  destruct (decide (i = fresh_block (mem w))) as [->|Hne].
  - rewrite lookup_alter_eq, !lookup_insert_eq. reflexivity.
  - rewrite lookup_alter_ne, !lookup_insert_ne by congruence. reflexivity.
Qed.

Lemma sp_copy_blocks_None (sp : shared_ptr) (h : heap) (b : nat) :
  blocks h !! b = None -> blocks (sp_copy sp h) !! b = None.
Proof.
  intros E. destruct sp as [b'|]; simpl; [|exact E].
  destruct (decide (b' = b)) as [->|Hne].
  - rewrite lookup_alter_eq, E. reflexivity.
  - rewrite lookup_alter_ne by exact Hne. exact E.
Qed.

Lemma sp_release_blocks_None (sp : shared_ptr) (h : heap) (b : nat) :
  blocks h !! b = None -> blocks (sp_release sp h) !! b = None.
Proof.
  intros E. destruct sp as [b'|]; simpl; [|exact E].
  destruct (blocks h !! b') as [c|] eqn:E'; [|exact E].
  assert (b' <> b) as Hne by congruence.
  destruct (Nat.eqb _ 0); simpl.
  - rewrite lookup_delete_ne by exact Hne. exact E.
  - rewrite lookup_insert_ne by exact Hne. exact E.
Qed.

Lemma registry_wf_alloc (p : raw) (w : world) :
  registry_wf w -> registry_wf (snd (alloc p w)).
Proof.
  intros (ND & Lt & Fr). rewrite alloc_eq. unfold registry_wf, registry. simpl.
  split; [|split].
  - apply NoDup_app. split; [exact ND|]. split; [|apply NoDup_singleton].
    intros x Hx Hx'. apply list_elem_of_singleton in Hx'. subst x.
    apply Lt in Hx. lia.
  - intros b Hb. apply elem_of_app in Hb as [Hb|Hb].
    + apply Lt in Hb. lia.
    + apply list_elem_of_singleton in Hb. injection Hb as ->. lia.
  - intros b Hb. rewrite lookup_insert_ne by lia. apply Fr. lia.
Qed.

Lemma registry_wf_iter (w : world) (it : nat) :
  registry_wf w -> registry_wf (state_of (collect_iter w it)).
Proof.
  intros (ND & Lt & Fr).
  destruct (collect_iter_cases w it)
    as [[E R]|[(sp & E & U & R)|(b' & c' & E & Eb & Hc' & R)]]; rewrite R; simpl.
  - split; auto.
  - split; auto.
  - unfold registry_wf, registry. simpl. split; [|split].
    + eapply sublist_NoDup; [exact ND | apply sublist_delete].
    + intros b Hb. apply list_elem_of_delete_inv in Hb. auto.
    + intros b Hb. apply lookup_delete_None. right. auto.
Qed.

Lemma registry_wf_evolves (w w' : world) :
  registry_wf w -> evolves w w' -> registry_wf w'.
Proof.
  intros Wf Ev. induction Ev as [|w1 q _ IH|w1 it _ IH|w1 sp _ IH|w1 sp _ IH].
  - exact Wf.
  - apply registry_wf_alloc, IH.
  - apply registry_wf_iter, IH.
  - destruct IH as (ND & Lt & Fr). split; [exact ND|]. split.
    + unfold registry in *. simpl. rewrite sp_copy_fresh. exact Lt.
    + simpl. rewrite sp_copy_fresh. intros b Hb. apply sp_copy_blocks_None; auto.
  - destruct IH as (ND & Lt & Fr). split; [exact ND|]. split.
    + unfold registry in *. simpl. rewrite sp_release_fresh. exact Lt.
    + simpl. rewrite sp_release_fresh. intros b Hb. apply sp_release_blocks_None; auto.
Qed.

Lemma registry_wf_empty : registry_wf empty_world.
Proof.
  split; [apply NoDup_nil_2|]. split.
  - intros b Hb. inversion Hb.
  - intros b _. apply lookup_empty.
Qed.

(** ** [alloc] *)

(** C6: [alloc] makes a new ownership group for the raw object, puts
    one entry for it at the back of the list and returns a handle of the
    same group, which then has two owners, the list and the caller; the
    other groups and entries are as they were.  From then on, through
    later calls of [alloc], iterations of sweeps and owners copying and
    dropping handles, no handle is in the list twice. *)
Theorem alloc_registers_once (p : raw) (w : world) :
  registry_wf w ->
  exists b w',
    alloc p w = (Some b, w')
    /\ blocks (mem w) !! b = None
    /\ (Some b ∉ registry w)
    /\ registry w' = registry w ++ [Some b]
    /\ blocks (mem w') !! b = Some (Ctrl p 2)
    /\ (forall b', b' <> b -> blocks (mem w') !! b' = blocks (mem w) !! b')
    /\ deleted (mem w') = deleted (mem w)
    /\ (forall w'', evolves w' w'' -> NoDup (registry w'')).
Proof.
  intros Wf. pose proof (registry_wf_alloc p w Wf) as Wf'.
  destruct Wf as (ND & Lt & Fr). rewrite alloc_eq in *. simpl in Wf'.
  eexists _, _. split; [reflexivity|].
  split; [apply Fr; lia|].
  split; [intros Hin; apply Lt in Hin; lia|].
  split; [reflexivity|].
  split; [simpl; apply lookup_insert_eq|].
  split; [intros b' Hne; simpl; apply lookup_insert_ne; congruence|].
  split; [reflexivity|].
  intros w'' Ev. eapply registry_wf_evolves in Ev; [|exact Wf']. apply Ev.
Qed.

Lemma alloc_registers_once_witness :
  registry_wf (one_owned 20%Z)
  /\ exists b w',
      alloc 10%Z (one_owned 20%Z) = (Some b, w')
      /\ blocks (mem (one_owned 20%Z)) !! b = None
      /\ (Some b ∉ registry (one_owned 20%Z))
      /\ registry w' = registry (one_owned 20%Z) ++ [Some b]
      /\ blocks (mem w') !! b = Some (Ctrl 10%Z 2)
      /\ (forall b', b' <> b ->
            blocks (mem w') !! b' = blocks (mem (one_owned 20%Z)) !! b')
      /\ deleted (mem w') = deleted (mem (one_owned 20%Z))
      /\ (forall w'', evolves w' w'' -> NoDup (registry w'')).
Proof.
  assert (registry_wf (one_owned 20%Z)) as Wf
    by (unfold one_owned; apply registry_wf_alloc, registry_wf_empty).
  split; [exact Wf|].
  exact (alloc_registers_once 10%Z (one_owned 20%Z) Wf).
Defined.

(** C10: two calls of [alloc] on one raw pointer make two groups and two
    entries for the one object, each group with the list and the caller
    as its two owners; nothing compares the pointer with what is already
    tracked.  A copy of the first handle is counted in the first group
    only, and once both groups have lost their owners the deleter has
    run on the object twice. *)
Theorem alloc_same_object_twice (p : raw) (w : world) :
  let b1 := fresh_block (mem w) in
  let b2 := S (fresh_block (mem w)) in
  let w2 := snd (alloc p (snd (alloc p w))) in
  fst (alloc p w) = Some b1
  /\ fst (alloc p (snd (alloc p w))) = Some b2
  /\ registry w2 = registry w ++ [Some b1; Some b2]
  /\ blocks (mem w2) !! b1 = Some (Ctrl p 2)
  /\ blocks (mem w2) !! b2 = Some (Ctrl p 2)
  /\ sp_use_count (sp_copy (Some b1) (mem w2)) (Some b1) = 3
  /\ sp_use_count (sp_copy (Some b1) (mem w2)) (Some b2) = 2
  /\ deleted (sp_release (Some b2) (sp_release (Some b2)
               (sp_release (Some b1) (sp_release (Some b1) (mem w2)))))
     = deleted (mem w) ++ [p; p].
Proof.
  intros b1 b2 w2. subst w2 b2. rewrite !alloc_eq.
  cbn [fst snd mem gc registry _pointers _mutex blocks fresh_block deleted].
  fold b1. set (b2 := S b1). assert (b1 <> b2) as Hne by (unfold b2; lia).
  set (m2 := <[b2 := Ctrl p 2]> (<[b1 := Ctrl p 2]> (blocks (mem w)))).
  assert (m2 !! b1 = Some (Ctrl p 2)) as E1
    by (unfold m2; rewrite lookup_insert_ne, lookup_insert_eq by auto; reflexivity).
  assert (m2 !! b2 = Some (Ctrl p 2)) as E2
    by (unfold m2; rewrite lookup_insert_eq; reflexivity).
  split; [reflexivity|]. split; [reflexivity|].
  split; [rewrite <- app_assoc; reflexivity|].
  split; [exact E1|]. split; [exact E2|].
  split; [unfold sp_use_count, sp_copy; cbn [blocks];
          rewrite lookup_alter_eq, E1; reflexivity|].
  split; [unfold sp_use_count, sp_copy; cbn [blocks];
          rewrite lookup_alter_ne, E2 by auto; reflexivity|].
  rewrite (sp_release_shared (Heap m2 (S b2) (deleted (mem w))) b1 (Ctrl p 2))
    by (cbn; auto).
  cbn [blocks fresh_block deleted managed use_count Nat.pred].
  rewrite (sp_release_last (Heap (<[b1 := Ctrl p 1]> m2) (S b2) (deleted (mem w)))
             b1 (Ctrl p 1))
    by (cbn; solve [apply lookup_insert_eq | reflexivity]).
  cbn [blocks fresh_block deleted managed use_count Nat.pred].
  rewrite (sp_release_shared
             (Heap (delete b1 (<[b1 := Ctrl p 1]> m2)) (S b2) (deleted (mem w) ++ [p]))
             b2 (Ctrl p 2))
    by (cbn; solve [rewrite lookup_delete_ne, lookup_insert_ne by auto; exact E2 | lia]).
  cbn [blocks fresh_block deleted managed use_count Nat.pred].
  erewrite (sp_release_last _ b2 (Ctrl p 1))
    by (cbn; solve [apply lookup_insert_eq | reflexivity]).
  cbn [blocks fresh_block deleted managed use_count Nat.pred].
  rewrite <- app_assoc. reflexivity.
Qed.

(** ** The sweep on a list with an entry that is still owned *)

Lemma one_owned_eq (p : raw) :
  one_owned p =
  World (Heap {[0 := Ctrl p 2]} 1 []) (Collector false [Some 0]).
Proof. unfold one_owned. rewrite alloc_eq. reflexivity. Qed.

Lemma owned_then_unique_eq (pB pA : raw) :
  owned_then_unique pB pA =
  World (Heap (<[1 := Ctrl pA 1]> (<[1 := Ctrl pA 2]> {[0 := Ctrl pB 2]})) 2 [])
        (Collector false [Some 0; Some 1]).
Proof.
  unfold owned_then_unique. rewrite !alloc_eq. simpl.
  unfold sp_release. simpl. rewrite lookup_insert_eq. reflexivity.
Qed.

(** C2, at [one_owned p]: the caller holds the handle of the only
    tracked object, and [collect] does not return whatever number of
    loop evaluations it is given, where the claim has every sweep run to
    completion. *)
Theorem collect_spins_on_owned_entry (p : raw) (fuel : nat) :
  collect fuel (one_owned p) = None
  /\ collect_run fuel (one_owned p) 0 = Again (one_owned p) 0.
Proof.
  assert (collect_run fuel (one_owned p) 0 = Again (one_owned p) 0) as H.
  { apply collect_run_shared with (Some 0).
    - rewrite one_owned_eq. reflexivity.
    - rewrite one_owned_eq. reflexivity. }
  split; [|exact H]. unfold collect. rewrite H. reflexivity.
Qed.

(** Where [collect] returns, it has done what the specified sweep
    does. *)
Lemma collect_agrees_when_it_returns (fuel : nat) (w w' : world) :
  collect fuel w = Some w' -> w' = sweep_as_specified w.
Proof.
  unfold collect. revert w. induction fuel as [|n IH]; intros w H; [discriminate|].
  simpl in H.
  destruct (collect_iter_cases w 0)
    as [[E R]|[(sp & E & U & R)|(b & c & E & Eb & Hc & R)]]; rewrite R in H.
  - injection H as <-. unfold sweep_as_specified.
    destruct w as [h [m l]]. unfold registry in *. simpl in *.
    destruct l; [reflexivity|discriminate].
  - rewrite (collect_run_shared _ _ _ E U) in H. discriminate.
  - rewrite (IH _ H). unfold sweep_as_specified.
    destruct w as [h [m l]]. unfold registry in *. simpl in *.
    destruct l as [|sp l]; [discriminate|]. injection E as ->.
    cbn [sweep_entries mem gc _pointers _mutex].
    assert (unique h (Some b) = true) as ->
      by (unfold unique, sp_use_count; rewrite Eb; simpl; rewrite Hc; reflexivity).
    rewrite (sp_release_last _ _ _ Eb Hc). reflexivity.
Qed.

(** C1, at [owned_then_unique pB pA]: the list is [B; A], [B] still
    owned by the caller and [A] owned by the list alone.  The claim has
    one sweep remove [A], release its object and keep [B], as
    [sweep_as_specified] does.  The loop of [collect] stays on [B]:
    after any number of evaluations the state is the one it started
    from, [A] is still in the list and not deleted, and [collect] has
    not returned. *)
Theorem collect_leaves_unique_entry_behind_owned (pB pA : raw) (n : nat) :
  registry (owned_then_unique pB pA) = [Some 0; Some 1]
  /\ unique (mem (owned_then_unique pB pA)) (Some 0) = false
  /\ unique (mem (owned_then_unique pB pA)) (Some 1) = true
  /\ registry (sweep_as_specified (owned_then_unique pB pA)) = [Some 0]
  /\ deleted (mem (sweep_as_specified (owned_then_unique pB pA))) = [pA]
  /\ collect_run n (owned_then_unique pB pA) 0 = Again (owned_then_unique pB pA) 0
  /\ collect n (owned_then_unique pB pA) = None
  /\ deleted (mem (owned_then_unique pB pA)) = [].
Proof.
  assert (collect_run n (owned_then_unique pB pA) 0
          = Again (owned_then_unique pB pA) 0) as H.
  { apply collect_run_shared with (Some 0); rewrite owned_then_unique_eq; reflexivity. }
  split; [rewrite owned_then_unique_eq; reflexivity|].
  split; [rewrite owned_then_unique_eq; reflexivity|].
  split; [rewrite owned_then_unique_eq; reflexivity|].
  split; [rewrite owned_then_unique_eq; reflexivity|].
  split; [rewrite owned_then_unique_eq; reflexivity|].
  split; [exact H|].
  split; [unfold collect; rewrite H; reflexivity|].
  rewrite owned_then_unique_eq; reflexivity.
Qed.

(** ** Idempotence *)

(** When a sweep has returned, a second sweep right after it, with
    nothing changed in between and any positive number of loop
    evaluations, returns and leaves the state as the first left it. *)
Theorem collect_twice (w w1 : world) (fuel fuel' : nat) :
  collect fuel w = Some w1 -> collect (S fuel') w1 = Some w1.
Proof. intros H. apply collect_empty. eapply collect_returns_empty, H. Qed.

Lemma collect_twice_witness :
  let w := World (sp_release (Some 0) (mem (one_owned 10%Z))) (gc (one_owned 10%Z)) in
  collect 2 w = Some (World (Heap ∅ 1 [10%Z]) (Collector false []))
  /\ collect 1 (World (Heap ∅ 1 [10%Z]) (Collector false [])) =
     Some (World (Heap ∅ 1 [10%Z]) (Collector false [])).
Proof.
  assert (collect 2 (World (sp_release (Some 0) (mem (one_owned 10%Z))) (gc (one_owned 10%Z)))
          = Some (World (Heap ∅ 1 [10%Z]) (Collector false []))) as H
    by (vm_compute; reflexivity).
  split; [exact H|]. exact (collect_twice _ _ 2 0 H).
Defined.

(** The state a first sweep settles in, whether it has returned or is
    held on an entry, is not changed by the iterations of a second
    one. *)
Lemma collect_run_twice (w : world) (n m : nat) :
  length (registry w) <= n ->
  state_of (collect_run m (state_of (collect_run n w 0)) 0)
  = state_of (collect_run n w 0).
Proof. intros L. apply settled_run, collect_run_settles, L. Qed.

(** ** The steps of [runtime] *)

Local Arguments alloc : simpl never.
Local Arguments collect_iter : simpl never.
Local Arguments sp_release : simpl never.
Local Arguments sp_copy : simpl never.
Local Arguments tracked : simpl never.

Lemma getInstance_ok (m : bool) (s : process) :
  instance_ok m s ->
  getInstance s =
  (Some 0, Process (store s) [Collector m (tracked s)] (Some 0) (_cvMutex s)).
Proof.
  destruct s as [h objs inst cv]. unfold instance_ok. simpl.
  intros [(-> & -> & ->)|(l & -> & ->)]; reflexivity.
Qed.

Lemma call_alloc (p : raw) (s : process) :
  instance_ok false s ->
  call (alloc p) s =
  Some (Some (fresh_block (store s)),
        Process (Heap (<[fresh_block (store s) := Ctrl p 2]> (blocks (store s)))
                      (S (fresh_block (store s))) (deleted (store s)))
                [Collector false (tracked s ++ [Some (fresh_block (store s))])]
                (Some 0) (_cvMutex s)).
Proof.
  intros Ok. unfold call. rewrite (getInstance_ok false s Ok).
  cbn -[alloc tracked]. rewrite alloc_eq. reflexivity.
Qed.

Section Invariant.

Context (w : work).

Ltac at_config k :=
  match goal with |- moves _ ?c _ => k c end.

Lemma step_moves (t : thread) (c : config) :
  inv_locks c -> moves w c (step w t c).
Proof.
  intros L. destruct c as [[h objs inst cv] vs stop cpc spc tr].
  unfold inv_locks in L. simpl in L.
  destruct t; simpl.
  - (* the caller *)
    unfold caller_step. simpl.
    destruct cpc as [[|[p|i|i] rest]|code|code|code].
    + at_config ltac:(fun c => apply (moves_function_returns w c)). reflexivity.
    + (* gc(p) *)
      unfold do_op. simpl proc.
      destruct spc as [|b|b a it|]; simpl in L.
      * destruct L as [-> Ok].
        rewrite (getInstance_ok false _ Ok), (call_alloc p _ Ok). simpl.
        at_config ltac:(fun c => apply (moves_gc w c p rest)); [reflexivity|discriminate].
      * destruct L as [-> Ok].
        rewrite (getInstance_ok false _ Ok), (call_alloc p _ Ok). simpl.
        at_config ltac:(fun c => apply (moves_gc w c p rest)); [reflexivity|discriminate].
      * destruct L as (-> & -> & -> & l & -> & ->). simpl. apply moves_stay.
      * destruct L as [-> Ok].
        rewrite (getInstance_ok false _ Ok), (call_alloc p _ Ok). simpl.
        at_config ltac:(fun c => apply (moves_gc w c p rest)); [reflexivity|discriminate].
    + at_config ltac:(fun c => apply (moves_copy w c i rest)). reflexivity.
    + at_config ltac:(fun c => apply (moves_reset w c i rest)). reflexivity.
    + simpl. destruct cv.
      * apply moves_stay.
      * at_config ltac:(fun c => apply (moves_signal w c code)); reflexivity.
    + simpl. destruct spc; try apply moves_stay.
      at_config ltac:(fun c => apply (moves_join w c code)); reflexivity.
    + apply moves_stay.
  - (* the collection thread *)
    unfold sweeper_step. cbn [garbageCollectionThread proc _cvMutex objects store].
    destruct spc as [|b|b a it|]; simpl in L.
    + destruct L as [-> Ok]. at_config ltac:(fun c => apply (moves_wake w c)). reflexivity.
    + destruct L as [-> Ok]. rewrite (getInstance_ok false _ Ok). simpl.
      at_config ltac:(fun c => apply (moves_begin w c b)). reflexivity.
    + destruct L as (-> & -> & -> & l & -> & ->). simpl.
      destruct (collect_iter_cases (World h (Collector true l)) 0)
        as [[E R]|[(sp & E & U & R)|(bk & cb & E & Eb & Hc & R)]]; rewrite R.
      * unfold registry in E. simpl in E. destruct l; [|discriminate].
        at_config ltac:(fun c => apply (moves_leave w c b)); reflexivity.
      * simpl. apply moves_stay.
      * unfold registry in E. simpl in E. destruct l as [|sp l]; [discriminate|].
        injection E as ->. simpl.
        at_config ltac:(fun c => apply (moves_evict w c b bk cb l)); auto.
    + apply moves_stay.
Qed.

(** ** Counting handle variables *)

Lemma occ_app (b : nat) (l k : list shared_ptr) :
  occ b (l ++ k) = occ b l + occ b k.
Proof. unfold occ. rewrite filter_app, length_app. reflexivity. Qed.

Lemma occ_cons_eq (b : nat) (l : list shared_ptr) :
  occ b (Some b :: l) = S (occ b l).
Proof. unfold occ. rewrite filter_cons_True by reflexivity. reflexivity. Qed.

Lemma occ_cons_ne (b : nat) (sp : shared_ptr) (l : list shared_ptr) :
  sp <> Some b -> occ b (sp :: l) = occ b l.
Proof. intros H. unfold occ. rewrite filter_cons_False by exact H. reflexivity. Qed.

Lemma occ_zero (b : nat) (l : list shared_ptr) :
  occ b l = 0 <-> Some b ∉ l.
Proof.
  induction l as [|sp l IH].
  - split; [intros _ H; inversion H | reflexivity].
  - destruct (decide (sp = Some b)) as [->|Hne].
    + rewrite occ_cons_eq. split; [discriminate|].
      intros H. exfalso. apply H. apply list_elem_of_here.
    + rewrite occ_cons_ne by exact Hne. rewrite IH. rewrite not_elem_of_cons.
      split; [intros H; split; [congruence|exact H] | intros [_ H]; exact H].
Qed.

Lemma occ_insert_None (b : nat) (l : list shared_ptr) (i : nat) (sp : shared_ptr) :
  l !! i = Some sp ->
  occ b l = occ b (<[i := None]> l) + (if decide (sp = Some b) then 1 else 0).
Proof.
  remember (if decide (sp = Some b) then 1 else 0) as d eqn:Hd.
  revert i. induction l as [|x l IH]; intros [|i] H; simpl in H; try discriminate.
  - injection H as ->. simpl. rewrite (occ_cons_ne b None) by discriminate.
    destruct (decide (sp = Some b)) as [->|Hne]; subst d.
    + rewrite occ_cons_eq. lia.
    + rewrite occ_cons_ne by exact Hne. lia.
  - simpl. specialize (IH i H).
    destruct (decide (x = Some b)) as [->|Hne].
    + rewrite !occ_cons_eq. lia.
    + rewrite !occ_cons_ne by exact Hne. exact IH.
Qed.

Lemma occ_insert_None_eq (b : nat) (l : list shared_ptr) (i : nat) :
  l !! i = Some (Some b) -> occ b l = S (occ b (<[i := None]> l)).
Proof.
  intros H. rewrite (occ_insert_None b l i (Some b) H).
  destruct (decide (Some b = Some b)); [lia | congruence].
Qed.

Lemma occ_insert_None_ne (b : nat) (l : list shared_ptr) (i : nat) (sp : shared_ptr) :
  l !! i = Some sp -> sp <> Some b -> occ b (<[i := None]> l) = occ b l.
Proof.
  intros H Hne. rewrite (occ_insert_None b l i sp H).
  destruct (decide (sp = Some b)); [congruence | lia].
Qed.

Lemma tracked_explicit (h : heap) (m : bool) (l : list shared_ptr) (cv : bool) :
  tracked (Process h [Collector m l] (Some 0) cv) = l.
Proof. reflexivity. Qed.

Lemma tracked_instance_ok (m : bool) (s : process) :
  instance_ok m s ->
  (objects s = [] /\ _instance s = None /\ tracked s = []) \/
  (objects s = [Collector m (tracked s)] /\ _instance s = Some 0).
Proof.
  destruct s as [h objs inst cv]. unfold instance_ok. simpl.
  intros [(-> & -> & ->)|(l & -> & ->)]; [left|right]; auto.
Qed.

(** ** The invariants hold at every step *)

Lemma inv_locks_moves (c c' : config) :
  inv_locks c -> moves w c c' -> inv_locks c'.
Proof.
  intros L M. unfold inv_locks in *.
  destruct M as [|p rest Hc Hs h|i rest Hc|i rest Hc|Hc|code Hc Hcv|code Hc Hs
                 |Hs|b Hs|b bk cb l Hs Ht Hb Hu h|b Hs Ht]; simpl.
  - exact L.
  - destruct (garbageCollectionThread c) as [|b|b a it|]; simpl.
    + destruct L as [L1 L2]. split; [exact L1|]. right. eexists. split; reflexivity.
    + destruct L as [L1 L2]. split; [exact L1|]. right. eexists. split; reflexivity.
    + exfalso. eapply Hs. reflexivity.
    + destruct L as [L1 L2]. split; [exact L1|]. right. eexists. split; reflexivity.
  - exact L.
  - exact L.
  - exact L.
  - exact L.
  - exact L.
  - rewrite Hs in L. destruct L as [L1 L2]. split; [reflexivity|exact L2].
  - rewrite Hs in L. destruct L as [L1 L2].
    split; [exact L1|]. split; [reflexivity|]. split; [reflexivity|].
    eexists. split; reflexivity.
  - rewrite Hs in L. destruct L as (L1 & _).
    split; [exact L1|]. split; [reflexivity|]. split; [reflexivity|].
    eexists. split; reflexivity.
  - destruct b; simpl; (split; [reflexivity|]); right; eexists; split; reflexivity.
Qed.

Lemma inv_control_moves (c c' : config) :
  inv_locks c -> inv_control w c -> moves w c c' -> inv_control w c'.
Proof.
  intros L [C1 C2] M. unfold inv_control in *.
  destruct M as [|p rest Hc Hs h|i rest Hc|i rest Hc|Hc|code Hc Hcv|code Hc Hs
                 |Hs|b Hs|b bk cb l Hs Ht Hb Hu h|b Hs Ht]; simpl.
  - split; assumption.
  - rewrite Hc in C1. split; [exact C1|].
    destruct (garbageCollectionThread c) as [|b|b a it|]; auto;
      try (destruct C2 as [C2 _]; congruence).
  - rewrite Hc in C1. split; [exact C1|].
    destruct (garbageCollectionThread c) as [|b|b a it|]; auto;
      try (destruct C2 as [C2 _]; congruence).
  - rewrite Hc in C1. split; [exact C1|].
    destruct (garbageCollectionThread c) as [|b|b a it|]; auto;
      try (destruct C2 as [C2 _]; congruence).
  - rewrite Hc in C1. split; [split; [exact C1|reflexivity]|exact C2].
  - rewrite Hc in C1. destruct C1 as [C1 ->]. split; [split; reflexivity|].
    destruct (garbageCollectionThread c) as [|b|b a it|]; auto;
      try (destruct C2 as [C2 _]; congruence).
  - rewrite Hc in C1. destruct C1 as [C1 ->].
    split; [split; [exact C1|split; [reflexivity|exact Hs]]|exact C2].
  - split; [|auto].
    destruct (caller c) as [rest|code|code|code]; auto;
      try (destruct C1 as (_ & _ & C1); congruence).
  - rewrite Hs in C2. split; [|exact C2].
    destruct (caller c) as [rest|code|code|code]; auto;
      try (destruct C1 as (_ & _ & C1); congruence).
  - rewrite Hs in C2. split; [|exact C2].
    destruct (caller c) as [rest|code|code|code]; auto;
      try (destruct C1 as (_ & _ & C1); congruence).
  - rewrite Hs in C2. split.
    + destruct (caller c) as [rest|code|code|code]; auto;
        try (destruct C1 as (_ & _ & C1); congruence).
    + destruct b; simpl; auto.
Qed.

Lemma inv_trace_moves (c c' : config) :
  inv_control w c -> inv_trace c -> moves w c c' -> inv_trace c'.
Proof.
  intros [C1 C2] (T1 & T2 & T3) M. unfold inv_trace, inv_control in *.
  destruct M as [|p rest Hc Hs h|i rest Hc|i rest Hc|Hc|code Hc Hcv|code Hc Hs
                 |Hs|b Hs|b bk cb l Hs Ht Hb Hu h|b Hs Ht]; simpl.
  - auto.
  - split; [exact T1|]. split; [exact T2|exact I].
  - split; [exact T1|]. split; [exact T2|exact I].
  - split; [exact T1|]. split; [exact T2|exact I].
  - split; [exact T1|]. split; [exact T2|exact I].
  - split; [intros _; apply sublist_inserts_l; reflexivity|]. split; [|exact I].
    destruct (garbageCollectionThread c) as [|b|[] a it|]; auto;
      apply sublist_inserts_r; exact T2.
  - split; [intros H; apply sublist_inserts_r; auto|]. split.
    + destruct (garbageCollectionThread c) as [|b|[] a it|]; auto;
        apply sublist_inserts_r; exact T2.
    + rewrite Hs in T2.
      apply (sublist_app [StopSet; SweepBegin; SweepEnd; LoopExit] _ [Return code]);
        [exact T2 | reflexivity].
  - split; [exact T1|]. split; [exact I|exact T3].
  - rewrite Hs in C2. split; [intros H; apply sublist_inserts_r; auto|]. split.
    + destruct b; [|exact I].
      apply (sublist_app [StopSet] _ [SweepBegin]); [auto | reflexivity].
    + destruct (caller c) as [rest|code|code|code]; auto.
      apply sublist_inserts_r; exact T3.
  - rewrite Hs in T2. split; [exact T1|]. split; [exact T2|exact T3].
  - rewrite Hs in T2. split; [intros H; apply sublist_inserts_r; auto|]. split.
    + destruct b; simpl; [|exact I].
      apply (sublist_app [StopSet; SweepBegin] _ [SweepEnd; LoopExit]);
        [exact T2 | reflexivity].
    + destruct (caller c) as [rest|code|code|code]; auto.
      apply sublist_inserts_r; exact T3.
Qed.

Lemma tracked_set_store (h : heap) (s : process) : tracked (set_store h s) = tracked s.
Proof. reflexivity. Qed.

Lemma tracked_set_cvMutex (b : bool) (s : process) : tracked (set_cvMutex b s) = tracked s.
Proof. reflexivity. Qed.

Lemma sp_copy_live (h : heap) (b : nat) :
  sp_copy (Some b) h =
  Heap (alter (fun c => Ctrl (managed c) (S (use_count c))) b (blocks h))
       (fresh_block h) (deleted h).
Proof. reflexivity. Qed.

Lemma inv_counts_gc (c : config) (p : raw) :
  inv_counts c ->
  let h := store (proc c) in
  inv_counts
    (Config (Process (Heap (<[fresh_block h := Ctrl p 2]> (blocks h))
                           (S (fresh_block h)) (deleted h))
                     [Collector false (tracked (proc c) ++ [Some (fresh_block h)])]
                     (Some 0) (_cvMutex (proc c)))
            (vars c ++ [Some (fresh_block h)]) (gcStopSignal c)
            (caller c) (garbageCollectionThread c) (trace c)).
Proof.
  intros (N1 & N2 & N3 & N4) h. unfold inv_counts. cbn [store proc vars].
  rewrite tracked_explicit. cbn [blocks fresh_block].
  set (f := fresh_block h).
  assert (blocks h !! f = None) as F by (apply N4; reflexivity).
  destruct (N3 f F) as [F1 F2].
  split; [|split; [|split]].
  - apply NoDup_app. split; [exact N1|]. split; [|apply NoDup_singleton].
    intros x Hx Hx'. apply list_elem_of_singleton in Hx'. subst x. contradiction.
  - intros b cb Hb. apply lookup_insert_Some in Hb as [[<- <-]|[Hne Hb]].
    + split; [apply elem_of_app; right; apply list_elem_of_here|].
      rewrite occ_app, occ_cons_eq. apply occ_zero in F2. simpl. rewrite F2.
      reflexivity.
    + destruct (N2 b cb Hb) as [K1 K2]. split; [apply elem_of_app; left; exact K1|].
      rewrite occ_app, (occ_cons_ne b (Some f)) by congruence.
      rewrite K2. unfold occ at 3. simpl. lia.
  - intros b Hb. apply lookup_insert_None in Hb as [Hb Hne].
    destruct (N3 b Hb) as [K1 K2].
    split; apply not_elem_of_app; (split; [assumption|]);
      intros H; apply list_elem_of_singleton in H; congruence.
  - intros b Hb. rewrite lookup_insert_ne by lia. apply N4. unfold f, h in *. lia.
Qed.

Lemma inv_counts_copy (c : config) (i : nat) (pc : caller_pc) :
  inv_counts c ->
  inv_counts
    (Config (set_store (sp_copy (default None (vars c !! i)) (store (proc c))) (proc c))
            (vars c ++ [default None (vars c !! i)]) (gcStopSignal c)
            pc (garbageCollectionThread c) (trace c)).
Proof.
  intros (N1 & N2 & N3 & N4). unfold inv_counts. cbn [store proc vars].
  rewrite tracked_set_store. cbn [set_store store].
  destruct (vars c !! i) as [[b|]|] eqn:E; cbn [from_option id].
  - assert (Some b ∈ vars c) as Hin by (eapply list_elem_of_lookup_2, E).
    destruct (blocks (store (proc c)) !! b) as [cb|] eqn:Eb;
      [|destruct (N3 b Eb) as [_ K]; contradiction].
    rewrite sp_copy_live. cbn [blocks fresh_block].
    split; [exact N1|]. split; [|split].
    + intros b' cb' Hb'. apply lookup_alter_Some in Hb' as [(<- & cb0 & H0 & ->)|[Hne Hb']].
      * rewrite Eb in H0. injection H0 as <-. destruct (N2 b cb Eb) as [K1 K2].
        split; [exact K1|]. simpl. rewrite occ_app, occ_cons_eq, K2.
        unfold occ at 3. simpl. lia.
      * destruct (N2 b' cb' Hb') as [K1 K2]. split; [exact K1|].
        rewrite occ_app, (occ_cons_ne b' (Some b)) by congruence.
        rewrite K2. unfold occ at 3. simpl. lia.
    + intros b' Hb'. apply lookup_alter_None in Hb'. destruct (N3 b' Hb') as [K1 K2].
      split; [exact K1|]. apply not_elem_of_app. split; [exact K2|].
      intros H. apply list_elem_of_singleton in H. congruence.
    + intros b' Hb'. apply lookup_alter_None. apply N4. exact Hb'.
  - split; [exact N1|]. split; [|split].
    + intros b' cb' Hb'. destruct (N2 b' cb' Hb') as [K1 K2]. split; [exact K1|].
      rewrite occ_app, (occ_cons_ne b' None) by discriminate.
      rewrite K2. unfold occ at 3. simpl. lia.
    + intros b' Hb'. destruct (N3 b' Hb') as [K1 K2].
      split; [exact K1|]. apply not_elem_of_app. split; [exact K2|].
      intros H. apply list_elem_of_singleton in H. discriminate.
    + exact N4.
  - split; [exact N1|]. split; [|split].
    + intros b' cb' Hb'. destruct (N2 b' cb' Hb') as [K1 K2]. split; [exact K1|].
      rewrite occ_app, (occ_cons_ne b' None) by discriminate.
      rewrite K2. unfold occ at 3. simpl. lia.
    + intros b' Hb'. destruct (N3 b' Hb') as [K1 K2].
      split; [exact K1|]. apply not_elem_of_app. split; [exact K2|].
      intros H. apply list_elem_of_singleton in H. discriminate.
    + exact N4.
Qed.

Lemma inv_counts_reset (c : config) (i : nat) (pc : caller_pc) :
  inv_counts c ->
  inv_counts
    (Config (set_store (sp_release (default None (vars c !! i)) (store (proc c)))
                       (proc c))
            (<[i := None]> (vars c)) (gcStopSignal c) pc (garbageCollectionThread c) (trace c)).
Proof.
  intros (N1 & N2 & N3 & N4). unfold inv_counts. cbn [store proc vars].
  rewrite tracked_set_store. cbn [set_store store].
  destruct (vars c !! i) as [[b|]|] eqn:E; cbn [from_option id].
  - assert (Some b ∈ vars c) as Hin by (eapply list_elem_of_lookup_2, E).
    destruct (blocks (store (proc c)) !! b) as [cb|] eqn:Eb;
      [|destruct (N3 b Eb) as [_ K]; contradiction].
    destruct (N2 b cb Eb) as [K1 K2].
    pose proof (occ_insert_None_eq b _ _ E) as Hocc.
    rewrite (sp_release_shared _ b cb Eb) by lia. cbn [blocks fresh_block].
    split; [exact N1|]. split; [|split].
    + intros b' cb' Hb'. apply lookup_insert_Some in Hb' as [[<- <-]|[Hne Hb']].
      * split; [exact K1|]. simpl. lia.
      * destruct (N2 b' cb' Hb') as [J1 J2]. split; [exact J1|].
        rewrite (occ_insert_None_ne b' _ _ _ E) by congruence. exact J2.
    + intros b' Hb'. apply lookup_insert_None in Hb' as [Hb' Hne].
      destruct (N3 b' Hb') as [J1 J2]. split; [exact J1|].
      apply occ_zero. apply occ_zero in J2.
      rewrite (occ_insert_None_ne b' _ _ _ E) by congruence. exact J2.
    + intros b' Hb'. apply lookup_insert_None. split; [apply N4; exact Hb'|].
      intros ->. rewrite (N4 _ Hb') in Eb. discriminate.
  - rewrite (list_insert_id _ _ _ E). unfold sp_release.
    split; [exact N1|]. split; [exact N2|]. split; [exact N3|exact N4].
  - rewrite list_insert_ge by (apply lookup_ge_None; exact E). unfold sp_release.
    split; [exact N1|]. split; [exact N2|]. split; [exact N3|exact N4].
Qed.

Lemma inv_counts_evict (c : config) (bk : nat) (cb : ctrl) (l : list shared_ptr)
      (m : bool) (pc : sweeper_pc) :
  inv_counts c ->
  tracked (proc c) = Some bk :: l ->
  blocks (store (proc c)) !! bk = Some cb -> use_count cb = 1 ->
  let h := store (proc c) in
  inv_counts
    (Config (Process (Heap (delete bk (blocks h)) (fresh_block h)
                           (deleted h ++ [managed cb]))
                     [Collector m l] (Some 0) (_cvMutex (proc c)))
            (vars c) (gcStopSignal c) (caller c) pc (trace c)).
Proof.
  intros (N1 & N2 & N3 & N4) Ht Hb Hu h. unfold inv_counts. cbn [store proc vars].
  rewrite tracked_explicit. cbn [blocks fresh_block].
  rewrite Ht in *. apply NoDup_cons in N1 as [N1 N1'].
  destruct (N2 bk cb Hb) as [_ K]. assert (occ bk (vars c) = 0) as Hz by lia.
  split; [exact N1'|]. split; [|split].
  - intros b cb' Hb'. apply lookup_delete_Some in Hb' as [Hne Hb'].
    destruct (N2 b cb' Hb') as [J1 J2]. split; [|exact J2].
    apply elem_of_cons in J1 as [J1|J1]; [congruence|exact J1].
  - intros b Hb'. apply lookup_delete_None in Hb' as [->|Hb'].
    + split; [exact N1|]. apply occ_zero. exact Hz.
    + destruct (N3 b Hb') as [J1 J2]. split; [|exact J2].
      intros H. apply J1. apply list_elem_of_further. exact H.
  - intros b Hb'. apply lookup_delete_None. right. apply N4. exact Hb'.
Qed.

Lemma inv_counts_moves (c c' : config) :
  inv_counts c -> moves w c c' -> inv_counts c'.
Proof.
  intros N M.
  destruct M as [|p rest Hc Hs h|i rest Hc|i rest Hc|Hc|code Hc Hcv|code Hc Hs
                 |Hs|b Hs|b bk cb l Hs Ht Hb Hu h|b Hs Ht].
  - exact N.
  - apply (inv_counts_gc (Config (proc c) (vars c) (gcStopSignal c)
                                 (InFunction rest) (garbageCollectionThread c) (trace c)) p N).
  - apply inv_counts_copy, N.
  - apply inv_counts_reset, N.
  - exact N.
  - exact N.
  - exact N.
  - exact N.
  - exact N.
  - apply (inv_counts_evict c bk cb l true (Collecting b 0 0) N Ht Hb Hu).
  - unfold inv_counts in *. cbn [store proc vars]. rewrite tracked_explicit.
    rewrite <- Ht. exact N.
Qed.

Lemma handles_snoc (done : list op) (o : op) :
  handles (done ++ [o]) = op_effect (handles done) o.
Proof. unfold handles. rewrite fold_left_app. reflexivity. Qed.

Lemma allocated_app (l k : list op) : allocated (l ++ k) = allocated l ++ allocated k.
Proof. unfold allocated. apply omap_app. Qed.

Lemma inv_done_moves (c c' : config) :
  inv_counts c -> inv_done w c -> moves w c c' -> inv_done w c'.
Proof.
  intros (N1 & N2 & N3 & N4) (done & D1 & D2 & D3 & D4 & D5) M.
  destruct M as [|p rest Hc Hs h|i rest Hc|i rest Hc|Hc|code Hc Hcv|code Hc Hs
                 |Hs|b Hs|b bk cb l Hs Ht Hb Hu h|b Hs Ht].
  - exists done. auto.
  - (* gc(p) *)
    rewrite Hc in D1. simpl in D1.
    assert (blocks h !! fresh_block h = None) as F by (apply N4; reflexivity).
    exists (done ++ [Gc p]). unfold inv_done. cbn [store proc vars caller rest_of].
    cbn [blocks fresh_block deleted].
    rewrite handles_snoc, D2, allocated_app. cbn [op_effect allocated omap].
    split; [rewrite <- app_assoc; exact D1|]. split; [reflexivity|].
    split; [|split; [|]].
    + intros b cb Hb. apply elem_of_app.
      apply lookup_insert_Some in Hb as [[<- <-]|[Hne Hb]].
      * right. apply list_elem_of_here.
      * left. eauto.
    + intros q Hq. apply elem_of_app. left. auto.
    + intros ND. rewrite D1, allocated_app in ND. cbn [allocated omap] in ND.
      assert (p ∉ allocated done) as Hp
        by (apply NoDup_app in ND as (_ & ND & _); intros H; apply (ND p H);
            apply list_elem_of_here).
      destruct D5 as [Sep Live]; [rewrite D1, allocated_app; exact ND|].
      split.
      * unfold separate_objects. cbn [blocks]. intros b1 b2 c1 c2 H1 H2 Hm.
        apply lookup_insert_Some in H1 as [[<- <-]|[Hne1 H1]];
          apply lookup_insert_Some in H2 as [[<- <-]|[Hne2 H2]].
        -- reflexivity.
        -- exfalso. apply Hp. simpl in Hm. rewrite Hm. eauto.
        -- exfalso. apply Hp. simpl in Hm. rewrite <- Hm. eauto.
        -- eauto.
      * intros b cb Hb. apply lookup_insert_Some in Hb as [[<- <-]|[Hne Hb]].
        -- simpl. intros H. apply Hp. auto.
        -- eauto.
  - (* a copy *)
    rewrite Hc in D1. simpl in D1.
    exists (done ++ [Copy i]). unfold inv_done. cbn [store proc vars caller rest_of set_store].
    rewrite handles_snoc, D2, allocated_app, sp_copy_fresh. cbn [op_effect allocated omap].
    rewrite app_nil_r.
    assert (forall b cb, blocks (sp_copy (default None (vars c !! i)) (store (proc c))) !! b
                         = Some cb ->
                         exists cb0, blocks (store (proc c)) !! b = Some cb0
                                     /\ managed cb0 = managed cb) as Same.
    { intros b cb Hb. destruct (default None (vars c !! i)) as [b0|]; [|eauto].
      rewrite sp_copy_live in Hb. cbn [blocks] in Hb.
      apply lookup_alter_Some in Hb as [(<- & cb0 & H0 & ->)|[Hne Hb]]; eauto. }
    assert (deleted (sp_copy (default None (vars c !! i)) (store (proc c)))
            = deleted (store (proc c))) as Del
      by (destruct (default None (vars c !! i)); reflexivity).
    rewrite Del.
    split; [rewrite <- app_assoc; exact D1|]. split; [reflexivity|].
    split; [|split; [exact D4|]].
    + intros b cb Hb. destruct (Same b cb Hb) as (cb0 & H0 & <-). eauto.
    + intros ND. destruct (D5 ND) as [Sep Live]. split.
      * intros b1 b2 c1 c2 H1 H2 Hm.
        destruct (Same b1 c1 H1) as (c1' & H1' & E1).
        destruct (Same b2 c2 H2) as (c2' & H2' & E2).
        apply (Sep b1 b2 c1' c2' H1' H2'). congruence.
      * intros b cb Hb. destruct (Same b cb Hb) as (cb0 & H0 & <-). eauto.
  - (* a reset *)
    rewrite Hc in D1. simpl in D1.
    exists (done ++ [Reset i]). unfold inv_done. cbn [store proc vars caller rest_of set_store].
    rewrite handles_snoc, D2, allocated_app, sp_release_fresh. cbn [op_effect allocated omap].
    rewrite app_nil_r.
    assert (deleted (sp_release (default None (vars c !! i)) (store (proc c)))
            = deleted (store (proc c))
            /\ forall b cb,
                 blocks (sp_release (default None (vars c !! i)) (store (proc c))) !! b
                 = Some cb ->
                 exists cb0, blocks (store (proc c)) !! b = Some cb0
                             /\ managed cb0 = managed cb) as [Del Same].
    { destruct (vars c !! i) as [[b0|]|] eqn:E; cbn [from_option id];
        [|split; [reflexivity|eauto]|split; [reflexivity|eauto]].
      assert (Some b0 ∈ vars c) as Hin by (eapply list_elem_of_lookup_2, E).
      destruct (blocks (store (proc c)) !! b0) as [cb0|] eqn:Eb;
        [|destruct (N3 b0 Eb) as [_ K]; contradiction].
      destruct (N2 b0 cb0 Eb) as [_ K2].
      pose proof (occ_insert_None_eq b0 _ _ E) as Hocc.
      rewrite (sp_release_shared _ b0 cb0 Eb) by lia. cbn [blocks deleted].
      split; [reflexivity|]. intros b cb Hb.
      apply lookup_insert_Some in Hb as [[<- <-]|[Hne Hb]]; eauto. }
    rewrite Del.
    split; [rewrite <- app_assoc; exact D1|]. split; [reflexivity|].
    split; [|split; [exact D4|]].
    + intros b cb Hb. destruct (Same b cb Hb) as (cb0 & H0 & <-). eauto.
    + intros ND. destruct (D5 ND) as [Sep Live]. split.
      * intros b1 b2 c1 c2 H1 H2 Hm.
        destruct (Same b1 c1 H1) as (c1' & H1' & E1).
        destruct (Same b2 c2 H2) as (c2' & H2' & E2).
        apply (Sep b1 b2 c1' c2' H1' H2'). congruence.
      * intros b cb Hb. destruct (Same b cb Hb) as (cb0 & H0 & <-). eauto.
  - exists done. rewrite Hc in D1. unfold inv_done. simpl. auto.
  - exists done. rewrite Hc in D1. unfold inv_done. simpl. auto.
  - exists done. rewrite Hc in D1. unfold inv_done. simpl. auto.
  - exists done. unfold inv_done. simpl. auto.
  - exists done. unfold inv_done. simpl. auto.
  - (* an eviction *)
    exists done. unfold inv_done. cbn [store proc vars caller blocks fresh_block deleted].
    split; [exact D1|]. split; [exact D2|]. split; [|split].
    + intros b' cb' Hb'. apply lookup_delete_Some in Hb' as [_ Hb']. eauto.
    + intros q Hq. apply elem_of_app in Hq as [Hq|Hq]; [auto|].
      apply list_elem_of_singleton in Hq. subst q. eauto.
    + intros ND. destruct (D5 ND) as [Sep Live]. split.
      * intros b1 b2 c1 c2 H1 H2. simpl in *.
        apply lookup_delete_Some in H1 as [_ H1].
        apply lookup_delete_Some in H2 as [_ H2]. eauto.
      * intros b' cb' Hb'. apply lookup_delete_Some in Hb' as [Hne Hb'].
        intros Hq. apply elem_of_app in Hq as [Hq|Hq]; [eapply Live; eauto|].
        apply list_elem_of_singleton in Hq. apply Hne. symmetry. eauto.
  - exists done. unfold inv_done. simpl. auto.
Qed.

Lemma inv_begin : inv w (runtime_begin w start).
Proof.
  split.
  - split; [reflexivity|]. left. auto.
  - split; [apply NoDup_nil_2|]. split; [|split].
    + intros b cb H. simpl in H. rewrite lookup_empty in H. discriminate.
    + intros b _. split; intros H; inversion H.
    + intros b _. apply lookup_empty.
  - split; [reflexivity|exact I].
  - split; [discriminate|]. split; exact I.
  - exists []. split; [reflexivity|]. split; [reflexivity|].
    split; [intros b cb H; simpl in H; rewrite lookup_empty in H; discriminate|].
    split; [intros p H; inversion H|].
    intros _. split.
    + intros b1 b2 c1 c2 H. simpl in H. rewrite lookup_empty in H. discriminate.
    + intros b cb H. simpl in H. rewrite lookup_empty in H. discriminate.
  - intros H. inversion H.
Qed.

Lemma inv_entries_moves (c c' : config) :
  inv_entries c -> moves w c c' -> inv_entries c'.
Proof.
  intros E M. unfold inv_entries in *.
  destruct M as [|p rest Hc Hs h|i rest Hc|i rest Hc|Hc|code Hc Hcv|code Hc Hs
                 |Hs|b Hs|b bk cb l Hs Ht Hb Hu h|b Hs Ht];
    cbn [proc]; rewrite ?tracked_explicit; auto.
  - apply not_elem_of_app. split; [exact E|].
    intros H. apply list_elem_of_singleton in H. discriminate.
  - rewrite Ht in E. apply not_elem_of_cons in E as [_ E]. exact E.
  - intros H. inversion H.
Qed.

Lemma inv_step (t : thread) (c : config) :
  inv w c -> inv w (step w t c).
Proof.
  intros [L N C T D E]. pose proof (step_moves t c L) as M. split.
  - eapply inv_locks_moves; eauto.
  - eapply inv_counts_moves; eauto.
  - eapply inv_control_moves; eauto.
  - eapply inv_trace_moves; eauto.
  - eapply inv_done_moves; eauto.
  - eapply inv_entries_moves; eauto.
Qed.

Lemma run_cons (t : thread) (sched : list thread) (c : config) :
  run w (t :: sched) c = run w sched (step w t c).
Proof. reflexivity. Qed.

Lemma run_app (s1 s2 : list thread) (c : config) :
  run w (s1 ++ s2) c = run w s2 (run w s1 c).
Proof. unfold run. apply fold_left_app. Qed.

Lemma inv_fold (sched : list thread) (c : config) :
  inv w c -> inv w (run w sched c).
Proof.
  revert c. induction sched as [|t sched IH]; intros c H.
  - exact H.
  - rewrite run_cons. apply IH, inv_step, H.
Qed.

Lemma inv_runtime (sched : list thread) :
  inv w (runtime w sched start).
Proof. apply inv_fold, inv_begin. Qed.

End Invariant.

(** ** What holds when [runtime] has returned *)

Lemma returned_facts (w : work) (c : config) (code : Z) :
  inv w c -> result c = Some code ->
  code = status w
  /\ garbageCollectionThread c = Exited
  /\ tracked (proc c) = []
  /\ Forall (fun sp => sp = None) (vars c)
  /\ vars c = snd (handles (body w)).
Proof.
  intros [L (N1 & N2 & N3 & N4) [C1 C2] T (done & D1 & D2 & _) _] R.
  unfold result in R. destruct (caller c) as [rest|code'|code'|code'] eqn:Ec;
    try discriminate.
  injection R as ->. destruct C1 as (Hs & -> & Hx). rewrite Hx in C2.
  destruct C2 as [_ Ht].
  split; [reflexivity|]. split; [exact Hx|]. split; [exact Ht|]. split.
  - apply Forall_forall. intros [b|] Hin; [exfalso|reflexivity].
    destruct (blocks (store (proc c)) !! b) as [cb|] eqn:Eb.
    + destruct (N2 b cb Eb) as [K _]. rewrite Ht in K. inversion K.
    + destruct (N3 b Eb) as [_ K]. contradiction.
  - simpl in D1. rewrite app_nil_r in D1. rewrite D1, D2. reflexivity.
Qed.

(** Whenever [runtime] returns, it returns what the unit of work
    returned. *)
Lemma runtime_result_is_status (w : work) (sched : list thread) (code : Z) :
  result (runtime w sched start) = Some code -> code = status w.
Proof. intros R. eapply returned_facts; [apply inv_runtime|exact R]. Qed.

(** [runtime] returns only if the unit of work has given up every
    handle it made. *)
Lemma runtime_returns_only_released (w : work) (sched : list thread) (code : Z) :
  result (runtime w sched start) = Some code ->
  Forall (fun sp => sp = None) (snd (handles (body w))).
Proof.
  intros R. destruct (returned_facts w _ code (inv_runtime w sched) R)
    as (_ & _ & _ & F & E).
  rewrite <- E. exact F.
Qed.

Lemma runtime_hangs_on_kept_handle (w : work) (b : nat) (sched : list thread) :
  Some b ∈ snd (handles (body w)) -> result (runtime w sched start) = None.
Proof.
  intros Hin. destruct (result (runtime w sched start)) as [code|] eqn:R; [|reflexivity].
  apply runtime_returns_only_released in R. rewrite Forall_forall in R.
  apply R in Hin. discriminate.
Qed.

(** ** Units of work that keep a handle *)

Lemma runtime_app (w : work) (s1 s2 : list thread) (s : process) :
  runtime w (s1 ++ s2) s = run w s2 (runtime w s1 s).
Proof. unfold runtime. apply run_app. Qed.

Lemma fold_step_fixed (w : work) (c : config) (sched : list thread) :
  (forall t, step w t c = c) -> run w sched c = c.
Proof.
  intros H. induction sched as [|t sched IH]; [reflexivity|].
  rewrite run_cons, H. exact IH.
Qed.

(** C8, at [keeps_handle p code]: the function returns [code] and a
    handle made by [gc(p)] is still alive.  The claim has [runtime]
    return [code]; under no schedule has [runtime] returned, and once
    the caller waits in [join] and the collection thread is in [collect]
    on the entry of [p], no step of either thread changes anything.
    Same defect as C2: the loop of [collect] does not move past an entry
    that is not unique. *)
Theorem runtime_does_not_return_with_kept_handle
        (p : raw) (code : Z) (sched : list thread) :
  result (runtime (keeps_handle p code) sched start) = None
  /\ runtime (keeps_handle p code)
             ([CallerThread; CallerThread; CallerThread; SweeperThread; SweeperThread]
              ++ sched) start
     = Config (Process (Heap {[0 := Ctrl p 2]} 1 []) [Collector true [Some 0]]
                       (Some 0) true)
              [Some 0] true (Join code) (Collecting true 0 0) [StopSet; SweepBegin].
Proof.
  split.
  - apply runtime_hangs_on_kept_handle with 0. simpl. apply list_elem_of_here.
  - rewrite runtime_app. apply fold_step_fixed. intros [|]; reflexivity.
Qed.

Lemma release_var (c : config) (i : nat) :
  inv_counts c ->
  deleted (sp_release (default None (vars c !! i)) (store (proc c)))
  = deleted (store (proc c)).
Proof.
  intros (N1 & N2 & N3 & N4).
  destruct (vars c !! i) as [[b0|]|] eqn:E; cbn [from_option id]; try reflexivity.
  assert (Some b0 ∈ vars c) as Hin by (eapply list_elem_of_lookup_2, E).
  destruct (blocks (store (proc c)) !! b0) as [cb0|] eqn:Eb;
    [|destruct (N3 b0 Eb) as [_ K]; contradiction].
  destruct (N2 b0 cb0 Eb) as [_ K2].
  pose proof (occ_insert_None_eq b0 _ _ E) as Hocc.
  rewrite (sp_release_shared _ b0 cb0 Eb) by lia. reflexivity.
Qed.

Lemma sp_copy_deleted (sp : shared_ptr) (h : heap) : deleted (sp_copy sp h) = deleted h.
Proof. destruct sp; reflexivity. Qed.

Lemma keeps_first_var (pB pA : raw) (code : Z) (c : config) :
  inv_done (keeps_first_drops_second pB pA code) c ->
  1 <= fresh_block (store (proc c)) -> Some 0 ∈ vars c.
Proof.
  intros (done & D1 & D2 & _) F. simpl in D1.
  destruct done as [|o1 [|o2 [|o3 [|o4 done]]]]; simpl in D1.
  - unfold handles in D2. simpl in D2. injection D2 as D2 _. lia.
  - injection D1 as <- _. unfold handles in D2. simpl in D2.
    injection D2 as _ <-. apply list_elem_of_here.
  - injection D1 as <- <- _. unfold handles in D2. simpl in D2.
    injection D2 as _ <-. apply list_elem_of_here.
  - injection D1 as <- <- <- _. unfold handles in D2. simpl in D2.
    injection D2 as _ <-. apply list_elem_of_here.
  - injection D1 as _ _ _ D1. destruct done; discriminate.
Qed.

Lemma nothing_evicted_moves (pB pA : raw) (code : Z) (c c' : config) :
  inv (keeps_first_drops_second pB pA code) c ->
  nothing_evicted c ->
  moves (keeps_first_drops_second pB pA code) c c' ->
  nothing_evicted c'.
Proof.
  intros [L N C T D _] [J1 J2] M. unfold nothing_evicted in *.
  destruct M as [|p rest Hc Hs h|i rest Hc|i rest Hc|Hc|code' Hc Hcv|code' Hc Hs
                 |Hs|b Hs|b bk cb l Hs Ht Hb Hu h|b Hs Ht];
    cbn [store proc deleted fresh_block]; rewrite ?tracked_explicit; auto.
  - split; [exact J1|]. rewrite J2, seq_S, fmap_app. reflexivity.
  - rewrite tracked_set_store. cbn [set_store store].
    rewrite sp_copy_deleted, sp_copy_fresh. auto.
  - rewrite tracked_set_store. cbn [set_store store].
    rewrite release_var, sp_release_fresh by exact N. auto.
  - exfalso. rewrite J2 in Ht.
    destruct (fresh_block (store (proc c))) as [|f] eqn:Ef; [discriminate|].
    simpl in Ht. injection Ht as <- _.
    assert (Some 0 ∈ vars c) as Hin by (eapply keeps_first_var; [exact D|lia]).
    destruct N as (_ & N2 & _). destruct (N2 0 cb Hb) as [_ K].
    apply occ_zero in Hin; [exact Hin|lia].
  - split; [exact J1|]. rewrite <- Ht. exact J2.
Qed.

Lemma nothing_evicted_runtime (pB pA : raw) (code : Z) (sched : list thread) :
  nothing_evicted (runtime (keeps_first_drops_second pB pA code) sched start).
Proof.
  unfold runtime.
  assert (forall c, inv (keeps_first_drops_second pB pA code) c -> nothing_evicted c ->
                    nothing_evicted
                      (run (keeps_first_drops_second pB pA code) sched c)) as H.
  { induction sched as [|t sched IH]; intros c I J; [exact J|].
    rewrite run_cons. apply IH; [apply inv_step, I|].
    eapply nothing_evicted_moves; [exact I|exact J|].
    apply step_moves, I. }
  apply H; [apply inv_begin|]. split; reflexivity.
Qed.

(** C3, at [keeps_first_drops_second pB pA code]: the last handle of the
    object [pA] is dropped inside the function, before the stop flag is
    set, and [pA] is in no cycle.  The claim has [pA] destructed by the
    time [runtime] returns; under every schedule nothing has been
    deleted, the list still holds every entry made, and [runtime] has
    not returned.  With the caller run first, the final sweep is on the
    entry of [pB], the entry of [pA] behind it with one owner, and no
    further step changes anything.  Same defect as C2. *)
Theorem runtime_never_reclaims_behind_kept_handle
        (pB pA : raw) (code : Z) (sched : list thread) :
  let w := keeps_first_drops_second pB pA code in
  result (runtime w sched start) = None
  /\ deleted (store (proc (runtime w sched start))) = []
  /\ tracked (proc (runtime w sched start))
     = Some <$> seq 0 (fresh_block (store (proc (runtime w sched start))))
  /\ runtime w (replicate 5 CallerThread ++ replicate 2 SweeperThread ++ sched) start
     = Config (Process (Heap (<[1 := Ctrl pA 1]> (<[1 := Ctrl pA 2]> {[0 := Ctrl pB 2]}))
                             2 [])
                       [Collector true [Some 0; Some 1]] (Some 0) true)
              [Some 0; None] true (Join code) (Collecting true 0 0)
              [StopSet; SweepBegin].
Proof.
  intros w. pose proof (nothing_evicted_runtime pB pA code sched) as [J1 J2].
  split; [|split; [exact J1|split; [exact J2|]]].
  - apply runtime_hangs_on_kept_handle with 0. simpl.
    apply list_elem_of_here.
  - rewrite app_assoc, runtime_app. apply fold_step_fixed. intros [|]; reflexivity.
Qed.

(** ** The final sweep *)

(** Once the flag is set, the next two steps of a waiting collection
    thread take it into a sweep after which it leaves its loop. *)
Lemma final_sweep_begins (w : work) (c : config) :
  inv w c -> gcStopSignal c = true -> garbageCollectionThread c = Waiting ->
  garbageCollectionThread (step w SweeperThread (step w SweeperThread c))
  = Collecting true 0 0.
Proof.
  intros [L _ _ _ _ _] Hstop Hs.
  destruct c as [[h objs inst cv] vs stop cpc spc tr]. simpl in Hstop, Hs. subst.
  unfold inv_locks in L. simpl in L. destruct L as [-> Ok].
  simpl. unfold sweeper_step. cbn [garbageCollectionThread proc].
  rewrite (getInstance_ok false) by exact Ok. reflexivity.
Qed.

(** In every execution, when the collection thread has left its
    loop or [runtime] has returned, the thread has left its loop, and
    the events so far contain, in this order, the setting of the stop
    flag, the begin of a sweep, the end of a sweep and the exit of the
    loop, followed by the return of [runtime] if it has returned. *)
Theorem final_sweep_after_stop_before_return (w : work) (sched : list thread) :
  garbageCollectionThread (runtime w sched start) = Exited
  \/ is_Some (result (runtime w sched start)) ->
  garbageCollectionThread (runtime w sched start) = Exited
  /\ [StopSet; SweepBegin; SweepEnd; LoopExit] `sublist_of` trace (runtime w sched start)
  /\ match result (runtime w sched start) with
     | Some code =>
         [StopSet; SweepBegin; SweepEnd; LoopExit; Return code]
           `sublist_of` trace (runtime w sched start)
     | None => True
     end.
Proof.
  pose proof (inv_runtime w sched) as I. set (c := runtime w sched start) in *.
  intros H.
  assert (garbageCollectionThread c = Exited) as Hx.
  { destruct H as [H|[code H]]; [exact H|].
    eapply returned_facts; [exact I|exact H]. }
  destruct I as [_ _ _ (T1 & T2 & T3) _ _]. rewrite Hx in T2.
  split; [exact Hx|]. split; [exact T2|].
  unfold result. destruct (caller c); auto.
Qed.

Lemma final_sweep_after_stop_before_return_witness :
  (garbageCollectionThread
     (runtime (drops_handle 10%Z 7%Z) (caller_first (drops_handle 10%Z 7%Z) 4) start)
   = Exited
   \/ is_Some (result (runtime (drops_handle 10%Z 7%Z)
                               (caller_first (drops_handle 10%Z 7%Z) 4) start)))
  /\ trace (runtime (drops_handle 10%Z 7%Z) (caller_first (drops_handle 10%Z 7%Z) 4) start)
     = [StopSet; SweepBegin; SweepEnd; LoopExit; Return 7%Z]
  /\ (garbageCollectionThread
        (runtime (drops_handle 10%Z 7%Z) (caller_first (drops_handle 10%Z 7%Z) 4) start)
      = Exited
      /\ [StopSet; SweepBegin; SweepEnd; LoopExit]
           `sublist_of` trace (runtime (drops_handle 10%Z 7%Z)
                                       (caller_first (drops_handle 10%Z 7%Z) 4) start)
      /\ match result (runtime (drops_handle 10%Z 7%Z)
                               (caller_first (drops_handle 10%Z 7%Z) 4) start) with
         | Some code =>
             [StopSet; SweepBegin; SweepEnd; LoopExit; Return code]
               `sublist_of` trace (runtime (drops_handle 10%Z 7%Z)
                                           (caller_first (drops_handle 10%Z 7%Z) 4) start)
         | None => True
         end).
Proof.
  split; [left; reflexivity|]. split; [reflexivity|].
  apply (final_sweep_after_stop_before_return
           (drops_handle 10%Z 7%Z) (caller_first (drops_handle 10%Z 7%Z) 4)).
  left. reflexivity.
Defined.

(** ** Objects that still have an owner outside the list *)

Lemma unique_then_owned_eq (pA pB : raw) :
  unique_then_owned pA pB =
  World (Heap (<[0 := Ctrl pA 1]> (<[1 := Ctrl pB 2]> {[0 := Ctrl pA 2]})) 2 [])
        (Collector false [Some 0; Some 1]).
Proof.
  unfold unique_then_owned. rewrite !alloc_eq. simpl.
  unfold sp_release. simpl. rewrite lookup_insert_ne, lookup_insert_eq by lia.
  reflexivity.
Qed.

(** ** Two sweeps in succession *)

(** C7, at [unique_then_owned pA pB]: the list is [A; B], [A] owned by
    the list alone and [B] still owned by the caller.  The claim has a
    second sweep leave the list as the first left it: the specified
    sweep removes [A], keeps [B], and does the same when run again.  The
    loop of [collect] reaches that state after its first evaluation and
    then stays on [B]: the first call does not return, whatever number
    of evaluations it is given, so there is no state after a first
    sweep for a second one to start from. *)
Theorem second_sweep_never_starts (pA pB : raw) (fuel fuel' : nat) :
  registry (unique_then_owned pA pB) = [Some 0; Some 1]
  /\ unique (mem (unique_then_owned pA pB)) (Some 0) = true
  /\ unique (mem (unique_then_owned pA pB)) (Some 1) = false
  /\ registry (sweep_as_specified (unique_then_owned pA pB)) = [Some 1]
  /\ sweep_as_specified (sweep_as_specified (unique_then_owned pA pB))
     = sweep_as_specified (unique_then_owned pA pB)
  /\ state_of (collect_run (S fuel) (unique_then_owned pA pB) 0)
     = sweep_as_specified (unique_then_owned pA pB)
  /\ collect fuel (unique_then_owned pA pB) = None
  /\ (collect fuel (unique_then_owned pA pB) ≫= collect fuel') = None.
Proof.
  set (w := unique_then_owned pA pB).
  set (w1 := state_of (collect_iter w 0)).
  assert (collect_iter w 0 = Again w1 0) as It by (vm_compute; reflexivity).
  assert (sweep_as_specified w = w1) as Sp by (vm_compute; reflexivity).
  assert (forall n, collect_run n w1 0 = Again w1 0) as Stay.
  { intros n. apply collect_run_shared with (Some 1); vm_compute; reflexivity. }
  assert (collect fuel w = None) as Never.
  { unfold collect. destruct fuel as [|n]; [reflexivity|].
    cbn [collect_run]. rewrite It, Stay. reflexivity. }
  split; [vm_compute; reflexivity|]. split; [vm_compute; reflexivity|].
  split; [vm_compute; reflexivity|]. split; [vm_compute; reflexivity|].
  split; [vm_compute; reflexivity|].
  split; [cbn [collect_run]; rewrite It, Stay, Sp; reflexivity|].
  split; [exact Never|]. rewrite Never. reflexivity.
Qed.


(** At every point of every execution of [runtime], a handle that a
    variable of the unit of work holds designates a live group that is
    still in the list; if the unit of work registers no raw object
    twice, the object of that group has not been deleted. *)
Lemma held_handle_is_live (w : work) (sched : list thread) (b : nat) :
  Some b ∈ vars (runtime w sched start) ->
  exists cb,
    blocks (store (proc (runtime w sched start))) !! b = Some cb
    /\ 2 <= use_count cb
    /\ Some b ∈ tracked (proc (runtime w sched start))
    /\ (NoDup (allocated (body w)) ->
        managed cb ∉ deleted (store (proc (runtime w sched start)))).
Proof.
  pose proof (inv_runtime w sched)
    as [_ (N1 & N2 & N3 & N4) _ _ (done & _ & _ & _ & _ & D5) _].
  set (c := runtime w sched start) in *. intros Hin.
  destruct (blocks (store (proc c)) !! b) as [cb|] eqn:Eb;
    [|destruct (N3 b Eb) as [_ K]; contradiction].
  destruct (N2 b cb Eb) as [K1 K2]. exists cb.
  split; [reflexivity|]. split.
  - destruct (occ b (vars c)) eqn:Eo; [apply occ_zero in Eo; contradiction | lia].
  - split; [exact K1|]. intros ND. destruct (D5 ND) as [_ Live]. eauto.
Qed.

(** At every point of every execution of [runtime] the list holds no
    handle twice. *)
Lemma tracked_NoDup (w : work) (sched : list thread) :
  NoDup (tracked (proc (runtime w sched start))).
Proof. pose proof (inv_runtime w sched) as [_ (N1 & _) _ _ _ _]. exact N1. Qed.

(** ** The singleton *)

Lemma getInstance_set (s : process) (a : nat) :
  _instance s = Some a -> getInstance s = (Some a, s).
Proof. intros H. unfold getInstance. rewrite H. simpl. rewrite H. reflexivity. Qed.

Lemma getInstance_calls_set (n : nat) (s : process) (a : nat) :
  _instance s = Some a -> getInstance_calls n s = (replicate n (Some a), s).
Proof.
  intros H. induction n as [|n IH]; cbn [getInstance_calls]; [reflexivity|].
  rewrite (getInstance_set s a H), IH. reflexivity.
Qed.

(** C9: a call of [getInstance] on a process without an instance
    constructs one collector, at a new address, and sets [_instance] to
    it; a call on a process with an instance constructs nothing and
    changes nothing.  Either way the call returns the instance, and any
    number of calls after it return that same instance and leave the
    process, and so the objects constructed, as the first call left
    them. *)
Theorem getInstance_constructs_once (s : process) (n : nat) :
  match _instance s with
  | None =>
      getInstance s =
      (Some (length (objects s)),
       Process (store s) (objects s ++ [Collector false []])
               (Some (length (objects s))) (_cvMutex s))
  | Some a => getInstance s = (Some a, s)
  end
  /\ is_Some (fst (getInstance s))
  /\ _instance (snd (getInstance s)) = fst (getInstance s)
  /\ getInstance_calls n (snd (getInstance s))
     = (replicate n (fst (getInstance s)), snd (getInstance s)).
Proof.
  destruct (_instance s) as [a|] eqn:E.
  - rewrite (getInstance_set s a E). simpl. rewrite E.
    split; [reflexivity|]. split; [eauto|]. split; [reflexivity|].
    apply getInstance_calls_set, E.
  - assert (getInstance s =
            (Some (length (objects s)),
             Process (store s) (objects s ++ [Collector false []])
                     (Some (length (objects s))) (_cvMutex s))) as G
      by (unfold getInstance; rewrite E; reflexivity).
    rewrite G. simpl.
    split; [reflexivity|]. split; [eauto|]. split; [reflexivity|].
    apply getInstance_calls_set. reflexivity.
Qed.

(** From the start of the process: the first call constructs the one
    collector, and every call returns it. *)
Lemma getInstance_calls_start (n : nat) :
  getInstance_calls (S n) start
  = (replicate (S n) (Some 0), Process empty_heap [Collector false []] (Some 0) false).
Proof.
  change (getInstance_calls (S n) start)
    with (let '(rest, s2) :=
            getInstance_calls n (Process empty_heap [Collector false []] (Some 0) false) in
          (Some 0 :: rest, s2)).
  rewrite (getInstance_calls_set n _ 0) by reflexivity. reflexivity.
Qed.

(** During [runtime] at most one collector exists. *)
Lemma runtime_one_collector (w : work) (sched : list thread) :
  length (objects (proc (runtime w sched start))) <= 1.
Proof.
  pose proof (inv_runtime w sched) as [L _ _ _ _ _]. unfold inv_locks in L.
  destruct (garbageCollectionThread (runtime w sched start)).
  - destruct L as [_ [(-> & _)|(l & -> & _)]]; simpl; lia.
  - destruct L as [_ [(-> & _)|(l & -> & _)]]; simpl; lia.
  - destruct L as (_ & _ & _ & l & -> & _). simpl. lia.
  - destruct L as [_ [(-> & _)|(l & -> & _)]]; simpl; lia.
Qed.

(** ** When [runtime] returns *)

Lemma sweeper_keeps_caller (w : work) (c : config) :
  caller (step w SweeperThread c) = caller c
  /\ vars (step w SweeperThread c) = vars c
  /\ gcStopSignal (step w SweeperThread c) = gcStopSignal c.
Proof.
  unfold step, sweeper_step. repeat case_match; auto.
Qed.

Lemma caller_step_op (w : work) (c : config) (o : op) (rest : list op) :
  inv_locks c -> caller c = InFunction (o :: rest) -> garbageCollectionThread c = Waiting ->
  caller (step w CallerThread c) = InFunction rest
  /\ garbageCollectionThread (step w CallerThread c) = Waiting.
Proof.
  intros L Hc Hs. destruct c as [[h objs inst cv] vs stop cpc spc tr].
  simpl in Hc, Hs. subst. unfold inv_locks in L. simpl in L. destruct L as [-> Ok].
  unfold step, caller_step. cbn [caller]. destruct o as [p|i|i].
  - unfold do_op. cbn [proc].
    rewrite (getInstance_ok false _ Ok), (call_alloc p _ Ok). simpl. auto.
  - simpl. auto.
  - simpl. auto.
Qed.

Lemma caller_runs_body (w : work) (rest : list op) (c : config) :
  inv w c -> caller c = InFunction rest -> garbageCollectionThread c = Waiting ->
  inv w (run w (replicate (length rest) CallerThread) c)
  /\ caller (run w (replicate (length rest) CallerThread) c) = InFunction []
  /\ garbageCollectionThread (run w (replicate (length rest) CallerThread) c) = Waiting.
Proof.
  revert c. induction rest as [|o rest IH]; intros c I Hc Hs.
  - auto.
  - destruct (caller_step_op w c o rest (inv_l _ _ I) Hc Hs) as [Hc' Hs'].
    cbn [length replicate]. rewrite run_cons.
    apply IH; [apply inv_step, I|exact Hc'|exact Hs'].
Qed.

Lemma caller_signals (w : work) (c : config) :
  inv_locks c -> caller c = InFunction [] -> garbageCollectionThread c = Waiting ->
  caller (step w CallerThread (step w CallerThread c)) = Join (status w)
  /\ garbageCollectionThread (step w CallerThread (step w CallerThread c)) = Waiting
  /\ gcStopSignal (step w CallerThread (step w CallerThread c)) = true
  /\ vars (step w CallerThread (step w CallerThread c)) = vars c.
Proof.
  intros L Hc Hs. destruct c as [[h objs inst cv] vs stop cpc spc tr].
  simpl in Hc, Hs. subst. unfold inv_locks in L. simpl in L. destruct L as [-> Ok].
  simpl. auto.
Qed.

Lemma sweeper_leaves (w : work) (c : config) (b : bool) :
  inv_locks c -> garbageCollectionThread c = Collecting b 0 0 -> tracked (proc c) = [] ->
  garbageCollectionThread (step w SweeperThread c) = if b then Exited else Waiting.
Proof.
  intros L Hs Ht. destruct c as [[h objs inst cv] vs stop cpc spc tr].
  simpl in Hs, Ht. subst. unfold inv_locks in L. simpl in L.
  destruct L as (-> & _ & _ & l & -> & ->). rewrite tracked_explicit in Ht. subst l.
  unfold step, sweeper_step. cbn [garbageCollectionThread proc objects store].
  cbn [lookup list_lookup]. rewrite collect_iter_end by reflexivity. reflexivity.
Qed.

Lemma sweeper_evicts (w : work) (c : config) (b : bool) (bk : nat) (cb : ctrl)
      (l : list shared_ptr) :
  inv_locks c -> garbageCollectionThread c = Collecting b 0 0 -> tracked (proc c) = Some bk :: l ->
  blocks (store (proc c)) !! bk = Some cb -> use_count cb = 1 ->
  garbageCollectionThread (step w SweeperThread c) = Collecting b 0 0
  /\ tracked (proc (step w SweeperThread c)) = l.
Proof.
  intros L Hs Ht Hb Hu. destruct c as [[h objs inst cv] vs stop cpc spc tr].
  simpl in Hs, Ht, Hb. subst. unfold inv_locks in L. simpl in L.
  destruct L as (-> & _ & _ & l' & -> & ->). rewrite tracked_explicit in Ht. subst l'.
  unfold step, sweeper_step. cbn [garbageCollectionThread proc objects store].
  cbn [lookup list_lookup].
  rewrite (collect_iter_unique _ 0 (Some bk)); [simpl; auto|reflexivity|].
  unfold unique, sp_use_count. cbn [mem]. rewrite Hb. simpl. rewrite Hu. reflexivity.
Qed.

Lemma sweep_to_exit (w : work) (n : nat) (c : config) :
  inv w c -> garbageCollectionThread c = Collecting true 0 0 ->
  Forall (fun sp => sp = None) (vars c) ->
  length (tracked (proc c)) = n ->
  garbageCollectionThread (run w (replicate (S n) SweeperThread) c) = Exited
  /\ caller (run w (replicate (S n) SweeperThread) c) = caller c.
Proof.
  revert c. induction n as [|n IH]; intros c I Hs Hv Hn.
  - cbn [replicate]. rewrite run_cons. change (run w [] ?x) with x.
    destruct (tracked (proc c)) eqn:Ht; [|discriminate].
    split; [|apply sweeper_keeps_caller].
    apply (sweeper_leaves w c true (inv_l _ _ I) Hs Ht).
  - destruct (tracked (proc c)) as [|[bk|] l] eqn:Ht; [discriminate| |].
    + pose proof (inv_n _ _ I) as (N1 & N2 & N3 & N4).
      destruct (blocks (store (proc c)) !! bk) as [cb|] eqn:Eb.
      * destruct (N2 bk cb Eb) as [_ K].
        assert (occ bk (vars c) = 0) as Hz.
        { apply occ_zero. intros Hin. rewrite Forall_forall in Hv.
          apply Hv in Hin. discriminate. }
        destruct (sweeper_evicts w c true bk cb l (inv_l _ _ I) Hs Ht Eb) as [Hs' Ht'];
          [lia|].
        destruct (sweeper_keeps_caller w c) as (Hc' & Hv' & _).
        change (replicate (S (S n)) SweeperThread)
          with (SweeperThread :: replicate (S n) SweeperThread).
        rewrite run_cons.
        destruct (IH (step w SweeperThread c)) as [R1 R2].
        -- apply inv_step, I.
        -- exact Hs'.
        -- rewrite Hv'. exact Hv.
        -- rewrite Ht'. simpl in Hn. lia.
        -- split; [exact R1|]. rewrite R2. exact Hc'.
      * exfalso. destruct (N3 bk Eb) as [K _]. apply K. rewrite Ht.
        apply list_elem_of_here.
    + exfalso. apply (inv_e _ _ I). rewrite Ht. apply list_elem_of_here.
Qed.

Lemma caller_joins (w : work) (c : config) (code : Z) :
  caller c = Join code -> garbageCollectionThread c = Exited ->
  result (step w CallerThread c) = Some code.
Proof.
  intros Hc Hs. destruct c as [s vs stop cpc spc tr]. simpl in Hc, Hs. subst.
  reflexivity.
Qed.

Lemma caller_first_split (w : work) (n : nat) :
  caller_first w (S (S (S n))) =
  replicate (length (body w)) CallerThread
  ++ [CallerThread; CallerThread]
  ++ [SweeperThread; SweeperThread]
  ++ replicate (S n) SweeperThread ++ [CallerThread].
Proof.
  unfold caller_first. rewrite replicate_add, <- app_assoc. reflexivity.
Qed.

(** If the unit of work has given up every handle it made, then
    [runtime] returns its status when the caller is run first. *)
Lemma runtime_returns_released (w : work) :
  Forall (fun sp => sp = None) (snd (handles (body w))) ->
  exists n, result (runtime w (caller_first w n) start) = Some (status w).
Proof.
  intros Hv.
  destruct (caller_runs_body w (body w) (runtime_begin w start) (inv_begin w))
    as (I1 & Hc1 & Hs1); [reflexivity|reflexivity|].
  set (c1 := run w (replicate (length (body w)) CallerThread) (runtime_begin w start)) in *.
  assert (vars c1 = snd (handles (body w))) as Hv1.
  { destruct (inv_d _ _ I1) as (done & D1 & D2 & _). rewrite Hc1 in D1. simpl in D1.
    rewrite app_nil_r in D1. rewrite D1, D2. reflexivity. }
  destruct (caller_signals w c1 (inv_l _ _ I1) Hc1 Hs1) as (Hc2 & Hs2 & Hstop2 & Hv2).
  set (c2 := step w CallerThread (step w CallerThread c1)) in *.
  assert (inv w c2) as I2 by (apply inv_step, inv_step, I1).
  pose proof (final_sweep_begins w c2 I2 Hstop2 Hs2) as Hs3.
  set (c3 := step w SweeperThread (step w SweeperThread c2)) in *.
  assert (inv w c3) as I3 by (apply inv_step, inv_step, I2).
  assert (caller c3 = Join (status w) /\ vars c3 = vars c1) as [Hc3 Hv3].
  { unfold c3.
    destruct (sweeper_keeps_caller w (step w SweeperThread c2)) as (-> & -> & _).
    destruct (sweeper_keeps_caller w c2) as (-> & -> & _). auto. }
  destruct (sweep_to_exit w (length (tracked (proc c3))) c3 I3 Hs3) as [Hs4 Hc4];
    [rewrite Hv3, Hv1; exact Hv|reflexivity|].
  exists (S (S (S (length (tracked (proc c3)))))).
  rewrite caller_first_split. unfold runtime. rewrite !run_app.
  fold c1. change (run w [CallerThread; CallerThread] c1) with c2.
  change (run w [SweeperThread; SweeperThread] c2) with c3.
  apply caller_joins; [rewrite Hc4; exact Hc3|exact Hs4].
Qed.

(** For a unit of work on handle variables, whose objects hold no
    handles: [runtime] can return, and then returns the status of the
    unit of work, exactly when the unit of work gives up every handle
    it makes. *)
Lemma runtime_returns_iff (w : work) :
  (exists sched, result (runtime w sched start) = Some (status w))
  <-> Forall (fun sp => sp = None) (snd (handles (body w))).
Proof.
  split.
  - intros [sched R]. eapply runtime_returns_only_released, R.
  - intros Hv. destruct (runtime_returns_released w Hv) as [n R]. eauto.
Qed.

(** Giving up every handle is not enough under every schedule: a sweep
    that begins while the caller holds a handle keeps [_mutex], the next
    [gc] of the caller waits for it, and neither thread moves again. *)
Lemma runtime_deadlock_gc_during_sweep (p q : raw) (code : Z) (sched : list thread) :
  runtime (Work [Gc p; Gc q; Reset 0; Reset 1] code)
          ([CallerThread; SweeperThread; SweeperThread] ++ sched) start
  = Config (Process (Heap {[0 := Ctrl p 2]} 1 []) [Collector true [Some 0]] (Some 0) true)
           [Some 0] false (InFunction [Gc q; Reset 0; Reset 1])
           (Collecting false 0 0) [SweepBegin].
Proof.
  rewrite runtime_app. apply fold_step_fixed. intros [|]; reflexivity.
Qed.

(** ** [getInstance] from several threads *)

(** ** The final sweep when a handle is kept *)

(** Once the stop flag is set, the collection thread is not in a sweep
    or past a wake-up that did not see it. *)
Lemma inv_stop_moves (w : work) (c c' : config) :
  inv_locks c -> inv_stop c -> moves w c c' -> inv_stop c'.
Proof.
  intros L S M. unfold inv_stop, inv_locks in *.
  destruct M as [|p rest Hc Hs h|i rest Hc|i rest Hc|Hc|code Hc Hcv|code Hc Hs
                 |Hs|b Hs|b bk cb l Hs Ht Hb Hu h|b Hs Ht];
    cbn [gcStopSignal garbageCollectionThread].
  - exact S.
  - exact S.
  - exact S.
  - exact S.
  - exact S.
  - intros _. destruct (garbageCollectionThread c); try exact I;
      destruct L as [L _]; congruence.
  - exact S.
  - intros H. exact H.
  - rewrite Hs in S. exact S.
  - rewrite Hs in S. exact S.
  - destruct b; intros; exact I.
Qed.

Lemma inv_stop_runtime (w : work) (sched : list thread) :
  inv_stop (runtime w sched start).
Proof.
  unfold runtime. generalize (inv_begin w).
  assert (inv_stop (runtime_begin w start)) as S0 by (intros H; discriminate H).
  revert S0. generalize (runtime_begin w start).
  induction sched as [|t sched IH]; intros c S I; [exact S|].
  rewrite run_cons. apply IH; [|apply inv_step, I].
  eapply inv_stop_moves; [apply (inv_l _ _ I)|exact S|].
  apply step_moves, (inv_l _ _ I).
Qed.

Lemma after_stop_app (tr ev : list event) :
  after_stop (tr ++ ev)
  = match after_stop tr with
    | Some post => Some (post ++ ev)
    | None => after_stop ev
    end.
Proof.
  induction tr as [|e tr IH]; [reflexivity|].
  destruct e; cbn [after_stop app]; try exact IH. reflexivity.
Qed.

Lemma inv_last_moves (w : work) (c c' : config) :
  inv_locks c -> inv_control w c -> inv_stop c -> inv_last c ->
  moves w c c' -> inv_last c'.
Proof.
  intros L [C _] St La M. unfold inv_last, inv_stop in *.
  destruct M as [|p rest Hc Hs h|i rest Hc|i rest Hc|Hc|code Hc Hcv|code Hc Hs
                 |Hs|b Hs|b bk cb l Hs Ht Hb Hu h|b Hs Ht];
    cbn [trace gcStopSignal garbageCollectionThread]; rewrite ?after_stop_app.
  - exact La.
  - exact La.
  - exact La.
  - exact La.
  - exact La.
  - rewrite Hc in C. destruct C as [C _].
    destruct (after_stop (trace c)) as [post|]; [destruct La; congruence|].
    cbn [after_stop]. split; [reflexivity|].
    intros [H|H]; inversion H.
  - destruct (after_stop (trace c)) as [post|]; [|exact La].
    destruct La as [La1 La2]. split; [exact La1|]. intros _. exact Hs.
  - destruct (after_stop (trace c)) as [post|]; [|exact La].
    destruct La as [La1 La2]. split; [exact La1|]. intros H.
    specialize (La2 H). congruence.
  - destruct (after_stop (trace c)) as [post|]; [|exact La].
    destruct La as [La1 La2]. split; [exact La1|]. intros H.
    assert (garbageCollectionThread c = Exited) as Hx; [|congruence].
    apply La2. destruct H as [H|H]; apply elem_of_app in H as [H|H]; auto;
      apply list_elem_of_singleton in H; discriminate.
  - destruct (after_stop (trace c)) as [post|]; [|exact La].
    destruct La as [La1 La2]. split; [exact La1|]. intros H.
    specialize (La2 H). congruence.
  - destruct (after_stop (trace c)) as [post|].
    + destruct La as [La1 La2]. split; [exact La1|]. intros _.
      rewrite Hs in St. rewrite (St La1). reflexivity.
    + destruct b; exact La.
Qed.

Lemma inv_last_runtime (w : work) (sched : list thread) :
  inv_last (runtime w sched start).
Proof.
  unfold runtime. generalize (inv_begin w).
  assert (inv_stop (runtime_begin w start)) as S0 by (intros H; discriminate H).
  assert (inv_last (runtime_begin w start)) as L0 by reflexivity.
  revert S0 L0. generalize (runtime_begin w start).
  induction sched as [|t sched IH]; intros c St La I; [exact La|].
  rewrite run_cons. pose proof (step_moves w t c (inv_l _ _ I)) as M.
  apply IH; [|eapply inv_last_moves; eauto using inv_l, inv_c|apply inv_step, I].
  eapply inv_stop_moves; [apply (inv_l _ _ I)|exact St|exact M].
Qed.

Lemma caller_first_two (w : work) :
  caller_first w 2 =
  replicate (length (body w)) CallerThread
  ++ [CallerThread; CallerThread] ++ [SweeperThread; SweeperThread] ++ [CallerThread].
Proof.
  unfold caller_first. rewrite replicate_add, <- app_assoc. reflexivity.
Qed.

(** With a handle kept, the collection thread never leaves its loop. *)
Lemma never_exits_with_kept_handle (w : work) (b : nat) (sched : list thread) :
  Some b ∈ snd (handles (body w)) ->
  garbageCollectionThread (runtime w sched start) <> Exited.
Proof.
  intros Hin Hx. pose proof (inv_runtime w sched) as I.
  set (c := runtime w sched start) in *.
  destruct (inv_c _ _ I) as [C1 C2]. rewrite Hx in C2. destruct C2 as [Hstop Ht].
  destruct (inv_d _ _ I) as (done & D1 & D2 & _).
  assert (rest_of (caller c) = []) as Hr.
  { destruct (caller c) as [rest|code|code|code]; try reflexivity. congruence. }
  rewrite Hr, app_nil_r in D1. subst done. rewrite D2 in Hin. cbn [snd] in Hin.
  destruct (inv_n _ _ I) as (_ & N2 & N3 & _).
  destruct (blocks (store (proc c)) !! b) as [cb|] eqn:Eb.
  - destruct (N2 b cb Eb) as [K _]. rewrite Ht in K. inversion K.
  - destruct (N3 b Eb) as [_ K]. contradiction.
Qed.

(** C5, for every function that leaves a handle in a variable: in the
    execution in which the caller runs first the stop flag is set and
    the collection thread is in the sweep that follows it; and under
    every schedule that sweep does not end: the thread does not leave
    its loop, [runtime] does not return, and among the events after the
    setting of the stop flag there is no end of a sweep and no exit of
    the loop.  The claim has a full sweep between the stop signal and
    the exit of the loop in every execution.  Same defect as C2. *)
Theorem final_sweep_never_ends_with_kept_handle
        (w : work) (b : nat) (sched : list thread) :
  Some b ∈ snd (handles (body w)) ->
  (gcStopSignal (runtime w (caller_first w 2) start) = true
   /\ garbageCollectionThread (runtime w (caller_first w 2) start) = Collecting true 0 0)
  /\ garbageCollectionThread (runtime w sched start) <> Exited
  /\ result (runtime w sched start) = None
  /\ forall post,
       after_stop (trace (runtime w sched start)) = Some post ->
       (SweepEnd ∉ post) /\ (LoopExit ∉ post).
Proof.
  intros Hin. split; [|split; [|split]].
  - destruct (caller_runs_body w (body w) (runtime_begin w start) (inv_begin w))
      as (I1 & Hc1 & Hs1); [reflexivity|reflexivity|].
    set (c1 := run w (replicate (length (body w)) CallerThread) (runtime_begin w start)) in *.
    destruct (caller_signals w c1 (inv_l _ _ I1) Hc1 Hs1) as (Hc2 & Hs2 & Hstop2 & Hv2).
    set (c2 := step w CallerThread (step w CallerThread c1)) in *.
    assert (inv w c2) as I2 by (apply inv_step, inv_step, I1).
    pose proof (final_sweep_begins w c2 I2 Hstop2 Hs2) as Hs3.
    set (c3 := step w SweeperThread (step w SweeperThread c2)) in *.
    assert (caller c3 = Join (status w) /\ gcStopSignal c3 = true) as [Hc3 Hstop3].
    { unfold c3.
      destruct (sweeper_keeps_caller w (step w SweeperThread c2)) as (-> & _ & ->).
      destruct (sweeper_keeps_caller w c2) as (-> & _ & ->). auto. }
    assert (runtime w (caller_first w 2) start = c3) as ->.
    { rewrite caller_first_two. unfold runtime. rewrite !run_app. fold c1.
      change (run w [CallerThread; CallerThread] c1) with c2.
      change (run w [SweeperThread; SweeperThread] c2) with c3.
      change (run w [CallerThread] c3) with (caller_step w c3).
      unfold caller_step. rewrite Hc3, Hs3. reflexivity. }
    split; [exact Hstop3|exact Hs3].
  - apply (never_exits_with_kept_handle w b sched Hin).
  - apply (runtime_hangs_on_kept_handle w b sched Hin).
  - intros post Hp. pose proof (inv_last_runtime w sched) as La.
    unfold inv_last in La. rewrite Hp in La. destruct La as [_ La].
    pose proof (never_exits_with_kept_handle w b sched Hin) as Nx.
    split; intros H; apply Nx, La; auto.
Qed.

Lemma final_sweep_never_ends_with_kept_handle_witness :
  Some 0 ∈ snd (handles (body (keeps_handle 10%Z 0%Z)))
  /\ trace (runtime (keeps_handle 10%Z 0%Z)
                    (caller_first (keeps_handle 10%Z 0%Z) 2 ++ replicate 30 SweeperThread)
                    start)
     = [StopSet; SweepBegin]
  /\ ((gcStopSignal (runtime (keeps_handle 10%Z 0%Z)
                             (caller_first (keeps_handle 10%Z 0%Z) 2) start) = true
       /\ garbageCollectionThread
            (runtime (keeps_handle 10%Z 0%Z) (caller_first (keeps_handle 10%Z 0%Z) 2) start)
          = Collecting true 0 0)
      /\ garbageCollectionThread
           (runtime (keeps_handle 10%Z 0%Z)
                    (caller_first (keeps_handle 10%Z 0%Z) 2 ++ replicate 30 SweeperThread)
                    start) <> Exited
      /\ result (runtime (keeps_handle 10%Z 0%Z)
                         (caller_first (keeps_handle 10%Z 0%Z) 2
                          ++ replicate 30 SweeperThread) start) = None
      /\ forall post,
           after_stop (trace (runtime (keeps_handle 10%Z 0%Z)
                                (caller_first (keeps_handle 10%Z 0%Z) 2
                                 ++ replicate 30 SweeperThread) start)) = Some post ->
           (SweepEnd ∉ post) /\ (LoopExit ∉ post)).
Proof.
  assert (Some 0 ∈ snd (handles (body (keeps_handle 10%Z 0%Z)))) as H
    by (apply (bool_decide_unpack _); vm_compute; reflexivity).
  split; [exact H|]. split; [vm_compute; reflexivity|].
  exact (final_sweep_never_ends_with_kept_handle
           (keeps_handle 10%Z 0%Z) 0
           (caller_first (keeps_handle 10%Z 0%Z) 2 ++ replicate 30 SweeperThread) H).
Defined.

Lemma lookup_insert_cases {A} (l : list A) (i j : nat) (x y : A) :
  <[i := x]> l !! j = Some y -> (j = i /\ y = x) \/ (j <> i /\ l !! j = Some y).
Proof.
  intros H. apply list_lookup_insert_Some in H as [(-> & -> & _)|[Hne H]]; auto.
Qed.

Ltac insert_cases :=
  repeat match goal with
    | H : <[_ := _]> _ !! _ = Some _ |- _ =>
        let E := fresh "Epc" in
        apply lookup_insert_cases in H as [[-> E]|[? H]];
        [match type of E with ?y = _ => first [subst y | idtac] end|]
    end.

Lemma callers_inv_enter (n : nat) : callers_inv (enter n start).
Proof.
  unfold callers_inv, enter. simpl.
  split; [left; auto|].
  split; [intros i j pi pj Hi Hj; apply lookup_replicate in Hi as [-> _];
          discriminate|].
  split; [intros _ i pi Hi; apply lookup_replicate in Hi as [-> _]; reflexivity|].
  split; [intros i Hi; apply lookup_replicate in Hi as [Hi _]; discriminate|].
  split; [intros i [Hi|Hi]; apply lookup_replicate in Hi as [Hi _]; discriminate|].
  intros i r Hi. apply lookup_replicate in Hi as [Hi _]. discriminate.
Qed.

Lemma callers_inv_step (i : nat) (d : callers) :
  callers_inv d -> callers_inv (getInstance_step i d).
Proof.
  intros I. pose proof I as (S0 & Uq & Free & Cn & Un & Gt). unfold getInstance_step.
  destruct (pcs d !! i) as [pc|] eqn:Ei; [|exact I].
  assert (forall a, _instance (shared d) = Some a -> a = 0) as Zero
    by (intros a E; destruct S0 as [[_ E']|(g & _ & E')]; congruence).
  destruct pc; try exact I.
  - (* the unsynchronised test *)
    unfold callers_inv. simpl. split; [exact S0|].
    split; [|split; [|split; [|split]]].
    + intros j k pj pk Hj Hk Lj Lk. insert_cases; try reflexivity; eauto;
        destruct (_instance (shared d)); discriminate.
    + intros Hm j pj Hj. insert_cases; eauto.
      destruct (_instance (shared d)); reflexivity.
    + intros j Hj. insert_cases; eauto.
      destruct (_instance (shared d)); discriminate.
    + intros j [Hj|Hj]; insert_cases; eauto.
      * destruct (_instance (shared d)); discriminate.
      * destruct (_instance (shared d)) as [a|] eqn:E; [|discriminate].
        rewrite (Zero a eq_refl). reflexivity.
    + intros j r Hj. insert_cases; eauto.
      destruct (_instance (shared d)); discriminate.
  - (* taking the mutex *)
    destruct (_globalMutex d) eqn:Em; [exact I|].
    unfold callers_inv. simpl. split; [exact S0|].
    split; [|split; [|split; [|split]]].
    + intros j k pj pk Hj Hk Lj Lk. insert_cases; try reflexivity; eauto.
      * rewrite (Free eq_refl _ _ Hj) in Lj. discriminate.
      * rewrite (Free eq_refl _ _ Hk) in Lk. discriminate.
    + discriminate.
    + intros j Hj. insert_cases; eauto. discriminate.
    + intros j [Hj|Hj]; insert_cases; eauto; discriminate.
    + intros j r Hj. insert_cases; eauto. discriminate.
  - (* the second test *)
    unfold callers_inv. simpl. split; [exact S0|].
    split; [|split; [|split; [|split]]].
    + intros j k pj pk Hj Hk Lj Lk. insert_cases; try reflexivity; eauto;
        solve [symmetry; eapply (Uq _ i); eauto | eapply (Uq _ i); eauto].
    + intros Hm j pj Hj. specialize (Free Hm i _ Ei). discriminate.
    + intros j Hj. insert_cases; eauto.
      destruct (_instance (shared d)); [discriminate|reflexivity].
    + intros j [Hj|Hj]; insert_cases; eauto.
      * destruct (_instance (shared d)) as [a|] eqn:E; [|discriminate].
        rewrite (Zero a eq_refl). reflexivity.
      * destruct (_instance (shared d)); discriminate.
    + intros j r Hj. insert_cases; eauto.
      destruct (_instance (shared d)); discriminate.
  - (* the construction *)
    pose proof (Cn i Ei) as En.
    destruct S0 as [[Eo _]|(g & _ & E)]; [|congruence].
    unfold callers_inv, new_GarbageCollector, set_instance. simpl. rewrite Eo. simpl.
    split; [right; eauto|].
    split; [|split; [|split; [|split]]].
    + intros j k pj pk Hj Hk Lj Lk. insert_cases; try reflexivity; eauto;
        solve [symmetry; eapply (Uq _ i); eauto | eapply (Uq _ i); eauto].
    + intros Hm j pj Hj. specialize (Free Hm i _ Ei). discriminate.
    + intros j Hj. insert_cases; [discriminate|].
      assert (j = i) by (eapply (Uq j i); eauto). contradiction.
    + reflexivity.
    + intros j r Hj. insert_cases; eauto. discriminate.
  - (* leaving the guarded block *)
    unfold callers_inv. simpl. split; [exact S0|].
    split; [|split; [|split; [|split]]].
    + intros j k pj pk Hj Hk Lj Lk. insert_cases; try discriminate. eauto.
    + intros _ j pj Hj. insert_cases; [reflexivity|].
      destruct (holds_lock pj) eqn:Lj; [|reflexivity].
      assert (j = i) by (eapply (Uq j i); eauto). contradiction.
    + intros j Hj. insert_cases; eauto. discriminate.
    + intros j _. apply (Un i). left. exact Ei.
    + intros j r Hj. insert_cases; eauto. discriminate.
  - (* the return *)
    unfold callers_inv. simpl. split; [exact S0|].
    split; [|split; [|split; [|split]]].
    + intros j k pj pk Hj Hk Lj Lk. insert_cases; try discriminate. eauto.
    + intros Hm j pj Hj. insert_cases; eauto.
    + intros j Hj. insert_cases; eauto. discriminate.
    + intros j [Hj|Hj]; insert_cases; eauto; discriminate.
    + intros j r Hj. insert_cases; eauto.
      match goal with H : Got _ = Got _ |- _ => injection H as -> end.
      apply (Un i). right. exact Ei.
Qed.

(** However [n] threads interleave inside [getInstance()] on a process
    without an instance, at most one collector is constructed and every
    thread that returns has the one at address 0. *)
Lemma getInstance_concurrent_once (n : nat) (sched : list nat) :
  length (objects (shared (getInstance_run sched (enter n start)))) <= 1
  /\ forall i r, pcs (getInstance_run sched (enter n start)) !! i = Some (Got r) ->
                 r = Some 0.
Proof.
  assert (callers_inv (getInstance_run sched (enter n start))) as I.
  { unfold getInstance_run. generalize (callers_inv_enter n).
    generalize (enter n start). induction sched as [|i sched IH]; intros d Hd; simpl.
    - exact Hd.
    - apply IH, callers_inv_step, Hd. }
  destruct I as (S0 & _ & _ & _ & _ & Gt). split; [|exact Gt].
  destruct S0 as [[-> _]|(g & -> & _)]; simpl; lia.
Qed.

(** A thread that runs through [getInstance()] without interference
    does what the function does in one piece. *)
Lemma getInstance_alone (s : process) :
  getInstance_run [0; 0; 0; 0; 0; 0] (enter 1 s)
  = Callers (snd (getInstance s)) false [Got (fst (getInstance s))].
Proof.
  unfold getInstance. destruct s as [h objs [a|] cv]; reflexivity.
Qed.

(** * Objects that hold handles *)

(** ** The cascade of releases *)

Lemma weight_delete (m : gmap raw (list shared_ptr)) (p : raw) :
  Members.weight m = length (Members.held m p) + Members.weight (delete p m).
Proof.
  unfold Members.weight, Members.held. destruct (m !! p) as [l|] eqn:E; simpl.
  - rewrite (map_fold_delete_L _ _ p l m); [reflexivity| |exact E]. intros; lia.
  - rewrite delete_id by exact E. reflexivity.
Qed.

Lemma inner_delete (m : gmap raw (list shared_ptr)) (p : raw) (b : nat) :
  Members.inner m b = occ b (Members.held m p) + Members.inner (delete p m) b.
Proof.
  unfold Members.inner, Members.held. destruct (m !! p) as [l|] eqn:E; simpl.
  - rewrite (map_fold_delete_L _ _ p l m); [reflexivity| |exact E]. intros; lia.
  - rewrite delete_id by exact E. reflexivity.
Qed.

Lemma inner_empty (b : nat) : Members.inner ∅ b = 0.
Proof. unfold Members.inner. apply map_fold_empty. Qed.

(** With fuel for every pending and every held handle, the cascade
    comes to its end, and more fuel changes nothing. *)
Lemma release_all_enough (f1 f2 : nat) (todo : list shared_ptr) (h : heap)
      (m : gmap raw (list shared_ptr)) :
  length todo + Members.weight m <= f1 ->
  length todo + Members.weight m <= f2 ->
  Members.release_all f1 todo h m = Members.release_all f2 todo h m.
Proof.
  revert f2 todo h m. induction f1 as [|f1 IH]; intros f2 todo h m H1 H2.
  - destruct todo; [|simpl in H1; lia]. destruct f2; reflexivity.
  - destruct f2 as [|f2]; [destruct todo; [reflexivity|simpl in H2; lia]|].
    destruct todo as [|sp rest]; [reflexivity|].
    cbn [Members.release_all length] in *.
    destruct (sp ≫= fun b => blocks h !! b) as [c|]; [|apply IH; lia].
    pose proof (weight_delete m (managed c)) as W.
    destruct (Nat.eqb (Nat.pred (use_count c)) 0).
    + apply IH; rewrite length_app; lia.
    + apply IH; lia.
Qed.

Lemma release_enough (fuel : nat) (todo : list shared_ptr) (h : heap)
      (m : gmap raw (list shared_ptr)) :
  length todo + Members.weight m <= fuel ->
  Members.release_all fuel todo h m = Members.release todo h m.
Proof. intros H. apply release_all_enough; [exact H|reflexivity]. Qed.

(** A cascade keeps the books: what it takes from the count of a group
    it takes from the pending handles or from the objects it destroys.
    It destroys no group that the list or a variable owns, changes
    the object of no group, and makes no block. *)
Lemma release_all_balanced (reg : list shared_ptr) (outside : nat -> nat)
      (fuel : nat) (todo : list shared_ptr) (h : heap)
      (m : gmap raw (list shared_ptr)) (h' : heap) (m' : gmap raw (list shared_ptr)) :
  length todo + Members.weight m <= fuel ->
  Members.balanced reg outside todo h m ->
  Members.release_all fuel todo h m = (h', m') ->
  Members.balanced reg outside [] h' m'
  /\ (forall b c', blocks h' !! b = Some c' ->
                   exists c, blocks h !! b = Some c /\ managed c = managed c'
                             /\ use_count c' <= use_count c)
  /\ (forall b c, blocks h !! b = Some c -> blocks h' !! b = None ->
                  occ b reg + outside b = 0)
  /\ fresh_block h' = fresh_block h
  /\ exists d, deleted h' = deleted h ++ d
               /\ forall p, p ∈ d ->
                            exists b c, blocks h !! b = Some c /\ managed c = p
                                        /\ blocks h' !! b = None.
Proof.
  revert todo h m. induction fuel as [|fuel IH]; intros todo h m Hf Hb R.
  - destruct todo; [|simpl in Hf; lia]. injection R as <- <-.
    split; [exact Hb|]. split; [eauto|]. split; [intros b c H1 H2; congruence|].
    split; [reflexivity|]. exists []. rewrite app_nil_r. split; [reflexivity|].
    intros p Hp. inversion Hp.
  - destruct todo as [|sp rest].
    { injection R as <- <-.
      split; [exact Hb|]. split; [eauto|]. split; [intros b c H1 H2; congruence|].
      split; [reflexivity|]. exists []. rewrite app_nil_r. split; [reflexivity|].
      intros p Hp. inversion Hp. }
    cbn [Members.release_all length] in *.
    destruct sp as [b1|]; cbn [mbind option_bind] in R.
    2:{ apply (IH rest h m); [lia| |exact R].
        intros b c Hc. rewrite (Hb b c Hc), occ_cons_ne by discriminate. reflexivity. }
    destruct (blocks h !! b1) as [c1|] eqn:E1.
    2:{ apply (IH rest h m); [lia| |exact R].
        intros b c Hc. rewrite (Hb b c Hc), occ_cons_ne by congruence. reflexivity. }
    pose proof (Hb b1 c1 E1) as H1. rewrite occ_cons_eq in H1.
    pose proof (weight_delete m (managed c1)) as W.
    destruct (Nat.eqb (Nat.pred (use_count c1)) 0) eqn:Ez.
    + (* the last owner: the object is destroyed *)
      apply Nat.eqb_eq in Ez.
      rewrite (sp_release_last h b1 c1 E1) in R by lia.
      assert (length (Members.held m (managed c1) ++ rest)
              + Members.weight (delete (managed c1) m) <= fuel) as Hf'
        by (rewrite length_app; lia).
      assert (Members.balanced reg outside (Members.held m (managed c1) ++ rest)
                (Heap (delete b1 (blocks h)) (fresh_block h) (deleted h ++ [managed c1]))
                (delete (managed c1) m)) as Hb'.
      { intros b c Hc. cbn [blocks] in Hc.
        apply lookup_delete_Some in Hc as [Hne Hc].
        rewrite (Hb b c Hc), occ_cons_ne by congruence.
        rewrite (inner_delete m (managed c1) b), occ_app. lia. }
      destruct (IH _ _ _ Hf' Hb' R) as (K1 & K2 & K3 & K4 & d & K5 & K6).
      cbn [blocks fresh_block deleted] in *.
      assert (blocks h' !! b1 = None) as Hd.
      { destruct (blocks h' !! b1) as [c'|] eqn:E'; [|reflexivity].
        destruct (K2 b1 c' E') as (c & Hc & _).
        rewrite lookup_delete_eq in Hc. discriminate. }
      split; [exact K1|]. split; [|split; [|split; [exact K4|]]].
      * intros b c' Hc'. destruct (K2 b c' Hc') as (c & Hc & Hm & Hu).
        apply lookup_delete_Some in Hc as [_ Hc]. eauto.
      * intros b c Hc Hn. destruct (decide (b = b1)) as [->|Hne]; [lia|].
        apply (K3 b c); [|exact Hn]. rewrite lookup_delete_ne by congruence. exact Hc.
      * exists (managed c1 :: d). rewrite K5, <- app_assoc. split; [reflexivity|].
        intros p Hp. apply elem_of_cons in Hp as [->|Hp]; [eauto|].
        destruct (K6 p Hp) as (b & c & Hc & Hm & Hn).
        apply lookup_delete_Some in Hc as [_ Hc]. eauto.
    + (* another owner is left *)
      apply Nat.eqb_neq in Ez.
      rewrite (sp_release_shared h b1 c1 E1) in R by lia.
      assert (length rest + Members.weight m <= fuel) as Hf' by lia.
      assert (Members.balanced reg outside rest
                (Heap (<[b1 := Ctrl (managed c1) (Nat.pred (use_count c1))]> (blocks h))
                      (fresh_block h) (deleted h)) m) as Hb'.
      { intros b c Hc. cbn [blocks] in Hc.
        apply lookup_insert_Some in Hc as [[<- <-]|[Hne Hc]].
        - cbn [use_count]. lia.
        - rewrite (Hb b c Hc), occ_cons_ne by congruence. reflexivity. }
      destruct (IH _ _ _ Hf' Hb' R) as (K1 & K2 & K3 & K4 & d & K5 & K6).
      cbn [blocks fresh_block deleted] in *.
      assert (forall b c, blocks h !! b = Some c ->
                exists c0, <[b1 := Ctrl (managed c1) (Nat.pred (use_count c1))]> (blocks h)
                           !! b = Some c0 /\ managed c0 = managed c) as Up.
      { intros b c Hc. destruct (decide (b = b1)) as [->|Hne].
        - rewrite lookup_insert_eq. rewrite E1 in Hc. injection Hc as <-. eauto.
        - rewrite lookup_insert_ne by congruence. eauto. }
      split; [exact K1|]. split; [|split; [|split; [exact K4|]]].
      * intros b c' Hc'. destruct (K2 b c' Hc') as (c & Hc & Hm & Hu).
        apply lookup_insert_Some in Hc as [[<- <-]|[Hne Hc]]; [|eauto].
        exists c1. cbn [managed use_count] in *. split; [exact E1|]. split; [exact Hm|lia].
      * intros b c Hc Hn. destruct (Up b c Hc) as (c0 & Hc0 & _). eauto.
      * exists d. split; [exact K5|]. intros p Hp.
        destruct (K6 p Hp) as (b & c & Hc & Hm & Hn).
        apply lookup_insert_Some in Hc as [[<- <-]|[Hne Hc]]; eauto.
Qed.

(** The log and the allocator in a cascade, whatever the counts are. *)
Lemma release_all_log (fuel : nat) (todo : list shared_ptr) (h : heap)
      (m : gmap raw (list shared_ptr)) :
  fresh_block (fst (Members.release_all fuel todo h m)) = fresh_block h
  /\ deleted h `prefix_of` deleted (fst (Members.release_all fuel todo h m)).
Proof.
  revert todo h m. induction fuel as [|fuel IH]; intros todo h m; [split; reflexivity|].
  destruct todo as [|sp rest]; [split; reflexivity|]. cbn [Members.release_all].
  destruct sp as [b1|]; cbn [mbind option_bind]; [|apply IH].
  destruct (blocks h !! b1) as [c1|] eqn:E1; [|apply IH].
  assert (fresh_block (sp_release (Some b1) h) = fresh_block h
          /\ deleted h `prefix_of` deleted (sp_release (Some b1) h)) as [F D].
  { split; [apply sp_release_fresh|]. unfold sp_release. rewrite E1.
    destruct (Nat.eqb _ 0); cbn [deleted]; [apply prefix_app_r|]; reflexivity. }
  destruct (Nat.eqb (Nat.pred (use_count c1)) 0).
  - destruct (IH (Members.held m (managed c1) ++ rest) (sp_release (Some b1) h)
                 (delete (managed c1) m)) as [K1 K2].
    split; [congruence|]. etransitivity; eassumption.
  - destruct (IH rest (sp_release (Some b1) h) m) as [K1 K2].
    split; [congruence|]. etransitivity; eassumption.
Qed.

(** The release of the last owner logs the object of the group
    first. *)
Lemma release_last_log (b : nat) (c : ctrl) (h : heap) (m : gmap raw (list shared_ptr)) :
  blocks h !! b = Some c -> use_count c = 1 ->
  (deleted h ++ [managed c])
    `prefix_of` deleted (fst (Members.release [Some b] h m))
  /\ blocks (fst (Members.release [Some b] h m)) !! b = None.
Proof.
  intros E U. unfold Members.release. cbn [length Nat.add Members.release_all].
  cbn [mbind option_bind]. rewrite E, U. cbn [Nat.pred Nat.eqb].
  rewrite (sp_release_last h b c E U).
  split; [apply release_all_log|].
  set (h1 := Heap _ _ _).
  assert (blocks h1 !! b = None) as N by apply lookup_delete_eq.
  clearbody h1. revert N. generalize (Members.held m (managed c) ++ []).
  generalize (delete (managed c) m). generalize (Members.weight m).
  intros fuel. revert h1. induction fuel as [|fuel IH]; intros h1 m1 todo N; [exact N|].
  destruct todo as [|sp rest]; [exact N|]. cbn [Members.release_all].
  destruct sp as [b1|]; cbn [mbind option_bind]; [|apply IH, N].
  destruct (blocks h1 !! b1) as [c1|] eqn:E1; [|apply IH, N].
  assert (blocks (sp_release (Some b1) h1) !! b = None) as N'
    by (apply sp_release_blocks_None, N).
  destruct (Nat.eqb (Nat.pred (use_count c1)) 0); apply IH, N'.
Qed.

(** ** The loop of [collect] over objects that hold handles *)

Lemma members_collect_iter_end (s : Members.state) (it : nat) :
  registry (Members.flat s) !! it = None ->
  Members.collect_iter s it = Members.Leave s.
Proof. intros E. unfold Members.collect_iter. rewrite E. reflexivity. Qed.

Lemma members_collect_iter_shared (s : Members.state) (it : nat) (sp : shared_ptr) :
  registry (Members.flat s) !! it = Some sp ->
  unique (mem (Members.flat s)) sp = false ->
  Members.collect_iter s it = Members.Again s it.
Proof. intros E U. unfold Members.collect_iter. rewrite E, U. reflexivity. Qed.

Lemma members_collect_iter_unique (s : Members.state) (it : nat) (sp : shared_ptr) :
  registry (Members.flat s) !! it = Some sp ->
  unique (mem (Members.flat s)) sp = true ->
  Members.collect_iter s it
  = Members.Again
      (Members.State
         (World (fst (Members.release [sp] (mem (Members.flat s)) (Members.members s)))
                (Collector (_mutex (gc (Members.flat s)))
                           (delete it (registry (Members.flat s)))))
         (snd (Members.release [sp] (mem (Members.flat s)) (Members.members s))))
      it.
Proof.
  intros E U. unfold Members.collect_iter. rewrite E, U.
  unfold Members.erase, Members.assign_nullptr, erase, with_pointers. rewrite E.
  destruct (Members.release [sp] (mem (Members.flat s)) (Members.members s)) as [h' m'].
  cbn [Members.flat Members.members mem gc _mutex fst snd].
  unfold registry at 1. cbn [gc _pointers]. rewrite delete_insert_same. reflexivity.
Qed.

Lemma members_collect_iter_cases (s : Members.state) (it : nat) :
  (registry (Members.flat s) !! it = None /\ Members.collect_iter s it = Members.Leave s)
  \/ (exists sp, registry (Members.flat s) !! it = Some sp
                 /\ unique (mem (Members.flat s)) sp = false
                 /\ Members.collect_iter s it = Members.Again s it)
  \/ (exists b c, registry (Members.flat s) !! it = Some (Some b)
                  /\ blocks (mem (Members.flat s)) !! b = Some c /\ use_count c = 1
                  /\ Members.collect_iter s it
                     = Members.Again
                         (Members.State
                            (World (fst (Members.release [Some b] (mem (Members.flat s))
                                                         (Members.members s)))
                                   (Collector (_mutex (gc (Members.flat s)))
                                              (delete it (registry (Members.flat s)))))
                            (snd (Members.release [Some b] (mem (Members.flat s))
                                                  (Members.members s))))
                         it).
Proof.
  destruct (registry (Members.flat s) !! it) as [sp|] eqn:E.
  - destruct (unique (mem (Members.flat s)) sp) eqn:U.
    + right. right. destruct (unique_true _ _ U) as (b & c & -> & Eb & Hc).
      exists b, c. split; [reflexivity|]. split; [exact Eb|]. split; [exact Hc|].
      apply (members_collect_iter_unique s it (Some b)); assumption.
    + right. left. exists sp. split; [reflexivity|]. split; [exact U|].
      apply (members_collect_iter_shared s it sp); assumption.
  - left. split; [reflexivity|]. apply members_collect_iter_end, E.
Qed.

(** Where no object holds a handle, the cascade is the one release and
    the loop is the loop of the collector over opaque objects. *)
Lemma release_no_members (sp : shared_ptr) (h : heap) :
  Members.release [sp] h ∅ = (sp_release sp h, ∅).
Proof.
  unfold Members.release, Members.weight. rewrite map_fold_empty.
  cbn [length Nat.add Members.release_all].
  destruct sp as [b|]; cbn [mbind option_bind]; [|reflexivity].
  unfold sp_release. destruct (blocks h !! b) as [c|] eqn:E; [|reflexivity].
  destruct (Nat.eqb (Nat.pred (use_count c)) 0); [|reflexivity].
  rewrite delete_empty. reflexivity.
Qed.

Lemma members_collect_iter_flat (w : world) (it : nat) :
  Members.collect_iter (Members.State w ∅) it
  = match collect_iter w it with
    | Again w' it' => Members.Again (Members.State w' ∅) it'
    | Leave w' => Members.Leave (Members.State w' ∅)
    end.
Proof.
  destruct (collect_iter_cases w it)
    as [[E R]|[(sp & E & U & R)|(b & c & E & Eb & Hc & R)]]; rewrite R.
  - apply members_collect_iter_end, E.
  - apply (members_collect_iter_shared _ _ sp); assumption.
  - rewrite (members_collect_iter_unique _ _ (Some b)); [|exact E|].
    2:{ unfold unique, sp_use_count. cbn [Members.flat]. rewrite Eb. cbn [from_option].
        rewrite Hc. reflexivity. }
    cbn [Members.flat Members.members]. rewrite release_no_members. cbn [fst snd].
    rewrite (sp_release_last _ _ _ Eb Hc). reflexivity.
Qed.

Lemma members_collect_run_flat (n : nat) (w : world) (it : nat) :
  Members.collect_run n (Members.State w ∅) it
  = match collect_run n w it with
    | Again w' it' => Members.Again (Members.State w' ∅) it'
    | Leave w' => Members.Leave (Members.State w' ∅)
    end.
Proof.
  revert w it. induction n as [|n IH]; intros w it; [reflexivity|].
  cbn [Members.collect_run collect_run]. rewrite members_collect_iter_flat.
  destruct (collect_iter w it) as [w' it'|w']; [apply IH|reflexivity].
Qed.

(** ** Owners outside the list and the objects *)

Lemma occ_delete (b : nat) (l : list shared_ptr) (i : nat) (sp : shared_ptr) :
  l !! i = Some sp -> occ b l = occ b (delete i l) + occ b [sp].
Proof.
  revert i. induction l as [|x l IH]; intros i E; [discriminate|].
  destruct i as [|i]; cbn [lookup list_lookup delete list_delete] in *.
  - injection E as ->. change (sp :: l) with ([sp] ++ l). rewrite occ_app. lia.
  - change (x :: l) with ([x] ++ l). change (x :: delete i l) with ([x] ++ delete i l).
    rewrite !occ_app, (IH i E). lia.
Qed.

Lemma owners_outside_live (s : Members.state) (b : nat) (c : ctrl) :
  Members.accounted s -> blocks (mem (Members.flat s)) !! b = Some c ->
  use_count c
  = occ b (registry (Members.flat s)) + Members.inner (Members.members s) b
    + Members.owners_outside s b.
Proof.
  intros A Hc. specialize (A b c Hc). cbn beta in A.
  unfold Members.owners_outside, sp_use_count. rewrite Hc. cbn [from_option]. lia.
Qed.

Lemma owners_outside_dead (s : Members.state) (b : nat) :
  blocks (mem (Members.flat s)) !! b = None -> Members.owners_outside s b = 0.
Proof.
  intros Hc. unfold Members.owners_outside, sp_use_count. rewrite Hc. reflexivity.
Qed.

(** One evaluation of the loop: the books stay kept, no group gains or
    loses an owner outside the list and the objects, an entry with
    such an owner stays, and what is destroyed had none. *)
Lemma members_collect_iter_outside (s : Members.state) (it : nat) :
  Members.accounted s ->
  Members.accounted (Members.state_of (Members.collect_iter s it))
  /\ (forall b, Members.owners_outside (Members.state_of (Members.collect_iter s it)) b
                = Members.owners_outside s b)
  /\ (forall b, Some b ∈ registry (Members.flat s) -> 1 <= Members.owners_outside s b ->
                Some b ∈ registry (Members.flat
                                     (Members.state_of (Members.collect_iter s it))))
  /\ (forall b c',
        blocks (mem (Members.flat (Members.state_of (Members.collect_iter s it)))) !! b
        = Some c' ->
        exists c, blocks (mem (Members.flat s)) !! b = Some c /\ managed c = managed c')
  /\ exists d,
       deleted (mem (Members.flat (Members.state_of (Members.collect_iter s it))))
       = deleted (mem (Members.flat s)) ++ d
       /\ (forall p, p ∈ d ->
                     exists b c, blocks (mem (Members.flat s)) !! b = Some c
                                 /\ managed c = p /\ Members.owners_outside s b = 0)
       /\ forall b c,
            blocks (mem (Members.flat s)) !! b = Some c ->
            Some b ∈ registry (Members.flat (Members.state_of (Members.collect_iter s it))) ->
            exists c',
              blocks (mem (Members.flat (Members.state_of (Members.collect_iter s it)))) !! b
              = Some c'
              /\ use_count c' <= use_count c.
Proof.
  intros A.
  assert (Members.accounted s
          /\ (forall b, Members.owners_outside s b = Members.owners_outside s b)
          /\ (forall b, Some b ∈ registry (Members.flat s) ->
                        1 <= Members.owners_outside s b ->
                        Some b ∈ registry (Members.flat s))
          /\ (forall b c', blocks (mem (Members.flat s)) !! b = Some c' ->
                exists c, blocks (mem (Members.flat s)) !! b = Some c
                          /\ managed c = managed c')
          /\ exists d, deleted (mem (Members.flat s)) = deleted (mem (Members.flat s)) ++ d
               /\ (forall p, p ∈ d ->
                    exists b c, blocks (mem (Members.flat s)) !! b = Some c
                                /\ managed c = p /\ Members.owners_outside s b = 0)
               /\ forall b c,
                    blocks (mem (Members.flat s)) !! b = Some c ->
                    Some b ∈ registry (Members.flat s) ->
                    exists c', blocks (mem (Members.flat s)) !! b = Some c'
                               /\ use_count c' <= use_count c) as Same.
  { split; [exact A|]. split; [reflexivity|]. split; [auto|]. split; [eauto|].
    exists []. rewrite app_nil_r. split; [reflexivity|].
    split; [intros p Hp; inversion Hp|eauto]. }
  destruct (members_collect_iter_cases s it)
    as [[E R]|[(sp & E & U & R)|(b0 & c0 & E & Eb & Hc & R)]]; rewrite R;
    cbn [Members.state_of]; [exact Same|exact Same|]. clear Same.
  destruct (Members.release [Some b0] (mem (Members.flat s)) (Members.members s))
    as [h' m'] eqn:Rel.
  cbn [fst snd]. set (s1 := Members.State _ _).
  assert (registry (Members.flat s1) = delete it (registry (Members.flat s))) as R1
    by reflexivity.
  assert (mem (Members.flat s1) = h') as R2 by reflexivity.
  assert (Members.members s1 = m') as R3 by reflexivity.
  clearbody s1.
  assert (Members.balanced (delete it (registry (Members.flat s)))
                           (Members.owners_outside s) [Some b0]
                           (mem (Members.flat s)) (Members.members s)) as Bal.
  { intros b c Hb. rewrite (owners_outside_live s b c A Hb).
    rewrite (occ_delete b _ it _ E). lia. }
  destruct (release_all_balanced _ _ _ _ _ _ _ _ (Nat.le_refl _) Bal Rel)
    as (K1 & K2 & K3 & K4 & d & K5 & K6).
  assert (Members.owners_outside s b0 = 0) as Z0.
  { pose proof (owners_outside_live s b0 c0 A Eb) as H0.
    pose proof (occ_delete b0 _ it _ E) as H1. rewrite occ_cons_eq in H1. lia. }
  assert (forall b c', blocks h' !! b = Some c' ->
            use_count c'
            = occ b (delete it (registry (Members.flat s))) + Members.inner m' b
              + Members.owners_outside s b) as Live.
  { intros b c' Hb. rewrite (K1 b c' Hb). unfold occ at 2. simpl. lia. }
  split; [|split; [|split; [|split]]].
  - unfold Members.accounted, map_Forall. rewrite R1, R2, R3.
    intros b c' Hb. rewrite (Live b c' Hb). lia.
  - intros b. unfold Members.owners_outside at 1. rewrite R1, R2, R3.
    unfold sp_use_count.
    destruct (blocks h' !! b) as [c'|] eqn:Hb; cbn [from_option].
    + rewrite (Live b c' Hb). lia.
    + destruct (blocks (mem (Members.flat s)) !! b) as [c|] eqn:Hb0.
      * pose proof (K3 b c Hb0 Hb). lia.
      * rewrite (owners_outside_dead s b Hb0). reflexivity.
  - intros b Hin Ho. rewrite R1.
    apply (elem_of_delete_other _ _ _ (Some b0)); [exact Hin|exact E|].
    intros Heq. injection Heq as ->. lia.
  - rewrite R2. intros b c' Hb. destruct (K2 b c' Hb) as (c & Hc0 & Hm & _). eauto.
  - rewrite R1, R2. exists d. split; [exact K5|]. split.
    + intros p Hp. destruct (K6 p Hp) as (b & c & Hb & Hm & Hn).
      exists b, c. split; [exact Hb|]. split; [exact Hm|].
      pose proof (K3 b c Hb Hn). lia.
    + intros b c Hb Hin.
      destruct (blocks h' !! b) as [c'|] eqn:Hb'.
      * exists c'. split; [reflexivity|].
        destruct (K2 b c' Hb') as (c2 & Hc2 & _ & Hu). congruence.
      * exfalso. pose proof (K3 b c Hb Hb') as Hz.
        assert (occ b (delete it (registry (Members.flat s))) = 0) as Ho by lia.
        apply occ_zero in Ho. contradiction.
Qed.




Lemma members_collect_run_shared (s : Members.state) (it : nat) (sp : shared_ptr) :
  registry (Members.flat s) !! it = Some sp ->
  unique (mem (Members.flat s)) sp = false ->
  forall n, Members.collect_run n s it = Members.Again s it.
Proof.
  intros E U n. induction n as [|n IH]; [reflexivity|].
  cbn [Members.collect_run]. rewrite (members_collect_iter_shared s it sp E U). exact IH.
Qed.

(** An entry that an object in front of it holds is evicted in the same
    sweep, after that object: on the list [a; b] with [b] held by the
    object of [a] and by nothing outside, the sweep returns with both
    objects destroyed, although [b] was not unique when it began. *)
Lemma members_sweep_evicts_what_objects_held :
  registry (Members.flat (Members.holder_first 10%Z 20%Z)) = [Some 0; Some 1]
  /\ unique (mem (Members.flat (Members.holder_first 10%Z 20%Z))) (Some 1) = false
  /\ Members.owners_outside (Members.holder_first 10%Z 20%Z) 1 = 0
  /\ Members.collect 3 (Members.holder_first 10%Z 20%Z)
     = Some (Members.State (World (Heap ∅ 2 [10%Z; 20%Z]) (Collector false [])) ∅).
Proof. vm_compute. repeat split; reflexivity. Qed.

(** With [b] registered before [a] the list is [b; a], the loop stays on
    [b], which the object of [a] holds, and [collect] does not return,
    although no handle is left outside the list and the objects. *)
Lemma members_sweep_spins_on_what_objects_hold (fuel : nat) :
  registry (Members.flat (Members.holder_last 20%Z 10%Z)) = [Some 0; Some 1]
  /\ Members.owners_outside (Members.holder_last 20%Z 10%Z) 0 = 0
  /\ Members.owners_outside (Members.holder_last 20%Z 10%Z) 1 = 0
  /\ Members.collect fuel (Members.holder_last 20%Z 10%Z) = None.
Proof.
  split; [vm_compute; reflexivity|]. split; [vm_compute; reflexivity|].
  split; [vm_compute; reflexivity|]. unfold Members.collect.
  rewrite (members_collect_run_shared _ 0 (Some 0)); [reflexivity| |];
    vm_compute; reflexivity.
Qed.

(** * Further properties of the code *)

(** ** The loop of [collect] *)



Lemma members_collect_all_unique (n : nat) (s : Members.state) :
  length (registry (Members.flat s)) = n ->
  Members.accounted s ->
  NoDup (registry (Members.flat s)) ->
  Forall (fun sp => unique (mem (Members.flat s)) sp = true) (registry (Members.flat s)) ->
  exists s', Members.collect_run (S n) s 0 = Members.Leave s'
             /\ registry (Members.flat s') = [].
Proof.
  revert s. induction n as [|n IH]; intros s Hn A ND Hu.
  - exists s. assert (registry (Members.flat s) = []) as El
      by (destruct (registry (Members.flat s)); [reflexivity|discriminate]).
    cbn [Members.collect_run]. rewrite members_collect_iter_end by (rewrite El; reflexivity).
    split; [reflexivity|exact El].
  - pose proof (members_collect_iter_outside s 0 A) as (J1 & _ & _ & _ & d & _ & _ & J7).
    destruct (members_collect_iter_cases s 0)
      as [[E R]|[(sp & E & U & R)|(b0 & c0 & E & Eb & Hc & R)]].
    + destruct (registry (Members.flat s)); discriminate.
    + rewrite Forall_forall in Hu. rewrite (Hu sp) in U; [discriminate|].
      eapply list_elem_of_lookup_2, E.
    + rewrite R in J1, J7. cbn [Members.state_of] in J1, J7.
      cbn [Members.collect_run]. rewrite R.
      set (s1 := Members.State _ _) in *.
      assert (registry (Members.flat s1) = delete 0 (registry (Members.flat s))) as R1
        by reflexivity.
      destruct (registry (Members.flat s)) as [|sp l] eqn:El; [discriminate|].
      cbn [delete list_delete] in R1. apply NoDup_cons in ND as [_ ND].
      apply Forall_cons in Hu as [_ Hu].
      apply IH.
      * rewrite R1. simpl in Hn. lia.
      * exact J1.
      * rewrite R1. exact ND.
      * rewrite R1. rewrite Forall_forall in Hu |- *. intros sp' Hin.
        destruct (unique_true _ _ (Hu sp' Hin)) as (b & c & -> & Hb & Hcnt).
        destruct (J7 b c Hb) as (c' & Hb' & Hle); [rewrite R1; exact Hin|].
        pose proof (J1 b c' Hb') as Hacc. cbn beta in Hacc. rewrite R1 in Hacc.
        assert (occ b l <> 0) as Hz by (intros Hz; apply occ_zero in Hz; contradiction).
        unfold unique, sp_use_count. rewrite Hb'. cbn [from_option].
        apply Nat.eqb_eq. lia.
Qed.

(** X1: the collector over objects that may hold handles.  If every
    handle in the list or in an object is counted in its group, the list
    holds no handle twice and every entry is unique, then [collect]
    returns after one evaluation of its loop for each entry and one
    more, and leaves the list empty.  If the first entry of the list is
    not unique, [collect] does not return, whatever number of
    evaluations it is given. *)
Theorem collect_returns_when_all_unique (s : Members.state) :
  (Members.accounted s ->
   NoDup (registry (Members.flat s)) ->
   Forall (fun sp => unique (mem (Members.flat s)) sp = true) (registry (Members.flat s)) ->
   exists s', Members.collect (S (length (registry (Members.flat s)))) s = Some s'
              /\ registry (Members.flat s') = [])
  /\ (forall sp,
        registry (Members.flat s) !! 0 = Some sp ->
        unique (mem (Members.flat s)) sp = false ->
        forall fuel, Members.collect fuel s = None).
Proof.
  split.
  - intros A ND Hu.
    destruct (members_collect_all_unique _ s eq_refl A ND Hu) as (s' & R & E).
    exists s'. unfold Members.collect. rewrite R. auto.
  - intros sp E U fuel. unfold Members.collect.
    rewrite (members_collect_run_shared s 0 sp E U). reflexivity.
Qed.



Lemma collect_fuel (n : nat) (w w' : world) :
  collect_run n w 0 = Leave w' ->
  forall m, collect m w = if decide (length (registry w) < m) then Some w' else None.
Proof.
  revert w. induction n as [|n IH]; intros w H m; [discriminate|].
  cbn [collect_run] in H. unfold collect.
  destruct (collect_iter_cases w 0)
    as [[E R]|[(sp & E & U & R)|(b & c & E & Eb & Hc & R)]]; rewrite R in H.
  - injection H as <-. destruct (registry w) eqn:El; [|discriminate].
    destruct m as [|m]; cbn [collect_run length].
    + rewrite decide_False by lia. reflexivity.
    + rewrite R, decide_True by lia. reflexivity.
  - rewrite (collect_run_shared _ _ _ E U) in H. discriminate.
  - specialize (IH _ H). unfold registry in *. cbn [gc _pointers] in *.
    destruct (_pointers (gc w)) as [|sp l] eqn:El; [discriminate|].
    cbn [delete list_delete length] in *.
    destruct m as [|m]; cbn [collect_run].
    + rewrite decide_False by lia. reflexivity.
    + rewrite R. specialize (IH m). unfold collect in IH. rewrite IH.
      destruct (decide (length l < m)); [rewrite decide_True by lia|
                                         rewrite decide_False by lia]; reflexivity.
Qed.

(** X3: a sweep that returns has tested its loop condition once for
    each entry and once more: with the same state, [collect] returns,
    and returns the same, exactly when it is given more evaluations than
    the list has entries. *)
Theorem collect_returns_after_length_tests (fuel : nat) (w w' : world) :
  collect fuel w = Some w' ->
  length (registry w) < fuel
  /\ forall fuel', collect fuel' w
                   = if decide (length (registry w) < fuel') then Some w' else None.
Proof.
  intros H. unfold collect in H.
  destruct (collect_run fuel w 0) as [|w1] eqn:E; [discriminate|]. injection H as ->.
  pose proof (collect_fuel _ _ _ E) as F. split; [|exact F].
  specialize (F fuel). unfold collect in F. rewrite E in F.
  destruct (decide (length (registry w) < fuel)); [assumption|discriminate].
Qed.

Lemma collect_returns_after_length_tests_witness :
  collect 5 (one_unique 10%Z) = Some (World (Heap ∅ 1 [10%Z]) (Collector false []))
  /\ (length (registry (one_unique 10%Z)) < 5
      /\ forall fuel', collect fuel' (one_unique 10%Z)
                       = if decide (length (registry (one_unique 10%Z)) < fuel')
                         then Some (World (Heap ∅ 1 [10%Z]) (Collector false []))
                         else None).
Proof.
  assert (collect 5 (one_unique 10%Z)
          = Some (World (Heap ∅ 1 [10%Z]) (Collector false []))) as H
    by (vm_compute; reflexivity).
  split; [exact H|]. exact (collect_returns_after_length_tests 5 (one_unique 10%Z) _ H).
Defined.

(** X4: the collector over objects that may hold handles.  The loop of
    [collect] only ever removes a run of entries that starts at its
    iterator: after any number of evaluations the list is the old one
    with [k] consecutive entries cut out at the iterator, the deleter
    has run at least [k] times more, what was deleted before is still
    the beginning of the log, and no control block was made. *)
Theorem collect_cuts_at_iterator (n : nat) (s : Members.state) (it : nat) :
  exists k,
    k <= n
    /\ registry (Members.flat (Members.state_of (Members.collect_run n s it)))
       = take it (registry (Members.flat s)) ++ drop (it + k) (registry (Members.flat s))
    /\ (exists d,
          deleted (mem (Members.flat (Members.state_of (Members.collect_run n s it))))
          = deleted (mem (Members.flat s)) ++ d
          /\ k <= length d)
    /\ fresh_block (mem (Members.flat (Members.state_of (Members.collect_run n s it))))
       = fresh_block (mem (Members.flat s)).
Proof.
  revert s. induction n as [|n IH]; intros s.
  - exists 0. cbn [Members.collect_run Members.state_of]. rewrite Nat.add_0_r, take_drop.
    split; [lia|]. split; [reflexivity|]. split; [|reflexivity].
    exists []. rewrite app_nil_r. split; [reflexivity|simpl; lia].
  - cbn [Members.collect_run].
    destruct (members_collect_iter_cases s it)
      as [[E R]|[(sp & E & U & R)|(b & c & E & Eb & Hc & R)]]; rewrite R.
    + exists 0. cbn [Members.state_of]. rewrite Nat.add_0_r, take_drop.
      split; [lia|]. split; [reflexivity|]. split; [|reflexivity].
      exists []. rewrite app_nil_r. split; [reflexivity|simpl; lia].
    + destruct (IH s) as (k & K1 & K2 & K3 & K4). exists k.
      split; [lia|]. auto.
    + set (s1 := Members.State _ _).
      assert (registry (Members.flat s1) = delete it (registry (Members.flat s))) as R1
        by reflexivity.
      destruct (release_last_log b c (mem (Members.flat s)) (Members.members s) Eb Hc)
        as [[e He] _].
      destruct (release_all_log (length [Some b] + Members.weight (Members.members s))
                                [Some b] (mem (Members.flat s)) (Members.members s))
        as [Hf _].
      assert (deleted (mem (Members.flat s1))
              = deleted (mem (Members.flat s)) ++ managed c :: e) as R2
        by (rewrite <- app_assoc in He; exact He).
      assert (fresh_block (mem (Members.flat s1)) = fresh_block (mem (Members.flat s))) as R3
        by exact Hf.
      destruct (IH s1) as (k & K1 & K2 & (d & K3 & K3') & K4). clearbody s1.
      rewrite R1 in K2. rewrite R2 in K3. rewrite R3 in K4.
      exists (S k). apply lookup_lt_Some in E.
      split; [lia|]. split; [|split; [|exact K4]].
      * rewrite K2, delete_take_drop.
        rewrite (take_app_length' (take it (registry (Members.flat s))))
          by (rewrite length_take_le; lia).
        rewrite (drop_app_add' (take it (registry (Members.flat s))))
          by (rewrite length_take_le; lia).
        rewrite drop_drop. do 2 f_equal. lia.
      * exists (managed c :: e ++ d). rewrite K3, <- app_assoc.
        split; [reflexivity|]. simpl. rewrite length_app. lia.
Qed.



(** ** The order of reclamation under [runtime] *)

Lemma copy_var_blocks (c : config) (i : nat) (b : nat) (cb : ctrl) :
  blocks (sp_copy (default None (vars c !! i)) (store (proc c))) !! b = Some cb ->
  exists cb0, blocks (store (proc c)) !! b = Some cb0 /\ managed cb0 = managed cb.
Proof.
  intros Hb. destruct (default None (vars c !! i)) as [b0|]; [|eauto].
  rewrite sp_copy_live in Hb. cbn [blocks] in Hb.
  apply lookup_alter_Some in Hb as [(<- & cb0 & H0 & ->)|[Hne Hb]]; eauto.
Qed.

Lemma release_var_blocks (c : config) (i : nat) (b : nat) (cb : ctrl) :
  inv_counts c ->
  blocks (sp_release (default None (vars c !! i)) (store (proc c))) !! b = Some cb ->
  exists cb0, blocks (store (proc c)) !! b = Some cb0 /\ managed cb0 = managed cb.
Proof.
  intros (N1 & N2 & N3 & N4).
  destruct (vars c !! i) as [[b0|]|] eqn:E; cbn [default from_option id]; [|eauto|eauto].
  assert (Some b0 ∈ vars c) as Hin by (eapply list_elem_of_lookup_2, E).
  destruct (blocks (store (proc c)) !! b0) as [cb0|] eqn:Eb;
    [|destruct (N3 b0 Eb) as [_ K]; contradiction].
  destruct (N2 b0 cb0 Eb) as [_ K2].
  pose proof (occ_insert_None_eq b0 _ _ E) as Hocc.
  rewrite (sp_release_shared _ b0 cb0 Eb) by lia. cbn [blocks].
  intros Hb. apply lookup_insert_Some in Hb as [[<- <-]|[Hne Hb]]; eauto.
Qed.

Lemma inv_order_moves (w : work) (c c' : config) :
  inv_counts c -> inv_order w c -> moves w c c' -> inv_order w c'.
Proof.
  intros N (done & k & D1 & D2 & D3 & D4 & D5 & D6) M.
  destruct M as [|p rest Hc Hs h|i rest Hc|i rest Hc|Hc|code Hc Hcv|code Hc Hs
                 |Hs|b Hs|b bk cb l Hs Ht Hb Hu h|b Hs Ht].
  - exists done, k. auto 10.
  - (* gc(p) *)
    rewrite Hc in D1. cbn [rest_of] in D1. subst h.
    exists (done ++ [Gc p]), k. unfold inv_order.
    cbn [store proc caller rest_of blocks fresh_block deleted].
    rewrite tracked_explicit, allocated_app. cbn [allocated omap].
    split; [rewrite <- app_assoc; exact D1|].
    split; [rewrite length_app; simpl; lia|]. split; [lia|].
    split; [|split].
    + rewrite D4. replace (S (fresh_block (store (proc c))) - k)
        with (S (fresh_block (store (proc c)) - k)) by lia.
      rewrite seq_S, fmap_app. cbn [fmap list_fmap].
      replace (k + (fresh_block (store (proc c)) - k))
        with (fresh_block (store (proc c))) by lia. reflexivity.
    + rewrite take_app_le by lia. exact D5.
    + intros b cb Hb. apply lookup_insert_Some in Hb as [[<- <-]|[Hne Hb]].
      * rewrite lookup_app_r by lia. rewrite D2, Nat.sub_diag. reflexivity.
      * apply lookup_app_l_Some. eauto.
  - (* a copy *)
    rewrite Hc in D1. cbn [rest_of] in D1.
    exists (done ++ [Copy i]), k. unfold inv_order.
    cbn [store proc caller rest_of set_store].
    rewrite tracked_set_store, allocated_app, sp_copy_fresh, sp_copy_deleted.
    cbn [allocated omap]. rewrite app_nil_r.
    split; [rewrite <- app_assoc; exact D1|]. split; [exact D2|]. split; [exact D3|].
    split; [exact D4|]. split; [exact D5|].
    intros b cb Hb. destruct (copy_var_blocks c i b cb Hb) as (cb0 & H0 & <-). eauto.
  - (* a reset *)
    rewrite Hc in D1. cbn [rest_of] in D1.
    exists (done ++ [Reset i]), k. unfold inv_order.
    cbn [store proc caller rest_of set_store].
    rewrite tracked_set_store, allocated_app, sp_release_fresh, (release_var c i N).
    cbn [allocated omap]. rewrite app_nil_r.
    split; [rewrite <- app_assoc; exact D1|]. split; [exact D2|]. split; [exact D3|].
    split; [exact D4|]. split; [exact D5|].
    intros b cb Hb. destruct (release_var_blocks c i b cb N Hb) as (cb0 & H0 & <-). eauto.
  - exists done, k. rewrite Hc in D1. unfold inv_order. simpl. auto 10.
  - exists done, k. rewrite Hc in D1. unfold inv_order. simpl. auto 10.
  - exists done, k. rewrite Hc in D1. unfold inv_order. simpl. auto 10.
  - exists done, k. unfold inv_order. cbn [store proc caller set_cvMutex].
    rewrite tracked_set_cvMutex. auto 10.
  - exists done, k. unfold inv_order. cbn [store proc caller].
    rewrite tracked_explicit. auto 10.
  - (* an eviction *)
    subst h. rewrite Ht in D4.
    destruct (fresh_block (store (proc c)) - k) as [|m] eqn:Em; [discriminate|].
    cbn [seq fmap list_fmap] in D4. injection D4 as -> ->.
    exists done, (S k). unfold inv_order.
    cbn [store proc caller blocks fresh_block deleted]. rewrite tracked_explicit.
    split; [exact D1|]. split; [exact D2|]. split; [lia|].
    split; [f_equal; f_equal; lia|]. split.
    + rewrite D5. symmetry. apply take_S_r. eauto.
    + intros b' cb' Hb'. apply lookup_delete_Some in Hb' as [_ Hb']. eauto.
  - exists done, k. unfold inv_order. cbn [store proc caller].
    rewrite tracked_explicit. rewrite Ht in D4.
    split; [exact D1|]. split; [exact D2|]. split; [exact D3|].
    split; [exact D4|]. split; [exact D5|exact D6].
Qed.

Lemma inv_order_run (w : work) (sched : list thread) (c : config) :
  inv w c -> inv_order w c -> inv_order w (run w sched c).
Proof.
  revert c. induction sched as [|t sched IH]; intros c I O; [exact O|].
  rewrite run_cons. apply IH; [apply inv_step, I|].
  eapply inv_order_moves; [apply (inv_n _ _ I)|exact O|].
  apply step_moves, (inv_l _ _ I).
Qed.

Lemma inv_order_runtime (w : work) (sched : list thread) :
  inv_order w (runtime w sched start).
Proof.
  apply inv_order_run; [apply inv_begin|].
  exists [], 0. unfold inv_order. cbn. split; [reflexivity|]. split; [reflexivity|].
  split; [lia|]. split; [reflexivity|]. split; [reflexivity|].
  intros b cb H. rewrite lookup_empty in H. discriminate.
Qed.

Lemma runtime_block_objects (w : work) (sched : list thread) (b : nat) (cb : ctrl) :
  blocks (store (proc (runtime w sched start))) !! b = Some cb ->
  allocated (body w) !! b = Some (managed cb).
Proof.
  destruct (inv_order_runtime w sched) as (done & k & D1 & D2 & D3 & D4 & D5 & D6).
  intros Hb. rewrite D1, allocated_app. apply lookup_app_l_Some. eauto.
Qed.


(** X7: when [runtime] has returned, the deleter has been run on every
    object the function registered with [gc], once for each
    registration and in the order of registration; no control block is
    left and the list is empty. *)
Theorem runtime_return_reclaims_all (w : work) (sched : list thread) (code : Z) :
  result (runtime w sched start) = Some code ->
  deleted (store (proc (runtime w sched start))) = allocated (body w)
  /\ blocks (store (proc (runtime w sched start))) = ∅
  /\ tracked (proc (runtime w sched start)) = []
  /\ fresh_block (store (proc (runtime w sched start))) = length (allocated (body w)).
Proof.
  intros R. pose proof (inv_runtime w sched) as I.
  destruct (returned_facts w _ code I R) as (_ & Hs & Ht & _ & _).
  destruct (inv_order_runtime w sched) as (done & k & D1 & D2 & D3 & D4 & D5 & D6).
  unfold result in R. destruct (caller (runtime w sched start)); try discriminate.
  cbn [rest_of] in D1. rewrite app_nil_r in D1. subst done.
  rewrite Ht in D4. symmetry in D4. apply fmap_nil_inv in D4.
  assert (k = fresh_block (store (proc (runtime w sched start)))) as ->.
  { destruct (fresh_block (store (proc (runtime w sched start))) - k) eqn:E;
      [lia|discriminate]. }
  split; [rewrite D5, <- D2; apply firstn_all|]. split; [|split; [exact Ht|auto]].
  apply map_eq. intros b. rewrite lookup_empty.
  destruct (blocks (store (proc (runtime w sched start))) !! b) as [cb|] eqn:Eb;
    [|reflexivity].
  destruct (inv_n _ _ I) as (_ & N2 & _). destruct (N2 b cb Eb) as [K _].
  rewrite Ht in K. inversion K.
Qed.

Lemma runtime_return_reclaims_all_witness :
  result (runtime (Work [Gc 10%Z; Gc 20%Z; Reset 1; Reset 0] 7%Z)
                  (caller_first (Work [Gc 10%Z; Gc 20%Z; Reset 1; Reset 0] 7%Z) 5) start)
  = Some 7%Z
  /\ deleted (store (proc (runtime (Work [Gc 10%Z; Gc 20%Z; Reset 1; Reset 0] 7%Z)
                  (caller_first (Work [Gc 10%Z; Gc 20%Z; Reset 1; Reset 0] 7%Z) 5) start)))
     = [10%Z; 20%Z].
Proof.
  assert (result (runtime (Work [Gc 10%Z; Gc 20%Z; Reset 1; Reset 0] 7%Z)
                  (caller_first (Work [Gc 10%Z; Gc 20%Z; Reset 1; Reset 0] 7%Z) 5) start)
          = Some 7%Z) as R by (vm_compute; reflexivity).
  split; [exact R|].
  exact (proj1 (runtime_return_reclaims_all _ _ _ R)).
Defined.

(** ** Reference counts and locks under [runtime] *)

(** X8: under [runtime], at every point of every schedule, the use
    count of a live control block is at least one, for the entry of the
    list, plus the number of handle variables of the function that hold
    it; every group that [gc] made and that is live is in the list, the
    list holds no handle twice, no null and no handle of a group that
    is gone, and a handle held by the function is never dangling: its
    group is live with a use count of 2 or more. *)
Theorem runtime_use_counts (w : work) (sched : list thread) :
  (forall b cb,
      blocks (store (proc (runtime w sched start))) !! b = Some cb ->
      S (occ b (vars (runtime w sched start))) <= use_count cb
      /\ Some b ∈ tracked (proc (runtime w sched start))
      /\ b < fresh_block (store (proc (runtime w sched start))))
  /\ (forall sp, sp ∈ tracked (proc (runtime w sched start)) ->
                 exists b, sp = Some b
                           /\ is_Some (blocks (store (proc (runtime w sched start))) !! b))
  /\ NoDup (tracked (proc (runtime w sched start)))
  /\ (forall b, Some b ∈ vars (runtime w sched start) ->
                exists cb, blocks (store (proc (runtime w sched start))) !! b = Some cb
                           /\ 2 <= use_count cb).
Proof.
  pose proof (inv_runtime w sched) as [_ (N1 & N2 & N3 & N4) _ _ _ E].
  split; [|split; [|split; [exact N1|]]].
  - intros b cb Hb. destruct (N2 b cb Hb) as [K1 K2].
    split; [lia|]. split; [exact K1|].
    destruct (decide (b < fresh_block (store (proc (runtime w sched start)))))
      as [Hlt|Hge]; [exact Hlt|].
    rewrite N4 in Hb by lia. discriminate.
  - intros [b|] Hin; [|contradiction].
    exists b. split; [reflexivity|].
    destruct (blocks (store (proc (runtime w sched start))) !! b) eqn:Eb; [eauto|].
    destruct (N3 b Eb) as [K _]. contradiction.
  - intros b Hin.
    destruct (blocks (store (proc (runtime w sched start))) !! b) as [cb|] eqn:Eb.
    + exists cb. split; [reflexivity|]. destruct (N2 b cb Eb) as [_ K].
      assert (occ b (vars (runtime w sched start)) <> 0) as Hnz
        by (intros Hz; apply occ_zero in Hz; contradiction).
      lia.
    + destruct (N3 b Eb) as [_ K]. contradiction.
Qed.

(** X9: where the collection thread is tells which locks are held,
    at every point of every schedule of [runtime]: none while it waits
    or has exited, [_cvMutex] from its wake-up on, and [_cvMutex] and
    the [_mutex] of the one collector during the loop of [collect],
    whose iterator is then at the first entry of the list. *)
Theorem runtime_locks (w : work) (sched : list thread) :
  length (objects (proc (runtime w sched start))) <= 1
  /\ match garbageCollectionThread (runtime w sched start) with
     | Waiting | Exited =>
         _cvMutex (proc (runtime w sched start)) = false
         /\ Forall (fun g => _mutex g = false) (objects (proc (runtime w sched start)))
     | Woken _ =>
         _cvMutex (proc (runtime w sched start)) = true
         /\ Forall (fun g => _mutex g = false) (objects (proc (runtime w sched start)))
     | Collecting _ this iterator =>
         _cvMutex (proc (runtime w sched start)) = true
         /\ _instance (proc (runtime w sched start)) = Some this
         /\ iterator = 0
         /\ exists l, objects (proc (runtime w sched start)) = [Collector true l]
     end.
Proof.
  pose proof (inv_l _ _ (inv_runtime w sched)) as L. unfold inv_locks in L.
  assert (forall s, instance_ok false s ->
                    length (objects s) <= 1
                    /\ Forall (fun g => _mutex g = false) (objects s)) as Ok.
  { intros s [(-> & _)|(l & -> & _)]; simpl; (split; [lia|]); repeat constructor. }
  destruct (garbageCollectionThread (runtime w sched start)) as [|b|b a it|].
  - destruct L as [L1 L2]. destruct (Ok _ L2). auto.
  - destruct L as [L1 L2]. destruct (Ok _ L2). auto.
  - destruct L as (L1 & -> & -> & l & L2 & L3). rewrite L2. simpl. eauto 10.
  - destruct L as [L1 L2]. destruct (Ok _ L2). auto.
Qed.

(** X10: from the wake-up of the collection thread to the end of its
    sweep the stop flag does not change, since it is only set under
    [_cvMutex]: at every point of every schedule, the value
    [isNotTimeout] the thread got from [wait_for] is the value the stop
    flag has now.  So a sweep is followed by [break] exactly when the
    stop flag was set before that sweep began. *)
Theorem runtime_sweep_sees_stop_flag
        (w : work) (sched : list thread) (isNotTimeout : bool) :
  (garbageCollectionThread (runtime w sched start) = Woken isNotTimeout
   \/ exists this iterator,
        garbageCollectionThread (runtime w sched start)
        = Collecting isNotTimeout this iterator) ->
  isNotTimeout = gcStopSignal (runtime w sched start).
Proof.
  intros H. pose proof (inv_stop_runtime w sched) as S.
  destruct (inv_c _ _ (inv_runtime w sched)) as [_ C]. unfold inv_stop in S.
  destruct (gcStopSignal (runtime w sched start)) eqn:Eg.
  - specialize (S eq_refl). destruct H as [H|(a & it & H)]; rewrite H in S; exact S.
  - destruct H as [H|(a & it & H)]; rewrite H in C;
      (destruct isNotTimeout; [specialize (C eq_refl); discriminate|reflexivity]).
Qed.

Lemma runtime_sweep_sees_stop_flag_witness :
  (garbageCollectionThread
     (runtime (drops_handle 10%Z 0%Z)
              [CallerThread; CallerThread; CallerThread; CallerThread;
               SweeperThread; SweeperThread] start) = Woken true
   \/ exists this iterator,
        garbageCollectionThread
          (runtime (drops_handle 10%Z 0%Z)
                   [CallerThread; CallerThread; CallerThread; CallerThread;
                    SweeperThread; SweeperThread] start)
        = Collecting true this iterator)
  /\ true = gcStopSignal
              (runtime (drops_handle 10%Z 0%Z)
                       [CallerThread; CallerThread; CallerThread; CallerThread;
                        SweeperThread; SweeperThread] start).
Proof.
  assert (garbageCollectionThread
            (runtime (drops_handle 10%Z 0%Z)
                     [CallerThread; CallerThread; CallerThread; CallerThread;
                      SweeperThread; SweeperThread] start) = Woken true
          \/ exists this iterator,
               garbageCollectionThread
                 (runtime (drops_handle 10%Z 0%Z)
                          [CallerThread; CallerThread; CallerThread; CallerThread;
                           SweeperThread; SweeperThread] start)
               = Collecting true this iterator) as H
    by (right; exists 0, 0; vm_compute; reflexivity).
  split; [exact H|].
  exact (runtime_sweep_sees_stop_flag _ _ true H).
Defined.

(** ** Where [runtime] stops for good, and where it goes on *)

Lemma stuck_step (w : work) (c : config) (t : thread)
      (b : bool) (a it i bk : nat) :
  inv w c ->
  garbageCollectionThread c = Collecting b a it ->
  head (tracked (proc c)) = Some (Some bk) ->
  vars c !! i = Some (Some bk) ->
  caller_waits c ->
  step w t c = c.
Proof.
  intros I Hs Hh Hv Hw.
  pose proof (inv_l _ _ I) as L. pose proof (inv_n _ _ I) as (_ & N2 & N3 & _).
  destruct c as [[h objs inst cv] vs stop cpc spc tr].
  unfold inv_locks in L. cbn [garbageCollectionThread proc vars store] in *. subst spc.
  cbn [_cvMutex objects _instance] in L. destruct L as (-> & -> & -> & l & -> & ->).
  rewrite tracked_explicit in *. destruct l as [|sp l]; [discriminate|].
  injection Hh as ->.
  assert (Some bk ∈ vs) as Hin by (eapply list_elem_of_lookup_2, Hv).
  destruct (blocks h !! bk) as [cb|] eqn:Eb; [|destruct (N3 bk Eb) as [_ K]; contradiction].
  destruct (N2 bk cb Eb) as [_ K].
  assert (occ bk vs <> 0) as Hnz by (intros Hz; apply occ_zero in Hz; contradiction).
  destruct t.
  - unfold step, caller_step, caller_waits in *. cbn [caller] in *.
    destruct cpc as [[|[p|j|j] rest]|code|code|code]; try contradiction; reflexivity.
  - unfold step, sweeper_step. cbn [garbageCollectionThread proc objects store].
    cbn [lookup list_lookup].
    rewrite (collect_iter_shared _ 0 (Some bk)); [reflexivity|reflexivity|].
    unfold unique, sp_use_count. cbn [mem]. rewrite Eb. cbn [from_option].
    apply Nat.eqb_neq. lia.
Qed.

(** X11: the deadlock of [runtime].  When the collection thread is in
    the loop of [collect], the first entry of the list is a handle that
    a variable of the function holds, and the calling thread is at a
    [gc] call, at the block that sets the stop flag, or in [join], then
    no thread ever moves again: whatever the schedule from there on,
    the configuration stays as it is. *)
Theorem runtime_deadlock (w : work) (sched sched' : list thread)
        (isNotTimeout : bool) (this iterator i bk : nat) :
  garbageCollectionThread (runtime w sched start)
  = Collecting isNotTimeout this iterator ->
  head (tracked (proc (runtime w sched start))) = Some (Some bk) ->
  vars (runtime w sched start) !! i = Some (Some bk) ->
  caller_waits (runtime w sched start) ->
  runtime w (sched ++ sched') start = runtime w sched start.
Proof.
  intros Hs Hh Hv Hw. rewrite runtime_app. apply fold_step_fixed. intros t.
  eapply stuck_step; eauto. apply inv_runtime.
Qed.

Lemma runtime_deadlock_witness :
  result (runtime (Work [Gc 10%Z; Gc 20%Z; Reset 0; Reset 1] 0%Z)
                  (caller_first (Work [Gc 10%Z; Gc 20%Z; Reset 0; Reset 1] 0%Z) 5) start)
  = Some 0%Z
  /\ runtime (Work [Gc 10%Z; Gc 20%Z; Reset 0; Reset 1] 0%Z)
             ([CallerThread; SweeperThread; SweeperThread]
              ++ [CallerThread; SweeperThread; CallerThread; CallerThread]) start
     = runtime (Work [Gc 10%Z; Gc 20%Z; Reset 0; Reset 1] 0%Z)
               [CallerThread; SweeperThread; SweeperThread] start.
Proof.
  split; [vm_compute; reflexivity|].
  apply (runtime_deadlock (Work [Gc 10%Z; Gc 20%Z; Reset 0; Reset 1] 0%Z)
                          [CallerThread; SweeperThread; SweeperThread]
                          [CallerThread; SweeperThread; CallerThread; CallerThread]
                          false 0 0 0 0).
  - vm_compute. reflexivity.
  - vm_compute. reflexivity.
  - vm_compute. reflexivity.
  - vm_compute. exact I.
Defined.

Lemma caller_step_store (w : work) (c : config) :
  inv_locks c -> inv_counts c ->
  deleted (store (proc (caller_step w c))) = deleted (store (proc c))
  /\ tracked (proc c) `prefix_of` tracked (proc (caller_step w c))
  /\ forall b, is_Some (blocks (store (proc c)) !! b) ->
               is_Some (blocks (store (proc (caller_step w c))) !! b).
Proof.
  intros L N. unfold caller_step.
  destruct (caller c) as [[|[p|i|i] rest]|code|code|code] eqn:Hc.
  - cbn [proc]. auto.
  - unfold do_op. unfold inv_locks in L.
    destruct (garbageCollectionThread c) as [|b|b a it|] eqn:Hs.
    + destruct L as [_ Ok].
      rewrite (getInstance_ok false _ Ok), (call_alloc p _ Ok).
      cbn [mbind option_bind objects lookup list_lookup _mutex proc store deleted blocks].
      rewrite tracked_explicit. split; [reflexivity|]. split; [apply prefix_app_r; reflexivity|].
      intros b' Hb'. apply lookup_insert_is_Some'. auto.
    + destruct L as [_ Ok].
      rewrite (getInstance_ok false _ Ok), (call_alloc p _ Ok).
      cbn [mbind option_bind objects lookup list_lookup _mutex proc store deleted blocks].
      rewrite tracked_explicit. split; [reflexivity|]. split; [apply prefix_app_r; reflexivity|].
      intros b' Hb'. apply lookup_insert_is_Some'. auto.
    + destruct L as (_ & -> & -> & l & Ho & Hi).
      rewrite (getInstance_ok true) by (right; eauto).
      cbn [mbind option_bind objects lookup list_lookup _mutex proc store].
      rewrite tracked_explicit. auto.
    + destruct L as [_ Ok].
      rewrite (getInstance_ok false _ Ok), (call_alloc p _ Ok).
      cbn [mbind option_bind objects lookup list_lookup _mutex proc store deleted blocks].
      rewrite tracked_explicit. split; [reflexivity|]. split; [apply prefix_app_r; reflexivity|].
      intros b' Hb'. apply lookup_insert_is_Some'. auto.
  - unfold do_op. cbn [proc store set_store].
    rewrite tracked_set_store, sp_copy_deleted. split; [reflexivity|]. split; [reflexivity|].
    intros b' [cb' Hb']. destruct (default None (vars c !! i)) as [b0|]; [|eauto].
    rewrite sp_copy_live. cbn [blocks]. destruct (decide (b0 = b')) as [->|Hne].
    + rewrite lookup_alter_eq, Hb'. simpl. eauto.
    + rewrite lookup_alter_ne by exact Hne. eauto.
  - unfold do_op. cbn [proc store set_store].
    rewrite tracked_set_store, (release_var c i N). split; [reflexivity|].
    split; [reflexivity|]. destruct N as (N1 & N2 & N3 & N4).
    intros b' Hb'. destruct (vars c !! i) as [[b0|]|] eqn:E; cbn [default from_option id];
      [|exact Hb'|exact Hb'].
    assert (Some b0 ∈ vars c) as Hin by (eapply list_elem_of_lookup_2, E).
    destruct (blocks (store (proc c)) !! b0) as [cb0|] eqn:Eb;
      [|destruct (N3 b0 Eb) as [_ K]; contradiction].
    destruct (N2 b0 cb0 Eb) as [_ K2].
    pose proof (occ_insert_None_eq b0 _ _ E) as Hocc.
    rewrite (sp_release_shared _ b0 cb0 Eb) by lia. cbn [blocks].
    apply lookup_insert_is_Some'. auto.
  - destruct (_cvMutex (proc c)); cbn [proc]; auto.
  - destruct (garbageCollectionThread c); cbn [proc]; auto.
  - auto.
Qed.

(** X12: no step of the calling thread runs a deleter, frees a control
    block or takes an entry off the list: whatever the function does
    with its handles, under [runtime] an object is destroyed only by
    the collection thread, inside [collect]. *)
Theorem runtime_caller_never_deletes (w : work) (sched : list thread) :
  deleted (store (proc (runtime w (sched ++ [CallerThread]) start)))
  = deleted (store (proc (runtime w sched start)))
  /\ tracked (proc (runtime w sched start))
     `prefix_of` tracked (proc (runtime w (sched ++ [CallerThread]) start))
  /\ forall b, is_Some (blocks (store (proc (runtime w sched start))) !! b) ->
               is_Some (blocks (store (proc (runtime w (sched ++ [CallerThread]) start)))
                        !! b).
Proof.
  rewrite runtime_app. pose proof (inv_runtime w sched) as I.
  apply (caller_step_store w _ (inv_l _ _ I) (inv_n _ _ I)).
Qed.

Lemma sweeper_begins (w : work) (c : config) (b : bool) :
  inv_locks c -> garbageCollectionThread c = Woken b ->
  garbageCollectionThread (step w SweeperThread c) = Collecting b 0 0.
Proof.
  intros L Hs. destruct c as [[h objs inst cv] vs stop cpc spc tr].
  simpl in Hs. subst. unfold inv_locks in L. simpl in L. destruct L as [-> Ok].
  simpl. unfold sweeper_step. cbn [garbageCollectionThread proc].
  rewrite (getInstance_ok false) by exact Ok. reflexivity.
Qed.

Lemma join_returns (w : work) (c : config) (code : Z) :
  inv w c -> inv_stop c ->
  caller c = Join code -> Forall (fun sp => sp = None) (vars c) ->
  exists n, result (run w (replicate n SweeperThread ++ [CallerThread]) c) = Some code.
Proof.
  intros I St Hc Hv.
  assert (gcStopSignal c = true) as Hstop.
  { destruct (inv_c _ _ I) as [C _]. rewrite Hc in C. apply C. }
  assert (forall c', inv w c' -> caller c' = Join code ->
                     Forall (fun sp => sp = None) (vars c') ->
                     garbageCollectionThread c' = Collecting true 0 0 ->
                     result (run w (replicate (S (length (tracked (proc c'))))
                                              SweeperThread ++ [CallerThread]) c')
                     = Some code) as Fin.
  { intros c' I' Hc' Hv' Hs'.
    destruct (sweep_to_exit w _ c' I' Hs' Hv' eq_refl) as [E1 E2].
    rewrite run_app. apply caller_joins; [rewrite E2; exact Hc'|exact E1]. }
  specialize (St Hstop).
  destruct (garbageCollectionThread c) as [|b|b a it|] eqn:Hs.
  - pose proof (final_sweep_begins w c I Hstop Hs) as Hs2.
    destruct (sweeper_keeps_caller w c) as (K1 & K2 & _).
    destruct (sweeper_keeps_caller w (step w SweeperThread c)) as (K3 & K4 & _).
    exists (2 + S (length (tracked (proc (step w SweeperThread (step w SweeperThread c)))))).
    rewrite replicate_add, <- app_assoc, run_app.
    change (run w (replicate 2 SweeperThread) c)
      with (step w SweeperThread (step w SweeperThread c)).
    apply Fin; [apply inv_step, inv_step, I|congruence|congruence|exact Hs2].
  - subst b. pose proof (sweeper_begins w c true (inv_l _ _ I) Hs) as Hs2.
    destruct (sweeper_keeps_caller w c) as (K1 & K2 & _).
    exists (1 + S (length (tracked (proc (step w SweeperThread c))))).
    rewrite replicate_add, <- app_assoc, run_app.
    change (run w (replicate 1 SweeperThread) c) with (step w SweeperThread c).
    apply Fin; [apply inv_step, I|congruence|congruence|exact Hs2].
  - subst b. pose proof (inv_l _ _ I) as L. unfold inv_locks in L. rewrite Hs in L.
    destruct L as (_ & -> & -> & _).
    exists (S (length (tracked (proc c)))). apply Fin; assumption.
  - exists 0. apply caller_joins; assumption.
Qed.

(** Where every entry of the list is unique, no variable of the
    function holds a handle. *)
Lemma unique_entries_no_vars (c : config) :
  inv_counts c ->
  Forall (fun sp => unique (store (proc c)) sp = true) (tracked (proc c)) ->
  Forall (fun sp => sp = None) (vars c)
  /\ forall bk, Some bk ∈ tracked (proc c) -> Some bk ∉ vars c.
Proof.
  intros (N1 & N2 & N3 & N4) Hu. rewrite Forall_forall in Hu.
  assert (forall bk, Some bk ∉ vars c) as No.
  { intros bk Hin.
    destruct (blocks (store (proc c)) !! bk) as [cb|] eqn:Eb;
      [|destruct (N3 bk Eb) as [_ K]; contradiction].
    destruct (N2 bk cb Eb) as [K1 K2]. specialize (Hu _ K1).
    unfold unique, sp_use_count in Hu. rewrite Eb in Hu. cbn [from_option] in Hu.
    apply Nat.eqb_eq in Hu. assert (occ bk (vars c) = 0) as Hz by lia.
    apply occ_zero in Hz. contradiction. }
  split; [|intros bk _; apply No].
  rewrite Forall_forall. intros [bk|] Hin; [|reflexivity]. exfalso. apply (No bk Hin).
Qed.

(** X13: [join] comes back when the list is the only owner left.  At
    any point of any schedule of a call of [runtime] at which the
    calling thread is in [join] and every entry of the list is unique,
    the collection thread, wherever it is, exits after finitely many of
    its own steps, and [runtime] then returns the value of the
    function. *)
Theorem runtime_join_returns (w : work) (sched : list thread) (code : Z) :
  caller (runtime w sched start) = Join code ->
  Forall (fun sp => unique (store (proc (runtime w sched start))) sp = true)
         (tracked (proc (runtime w sched start))) ->
  exists n,
    result (runtime w (sched ++ replicate n SweeperThread ++ [CallerThread]) start)
    = Some code.
Proof.
  intros Hc Hu. pose proof (inv_runtime w sched) as I.
  destruct (unique_entries_no_vars _ (inv_n _ _ I) Hu) as [Hv _].
  destruct (join_returns w _ code I (inv_stop_runtime w sched) Hc Hv) as [n R].
  exists n. rewrite runtime_app. exact R.
Qed.

Lemma runtime_join_returns_witness :
  (caller (runtime (drops_handle 10%Z 3%Z)
                   [CallerThread; CallerThread; CallerThread; CallerThread] start)
   = Join 3%Z
   /\ tracked (proc (runtime (drops_handle 10%Z 3%Z)
                             [CallerThread; CallerThread; CallerThread; CallerThread] start))
      = [Some 0])
  /\ exists n,
       result (runtime (drops_handle 10%Z 3%Z)
                       ([CallerThread; CallerThread; CallerThread; CallerThread]
                        ++ replicate n SweeperThread ++ [CallerThread]) start)
       = Some 3%Z.
Proof.
  split; [split; vm_compute; reflexivity|].
  apply (runtime_join_returns (drops_handle 10%Z 3%Z)
           [CallerThread; CallerThread; CallerThread; CallerThread] 3%Z).
  - vm_compute. reflexivity.
  - vm_compute. repeat constructor.
Defined.

(** X14: whenever a call of [runtime] returns, under any schedule, it
    returns the value of the function, and no handle variable of the
    function holds a handle any more: while one does, [runtime] does
    not return. *)
Theorem runtime_returns_only_when_released
        (w : work) (sched : list thread) (code : Z) :
  result (runtime w sched start) = Some code ->
  code = status w
  /\ Forall (fun sp => sp = None) (vars (runtime w sched start))
  /\ vars (runtime w sched start) = snd (handles (body w)).
Proof.
  intros R. destruct (returned_facts w _ code (inv_runtime w sched) R)
    as (K1 & _ & _ & K4 & K5). auto.
Qed.

Lemma runtime_returns_only_when_released_witness :
  result (runtime (drops_handle 10%Z 7%Z) (caller_first (drops_handle 10%Z 7%Z) 4) start)
  = Some 7%Z
  /\ (7%Z = status (drops_handle 10%Z 7%Z)
      /\ Forall (fun sp => sp = None)
                (vars (runtime (drops_handle 10%Z 7%Z)
                               (caller_first (drops_handle 10%Z 7%Z) 4) start))
      /\ vars (runtime (drops_handle 10%Z 7%Z)
                       (caller_first (drops_handle 10%Z 7%Z) 4) start)
         = snd (handles (body (drops_handle 10%Z 7%Z)))).
Proof.
  assert (result (runtime (drops_handle 10%Z 7%Z)
                          (caller_first (drops_handle 10%Z 7%Z) 4) start)
          = Some 7%Z) as R by (vm_compute; reflexivity).
  split; [exact R|].
  exact (runtime_returns_only_when_released _ _ _ R).
Defined.

(** X15: one evaluation of the loop of [collect] under [runtime].  With
    the collection thread in the loop and [bk] the first entry of the
    list: if the entry is not unique, the evaluation changes nothing;
    if it is unique, the evaluation runs the deleter on the object
    registered as number [bk], frees the control block, takes the entry
    off the list and stays in the loop. *)
Theorem runtime_sweep_step (w : work) (sched : list thread)
        (isNotTimeout : bool) (this iterator bk : nat) (l : list shared_ptr) :
  garbageCollectionThread (runtime w sched start)
  = Collecting isNotTimeout this iterator ->
  tracked (proc (runtime w sched start)) = Some bk :: l ->
  (unique (store (proc (runtime w sched start))) (Some bk) = false ->
   runtime w (sched ++ [SweeperThread]) start = runtime w sched start)
  /\ (unique (store (proc (runtime w sched start))) (Some bk) = true ->
      exists p,
        allocated (body w) !! bk = Some p
        /\ deleted (store (proc (runtime w (sched ++ [SweeperThread]) start)))
           = deleted (store (proc (runtime w sched start))) ++ [p]
        /\ blocks (store (proc (runtime w (sched ++ [SweeperThread]) start))) !! bk = None
        /\ tracked (proc (runtime w (sched ++ [SweeperThread]) start)) = l
        /\ garbageCollectionThread (runtime w (sched ++ [SweeperThread]) start)
           = Collecting isNotTimeout this iterator).
Proof.
  intros Hs Ht. rewrite runtime_app.
  pose proof (inv_runtime w sched) as I.
  pose proof (runtime_block_objects w sched) as M.
  revert Hs Ht I M. generalize (runtime w sched start). intros c Hs Ht I M.
  pose proof (inv_l _ _ I) as L.
  destruct c as [[h objs inst cv] vs stop cpc spc tr].
  unfold inv_locks in L. cbn [garbageCollectionThread proc vars store] in *. subst spc.
  cbn [_cvMutex objects _instance] in L. destruct L as (-> & -> & -> & l' & -> & ->).
  rewrite tracked_explicit in *. subst l'.
  change (run w [SweeperThread] ?x) with (sweeper_step x).
  unfold sweeper_step. cbn [garbageCollectionThread proc objects store lookup list_lookup].
  split.
  - intros U. rewrite (collect_iter_shared _ 0 (Some bk)); [reflexivity|reflexivity|exact U].
  - intros U. destruct (unique_true _ _ U) as (b & cb & [= <-] & Eb & Hu).
    rewrite (collect_iter_unique _ 0 (Some bk)); [|reflexivity|exact U].
    cbn [mem registry gc _pointers _mutex delete list_delete].
    rewrite (sp_release_last _ bk cb Eb Hu).
    exists (managed cb). cbn [proc store deleted blocks garbageCollectionThread].
    rewrite lookup_delete_eq. split; [apply (M bk cb Eb)|]. auto.
Qed.

Lemma runtime_sweep_step_witness :
  (garbageCollectionThread (runtime (keeps_handle 10%Z 0%Z) sweep_begun start)
   = Collecting false 0 0
   /\ tracked (proc (runtime (keeps_handle 10%Z 0%Z) sweep_begun start)) = [Some 0]
   /\ unique (store (proc (runtime (keeps_handle 10%Z 0%Z) sweep_begun start))) (Some 0)
      = false)
  /\ runtime (keeps_handle 10%Z 0%Z) (sweep_begun ++ [SweeperThread]) start
     = runtime (keeps_handle 10%Z 0%Z) sweep_begun start.
Proof.
  assert (garbageCollectionThread (runtime (keeps_handle 10%Z 0%Z) sweep_begun start)
          = Collecting false 0 0) as H1 by (vm_compute; reflexivity).
  assert (tracked (proc (runtime (keeps_handle 10%Z 0%Z) sweep_begun start)) = [Some 0])
    as H2 by (vm_compute; reflexivity).
  assert (unique (store (proc (runtime (keeps_handle 10%Z 0%Z) sweep_begun start))) (Some 0)
          = false) as H3 by (vm_compute; reflexivity).
  split; [split; [exact H1|split; [exact H2|exact H3]]|].
  exact (proj1 (runtime_sweep_step (keeps_handle 10%Z 0%Z) sweep_begun
                                   false 0 0 0 [] H1 H2) H3).
Defined.

(** ** The threads inside [getInstance] *)

Lemma getInstance_run_app (s1 s2 : list nat) (d : callers) :
  getInstance_run (s1 ++ s2) d = getInstance_run s2 (getInstance_run s1 d).
Proof. unfold getInstance_run. apply fold_left_app. Qed.

Lemma getInstance_run_S (k i : nat) (d : callers) :
  getInstance_run (replicate (S k) i) d
  = getInstance_run (replicate k i) (getInstance_step i d).
Proof. reflexivity. Qed.

Lemma getInstance_step_other (i j : nat) (d : callers) :
  j <> i -> pcs (getInstance_step i d) !! j = pcs d !! j.
Proof.
  intros Hne. unfold getInstance_step, new_GarbageCollector.
  repeat case_match; cbn [pcs]; rewrite ?list_lookup_insert_ne by congruence; reflexivity.
Qed.

Lemma getInstance_step_length (i : nat) (d : callers) :
  length (pcs (getInstance_step i d)) = length (pcs d).
Proof.
  unfold getInstance_step, new_GarbageCollector.
  repeat case_match; cbn [pcs]; rewrite ?length_insert; reflexivity.
Qed.

Lemma getInstance_runs_other (k i j : nat) (d : callers) :
  j <> i -> pcs (getInstance_run (replicate k i) d) !! j = pcs d !! j.
Proof.
  intros Hne. revert d. induction k as [|k IH]; intros d; [reflexivity|].
  rewrite getInstance_run_S, IH. apply getInstance_step_other, Hne.
Qed.

Lemma getInstance_runs_length (k i : nat) (d : callers) :
  length (pcs (getInstance_run (replicate k i) d)) = length (pcs d).
Proof.
  revert d. induction k as [|k IH]; intros d; [reflexivity|].
  rewrite getInstance_run_S, IH. apply getInstance_step_length.
Qed.

Lemma inv_held_step (i : nat) (d : callers) :
  callers_inv d -> inv_held d -> inv_held (getInstance_step i d).
Proof.
  intros (_ & _ & Free & _) H. unfold inv_held in *. unfold getInstance_step.
  destruct (pcs d !! i) as [pc|] eqn:Ei; [|exact H].
  assert (i < length (pcs d)) as Hi by (eapply lookup_lt_Some, Ei).
  assert (forall pc', holds_lock pc = false ->
            _globalMutex d = true ->
            exists j pj, <[i := pc']> (pcs d) !! j = Some pj /\ holds_lock pj = true) as Keep.
  { intros pc' Hpc Hm. destruct (H Hm) as (j & pj & Hj & Lj).
    exists j, pj. split; [|exact Lj]. rewrite list_lookup_insert_ne; [exact Hj|].
    intros <-. congruence. }
  destruct pc; cbn [pcs _globalMutex].
  - apply Keep. reflexivity.
  - destruct (_globalMutex d) eqn:Em; [rewrite Em; exact H|]. cbn [pcs _globalMutex].
    intros _. exists i, Locked. split; [apply list_lookup_insert_eq, Hi|reflexivity].
  - intros _. eexists i, _. split; [apply list_lookup_insert_eq, Hi|].
    destruct (_instance (shared d)); reflexivity.
  - unfold new_GarbageCollector. cbn [pcs _globalMutex].
    intros _. exists i, Unlock. split; [apply list_lookup_insert_eq, Hi|reflexivity].
  - discriminate.
  - apply Keep. reflexivity.
  - exact H.
Qed.

Lemma getInstance_reachable (n : nat) (sched : list nat) :
  callers_inv (getInstance_run sched (enter n start))
  /\ inv_held (getInstance_run sched (enter n start))
  /\ length (pcs (getInstance_run sched (enter n start))) = n.
Proof.
  unfold getInstance_run.
  assert (callers_inv (enter n start) /\ inv_held (enter n start)
          /\ length (pcs (enter n start)) = n) as H0.
  { split; [apply callers_inv_enter|]. split; [intros H; discriminate H|].
    apply length_replicate. }
  revert H0. generalize (enter n start).
  induction sched as [|i sched IH]; intros d (I & H & L); [auto|].
  simpl. apply IH. split; [apply callers_inv_step, I|].
  split; [apply inv_held_step; assumption|].
  rewrite getInstance_step_length. exact L.
Qed.

Lemma getInstance_finishes (i : nat) (d : callers) (pc : getInstance_pc) :
  pcs d !! i = Some pc ->
  _globalMutex d = false \/ holds_lock pc = true ->
  exists k,
    _globalMutex (getInstance_run (replicate k i) d) = false
    /\ exists r, pcs (getInstance_run (replicate k i) d) !! i = Some (Got r).
Proof.
  assert (forall d pc', pcs d !! i = Some pc' -> i < length (pcs d)) as Lt
    by (intros d0 pc' E; eapply lookup_lt_Some, E).
  assert (forall d, pcs d !! i = Some AtReturn -> _globalMutex d = false ->
                    exists k, _globalMutex (getInstance_run (replicate k i) d) = false
                              /\ exists r, pcs (getInstance_run (replicate k i) d) !! i
                                           = Some (Got r)) as RA.
  { intros d0 E M. exists 1. rewrite getInstance_run_S.
    unfold getInstance_step. rewrite E. cbn.
    split; [exact M|]. eexists. apply list_lookup_insert_eq. eapply Lt, E. }
  assert (forall d, pcs d !! i = Some Unlock ->
                    exists k, _globalMutex (getInstance_run (replicate k i) d) = false
                              /\ exists r, pcs (getInstance_run (replicate k i) d) !! i
                                           = Some (Got r)) as RU.
  { intros d0 E. destruct (RA (getInstance_step i d0)) as [k G].
    - unfold getInstance_step. rewrite E. cbn. apply list_lookup_insert_eq. eapply Lt, E.
    - unfold getInstance_step. rewrite E. reflexivity.
    - exists (S k). rewrite getInstance_run_S. exact G. }
  assert (forall d, pcs d !! i = Some Constructing ->
                    exists k, _globalMutex (getInstance_run (replicate k i) d) = false
                              /\ exists r, pcs (getInstance_run (replicate k i) d) !! i
                                           = Some (Got r)) as RC.
  { intros d0 E. destruct (RU (getInstance_step i d0)) as [k G].
    - unfold getInstance_step, new_GarbageCollector. rewrite E. cbn.
      apply list_lookup_insert_eq. eapply Lt, E.
    - exists (S k). rewrite getInstance_run_S. exact G. }
  assert (forall d, pcs d !! i = Some Locked ->
                    exists k, _globalMutex (getInstance_run (replicate k i) d) = false
                              /\ exists r, pcs (getInstance_run (replicate k i) d) !! i
                                           = Some (Got r)) as RL.
  { intros d0 E.
    assert (pcs (getInstance_step i d0) !! i
            = Some (match _instance (shared d0) with
                    | Some _ => Unlock | None => Constructing end)) as E'.
    { unfold getInstance_step. rewrite E. cbn. apply list_lookup_insert_eq. eapply Lt, E. }
    destruct (_instance (shared d0));
      [destruct (RU _ E') as [k G]|destruct (RC _ E') as [k G]];
      exists (S k); rewrite getInstance_run_S; exact G. }
  assert (forall d, pcs d !! i = Some WantLock -> _globalMutex d = false ->
                    exists k, _globalMutex (getInstance_run (replicate k i) d) = false
                              /\ exists r, pcs (getInstance_run (replicate k i) d) !! i
                                           = Some (Got r)) as RW.
  { intros d0 E M. destruct (RL (getInstance_step i d0)) as [k G].
    - unfold getInstance_step. rewrite E, M. cbn.
      apply list_lookup_insert_eq. eapply Lt, E.
    - exists (S k). rewrite getInstance_run_S. exact G. }
  intros E [M|Hl].
  - destruct pc.
    + assert (pcs (getInstance_step i d) !! i
              = Some (match _instance (shared d) with
                      | Some _ => AtReturn | None => WantLock end)) as E'.
      { unfold getInstance_step. rewrite E. cbn. apply list_lookup_insert_eq. eapply Lt, E. }
      assert (_globalMutex (getInstance_step i d) = false) as M'
        by (unfold getInstance_step; rewrite E; exact M).
      destruct (_instance (shared d));
        [destruct (RA _ E' M') as [k G]|destruct (RW _ E' M') as [k G]];
        exists (S k); rewrite getInstance_run_S; exact G.
    + apply RW; assumption.
    + apply RL; assumption.
    + apply RC; assumption.
    + apply RU; assumption.
    + apply RA; assumption.
    + exists 0. split; [exact M|]. eauto.
  - destruct pc; try discriminate; [apply RL|apply RC|apply RU]; assumption.
Qed.

Lemma getInstance_all_finish (k : nat) (d : callers) :
  _globalMutex d = false -> k <= length (pcs d) ->
  exists sched,
    _globalMutex (getInstance_run sched d) = false
    /\ length (pcs (getInstance_run sched d)) = length (pcs d)
    /\ forall j, j < k -> exists r, pcs (getInstance_run sched d) !! j = Some (Got r).
Proof.
  intros M. induction k as [|k IH]; intros Hk.
  - exists []. split; [exact M|]. split; [reflexivity|]. intros j Hj. lia.
  - destruct IH as (s1 & M1 & L1 & G1); [lia|].
    destruct (lookup_lt_is_Some_2 (pcs (getInstance_run s1 d)) k) as [pc Ek]; [lia|].
    destruct (getInstance_finishes k _ pc Ek (or_introl M1)) as (n & M2 & r & G2).
    exists (s1 ++ replicate n k). rewrite getInstance_run_app.
    split; [exact M2|]. split.
    + rewrite getInstance_runs_length. exact L1.
    + intros j Hj. destruct (decide (j = k)) as [->|Hne]; [eauto|].
      rewrite (getInstance_runs_other n k j _ Hne). apply G1. lia.
Qed.

(** X16: however the threads interleave inside [getInstance()] on a
    process without an instance, at every point at most one collector
    has been constructed, at most one thread is inside the guarded
    block, [_globalMutex] is held exactly when one is, and every thread
    that has returned has got the one collector. *)
Theorem getInstance_concurrent (n : nat) (sched : list nat) :
  length (objects (shared (getInstance_run sched (enter n start)))) <= 1
  /\ (forall i j pi pj,
        pcs (getInstance_run sched (enter n start)) !! i = Some pi ->
        pcs (getInstance_run sched (enter n start)) !! j = Some pj ->
        holds_lock pi = true -> holds_lock pj = true -> i = j)
  /\ (_globalMutex (getInstance_run sched (enter n start)) = true
      <-> exists i pi, pcs (getInstance_run sched (enter n start)) !! i = Some pi
                       /\ holds_lock pi = true)
  /\ (forall i r, pcs (getInstance_run sched (enter n start)) !! i = Some (Got r) ->
                  r = Some 0).
Proof.
  destruct (getInstance_reachable n sched) as ((S0 & Uq & Free & _ & _ & Gt) & H & _).
  split; [destruct S0 as [[-> _]|(g & -> & _)]; simpl; lia|].
  split; [exact Uq|]. split; [|exact Gt].
  split; [exact H|]. intros (i & pi & Hi & Li).
  destruct (_globalMutex (getInstance_run sched (enter n start))) eqn:Em; [reflexivity|].
  rewrite (Free eq_refl i pi Hi) in Li. discriminate.
Qed.

(** X17: [getInstance()] cannot deadlock.  From every point that [n]
    threads inside [getInstance()] can reach, the threads can be
    scheduled so that all of them return, each with the one collector,
    and [_globalMutex] is free. *)
Theorem getInstance_all_return (n : nat) (sched : list nat) :
  exists sched',
    pcs (getInstance_run (sched ++ sched') (enter n start)) = replicate n (Got (Some 0))
    /\ _globalMutex (getInstance_run (sched ++ sched') (enter n start)) = false.
Proof.
  destruct (getInstance_reachable n sched) as (I & H & L).
  assert (exists s0, _globalMutex (getInstance_run (sched ++ s0) (enter n start)) = false)
    as [s0 M0].
  { destruct (_globalMutex (getInstance_run sched (enter n start))) eqn:Em.
    - destruct (H Em) as (i & pi & Hi & Li).
      destruct (getInstance_finishes i _ pi Hi (or_intror Li)) as (k & M & _).
      exists (replicate k i). rewrite getInstance_run_app. exact M.
    - exists []. rewrite app_nil_r. exact Em. }
  destruct (getInstance_reachable n (sched ++ s0)) as (_ & _ & L0).
  destruct (getInstance_all_finish n _ M0) as (s1 & M1 & L1 & G1); [lia|].
  exists (s0 ++ s1). rewrite app_assoc, getInstance_run_app. split; [|exact M1].
  destruct (getInstance_reachable n ((sched ++ s0) ++ s1))
    as ((_ & _ & _ & _ & _ & Gt) & _ & L2).
  rewrite getInstance_run_app in Gt, L2.
  apply list_eq. intros j. destruct (decide (j < n)) as [Hj|Hj].
  - destruct (G1 j Hj) as [r Gj]. rewrite Gj, (Gt j r Gj).
    symmetry. apply lookup_replicate_2. exact Hj.
  - rewrite !lookup_ge_None_2; [reflexivity|rewrite length_replicate; lia|lia].
Qed.

(** ** A sweep that meets only unique entries *)

Lemma sweeper_step_fresh (w : work) (c : config) :
  inv_locks c ->
  fresh_block (store (proc (step w SweeperThread c))) = fresh_block (store (proc c)).
Proof.
  intros L. pose proof (step_moves w SweeperThread c L) as M.
  destruct (sweeper_keeps_caller w c) as (Kc & _ & _).
  revert Kc. generalize dependent (step w SweeperThread c). intros c' M.
  assert (forall (o : op) rest, InFunction rest <> InFunction (o :: rest)) as Ne.
  { intros o rest H. injection H as H. induction rest as [|o' rest IH]; [discriminate|].
    injection H as -> H. auto. }
  destruct M as [|p rest Hc Hs h|i rest Hc|i rest Hc|Hc|code Hc Hcv|code Hc Hs
                 |Hs|b Hs|b bk cb l Hs Ht Hb Hu h|b Hs Ht];
    cbn [caller proc store set_store set_cvMutex fresh_block]; intros Kc;
    rewrite ?sp_copy_fresh, ?sp_release_fresh; try reflexivity;
    rewrite Hc in Kc; exfalso; eapply Ne, Kc.
Qed.

Lemma sweeper_leaves_list (w : work) (c : config) (b : bool) :
  inv_locks c -> garbageCollectionThread c = Collecting b 0 0 -> tracked (proc c) = [] ->
  tracked (proc (step w SweeperThread c)) = []
  /\ trace (step w SweeperThread c)
     = trace c ++ SweepEnd :: (if b then [LoopExit] else []).
Proof.
  intros L Hs Ht. destruct c as [[h objs inst cv] vs stop cpc spc tr].
  simpl in Hs, Ht. subst. unfold inv_locks in L. simpl in L.
  destruct L as (-> & _ & _ & l & -> & ->). rewrite tracked_explicit in Ht. subst l.
  unfold step, sweeper_step. cbn [garbageCollectionThread proc objects store].
  cbn [lookup list_lookup]. rewrite collect_iter_end by reflexivity.
  split; reflexivity.
Qed.

Lemma sweeper_evicts_trace (w : work) (c : config) (b : bool) (bk : nat) (cb : ctrl)
      (l : list shared_ptr) :
  inv_locks c -> garbageCollectionThread c = Collecting b 0 0 ->
  tracked (proc c) = Some bk :: l ->
  blocks (store (proc c)) !! bk = Some cb -> use_count cb = 1 ->
  trace (step w SweeperThread c) = trace c.
Proof.
  intros L Hs Ht Hb Hu. destruct c as [[h objs inst cv] vs stop cpc spc tr].
  simpl in Hs, Ht, Hb. subst. unfold inv_locks in L. simpl in L.
  destruct L as (-> & _ & _ & l' & -> & ->). rewrite tracked_explicit in Ht. subst l'.
  unfold step, sweeper_step. cbn [garbageCollectionThread proc objects store].
  cbn [lookup list_lookup].
  rewrite (collect_iter_unique _ 0 (Some bk)); [reflexivity|reflexivity|].
  unfold unique, sp_use_count. cbn [mem]. rewrite Hb. simpl. rewrite Hu. reflexivity.
Qed.

Lemma sweep_runs_through (w : work) (n : nat) (c : config) (b : bool) :
  inv w c -> garbageCollectionThread c = Collecting b 0 0 ->
  (forall bk, Some bk ∈ tracked (proc c) -> Some bk ∉ vars c) ->
  length (tracked (proc c)) = n ->
  garbageCollectionThread (run w (replicate (S n) SweeperThread) c)
  = (if b then Exited else Waiting)
  /\ caller (run w (replicate (S n) SweeperThread) c) = caller c
  /\ vars (run w (replicate (S n) SweeperThread) c) = vars c
  /\ tracked (proc (run w (replicate (S n) SweeperThread) c)) = []
  /\ fresh_block (store (proc (run w (replicate (S n) SweeperThread) c)))
     = fresh_block (store (proc c))
  /\ trace (run w (replicate (S n) SweeperThread) c)
     = trace c ++ SweepEnd :: (if b then [LoopExit] else []).
Proof.
  revert c. induction n as [|n IH]; intros c I Hs Hv Hn.
  - cbn [replicate]. rewrite run_cons. change (run w [] ?x) with x.
    destruct (tracked (proc c)) eqn:Ht; [|discriminate].
    destruct (sweeper_keeps_caller w c) as (Kc & Kv & _).
    destruct (sweeper_leaves_list w c b (inv_l _ _ I) Hs Ht) as [Kt Kr].
    split; [apply (sweeper_leaves w c b (inv_l _ _ I) Hs Ht)|].
    split; [exact Kc|]. split; [exact Kv|]. split; [exact Kt|].
    split; [apply sweeper_step_fresh, (inv_l _ _ I)|exact Kr].
  - destruct (tracked (proc c)) as [|[bk|] l] eqn:Ht; [discriminate| |].
    + pose proof (inv_n _ _ I) as (N1 & N2 & N3 & N4).
      destruct (blocks (store (proc c)) !! bk) as [cb|] eqn:Eb.
      * destruct (N2 bk cb Eb) as [_ K].
        assert (occ bk (vars c) = 0) as Hz
          by (apply occ_zero, Hv, list_elem_of_here).
        assert (use_count cb = 1) as Hu by lia.
        destruct (sweeper_evicts w c b bk cb l (inv_l _ _ I) Hs Ht Eb Hu) as [Hs' Ht'].
        pose proof (sweeper_evicts_trace w c b bk cb l (inv_l _ _ I) Hs Ht Eb Hu) as Hr'.
        destruct (sweeper_keeps_caller w c) as (Hc' & Hv' & _).
        change (replicate (S (S n)) SweeperThread)
          with (SweeperThread :: replicate (S n) SweeperThread).
        rewrite run_cons.
        destruct (IH (step w SweeperThread c)) as (R1 & R2 & R3 & R4 & R5 & R6).
        -- apply inv_step, I.
        -- exact Hs'.
        -- rewrite Ht', Hv'. intros b' Hb'. apply Hv. apply list_elem_of_further, Hb'.
        -- rewrite Ht'. simpl in Hn. lia.
        -- split; [exact R1|]. split; [congruence|]. split; [congruence|].
           split; [exact R4|]. split; [|congruence].
           rewrite R5. apply sweeper_step_fresh, (inv_l _ _ I).
      * exfalso. destruct (N3 bk Eb) as [K _]. apply K. rewrite Ht.
        apply list_elem_of_here.
    + exfalso. apply (inv_e _ _ I). rewrite Ht. apply list_elem_of_here.
Qed.

(** X18: a sweep that meets only unique entries runs through.  When
    the collection thread of a call of [runtime] is in the loop of
    [collect] and every entry of the list is unique, then after one
    evaluation of the loop per entry and one more the sweep has ended:
    the list is empty, no control block of a group that [gc] made is
    left, the deleter has been run on every object registered so far,
    in the order of registration, [_cvMutex] is free again, and the
    thread has exited if it had seen the stop flag and waits again if
    not. *)
Theorem runtime_sweep_runs_through (w : work) (sched : list thread)
        (isNotTimeout : bool) (this iterator : nat) :
  garbageCollectionThread (runtime w sched start)
  = Collecting isNotTimeout this iterator ->
  Forall (fun sp => unique (store (proc (runtime w sched start))) sp = true)
         (tracked (proc (runtime w sched start))) ->
  garbageCollectionThread
    (runtime w (sched ++ replicate (S (length (tracked (proc (runtime w sched start)))))
                                   SweeperThread) start)
  = (if isNotTimeout then Exited else Waiting)
  /\ tracked (proc (runtime w (sched ++ replicate
                                 (S (length (tracked (proc (runtime w sched start)))))
                                 SweeperThread) start)) = []
  /\ blocks (store (proc (runtime w (sched ++ replicate
                                 (S (length (tracked (proc (runtime w sched start)))))
                                 SweeperThread) start))) = ∅
  /\ deleted (store (proc (runtime w (sched ++ replicate
                                 (S (length (tracked (proc (runtime w sched start)))))
                                 SweeperThread) start)))
     = take (fresh_block (store (proc (runtime w sched start)))) (allocated (body w))
  /\ _cvMutex (proc (runtime w (sched ++ replicate
                                 (S (length (tracked (proc (runtime w sched start)))))
                                 SweeperThread) start)) = false
  /\ trace (runtime w (sched ++ replicate
                                 (S (length (tracked (proc (runtime w sched start)))))
                                 SweeperThread) start)
     = trace (runtime w sched start)
       ++ SweepEnd :: (if isNotTimeout then [LoopExit] else []).
Proof.
  intros Hs Hu. pose proof (inv_runtime w sched) as I.
  destruct (unique_entries_no_vars _ (inv_n _ _ I) Hu) as [_ Hv].
  pose proof (inv_l _ _ I) as L. unfold inv_locks in L. rewrite Hs in L.
  destruct L as (_ & -> & -> & _).
  destruct (sweep_runs_through w _ _ isNotTimeout I Hs Hv eq_refl)
    as (R1 & R2 & R3 & R4 & R5 & R6).
  rewrite <- runtime_app in R1, R4, R5, R6.
  set (sched2 := sched ++ replicate _ SweeperThread) in *.
  pose proof (inv_runtime w sched2) as I2.
  split; [exact R1|]. split; [exact R4|]. split; [|split; [|split; [|exact R6]]].
  - apply map_eq. intros b. rewrite lookup_empty.
    destruct (blocks (store (proc (runtime w sched2 start))) !! b) as [cb|] eqn:Eb;
      [|reflexivity].
    destruct (inv_n _ _ I2) as (_ & N2 & _). destruct (N2 b cb Eb) as [K _].
    rewrite R4 in K. inversion K.
  - destruct (inv_order_runtime w sched2) as (done & k & D1 & D2 & D3 & D4 & D5 & D6).
    rewrite R4 in D4. symmetry in D4. apply fmap_nil_inv in D4.
    assert (k = fresh_block (store (proc (runtime w sched2 start)))) as Hk.
    { destruct (fresh_block (store (proc (runtime w sched2 start))) - k) eqn:E;
        [lia|discriminate]. }
    rewrite D5, <- R5, <- Hk, D1, allocated_app, take_app_le by lia. reflexivity.
  - pose proof (inv_l _ _ I2) as L2. unfold inv_locks in L2. rewrite R1 in L2.
    destruct isNotTimeout; apply L2.
Qed.

Lemma runtime_sweep_runs_through_witness :
  deleted (store (proc (runtime (drops_handle 10%Z 0%Z)
    ([CallerThread; CallerThread; SweeperThread; SweeperThread]
     ++ replicate (S (length (tracked (proc (runtime (drops_handle 10%Z 0%Z)
                   [CallerThread; CallerThread; SweeperThread; SweeperThread] start)))))
                  SweeperThread) start)))
  = [10%Z]
  /\ garbageCollectionThread (runtime (drops_handle 10%Z 0%Z)
    ([CallerThread; CallerThread; SweeperThread; SweeperThread]
     ++ replicate (S (length (tracked (proc (runtime (drops_handle 10%Z 0%Z)
                   [CallerThread; CallerThread; SweeperThread; SweeperThread] start)))))
                  SweeperThread) start)
  = Waiting.
Proof.
  assert (garbageCollectionThread
            (runtime (drops_handle 10%Z 0%Z)
                     [CallerThread; CallerThread; SweeperThread; SweeperThread] start)
          = Collecting false 0 0) as H1 by (vm_compute; reflexivity).
  assert (Forall (fun sp => unique (store (proc (runtime (drops_handle 10%Z 0%Z)
                     [CallerThread; CallerThread; SweeperThread; SweeperThread] start)))
                                   sp = true)
                 (tracked (proc (runtime (drops_handle 10%Z 0%Z)
                     [CallerThread; CallerThread; SweeperThread; SweeperThread] start))))
    as H2 by (vm_compute; repeat constructor).
  destruct (runtime_sweep_runs_through (drops_handle 10%Z 0%Z)
              [CallerThread; CallerThread; SweeperThread; SweeperThread]
              false 0 0 H1 H2) as (R1 & _ & _ & R4 & _).
  split; [rewrite R4; vm_compute; reflexivity|exact R1].
Defined.
